(** * Processor-tree runtime: flows, transports, units and ports

    A shallow embedding of the parts of [flows.py], [library.py] and
    [daemon.py] that carry the obstruction protocol, the kernel output
    queue, the transport stack, the sequenced multiplexer, processor exits,
    the port sets, the fork supervisor and the unit namespace.

    Python objects are identified by natural numbers ([oid]); dictionaries
    whose iteration order is irrelevant are [gmap]s, the ones whose order is
    observable are association lists; sets are [gset]s or duplicate-free
    lists; exceptions are values of [exn]. *)

From Stdlib Require Import ZArith Lia Bool.
From Stdlib Require Import DecimalString HexadecimalString.
From stdpp Require Import gmap strings list fin_maps.

Set Default Proof Using "Type".

(** Identity of a Python object ([id(x)]). *)
Abbreviation oid := nat (only parsing).

(** Exceptions raised by the modelled code. *)
Inductive exn :=
| KeyError
| TypeError
| NameError
| AssertionError
| AttributeError
| IndexError
| FileNotFoundError
| EOFError
| StopIteration
| RecursionError
| Exception (msg : string).

(** Outcome of a call that may raise. *)
Inductive result (A : Type) :=
| Ok (a : A)
| Raise (e : exn).
Arguments Ok {A} a.
Arguments Raise {A} e.

(** Outcome of a call whose effects on the state remain when it raises. *)
Inductive outcome (A : Type) :=
| Returned (a : A)
| Raised (e : exn)
| Diverged.
Arguments Returned {A} a.
Arguments Raised {A} e.
Arguments Diverged {A}.

(** Computations on a state [S] that may raise, or not return; the state
    reached so far survives. *)
Definition stateful (S A : Type) : Type := S → S * outcome A.

#[global] Instance stateful_ret {S} : MRet (stateful S) :=
  λ A a s, (s, Returned a).
#[global] Instance stateful_bind {S} : MBind (stateful S) :=
  λ A B f m s,
    match m s with
    | (s', Returned a) => f a s'
    | (s', Raised e) => (s', Raised e)
    | (s', Diverged) => (s', Diverged)
    end.

Definition get {S} : stateful S S := λ s, (s, Returned s).
Definition modify {S} (f : S → S) : stateful S () := λ s, (f s, Returned ()).
Definition raise {S A} (e : exn) : stateful S A := λ s, (s, Raised e).
Definition diverge {S A} : stateful S A := λ s, (s, Diverged).

(** The [assert] statement. *)
Definition assert {S} (b : bool) : stateful S () :=
  if b then mret () else raise AssertionError.

(* ===================================================================== *)
(** * [flows.Channel]: obstructions and monitors *)
(* ===================================================================== *)

Module Channel.

(** [core.Condition(focus, path, parameter)], and the [Inexorable]
    sentinel. *)
Inductive condition :=
| Condition (focus : oid) (path : list string) (parameter : option oid)
| Inexorable.

(** The value stored per obstruction key: [(signal, condition)]. *)
Abbreviation obstruction := (option oid * option condition)%type (only parsing).

(** A monitor pair [(obstructed, cleared)]; callbacks are identified by the
    object they are. *)
Abbreviation sentry := (oid * oid)%type (only parsing).

(** Calls made on monitors: [sentry[0](self)] and [sentry[1](self)]. *)
Inductive call :=
| OnObstruct (s : sentry) (flow : oid)
| OnClear (s : sentry) (flow : oid).

#[global] Instance call_eq_dec : EqDecision call.
Proof. solve_decision. Defined.

(** The attributes of a [Channel] that the obstruction protocol touches.
    [None] is Python's [None]. *)
Record channel := {
  self : oid;
  f_obstructions : option (gmap oid obstruction);
  f_monitors : option (gset sentry);
}.

(** Truth value of a dictionary attribute that may be [None]. *)
Definition truthy_map (o : option (gmap oid obstruction)) : bool :=
  match o with
  | None => false
  | Some m => negb (bool_decide (m = ∅))
  end.

(** Iteration over [self.f_monitors] guarded by its truth value. *)
Definition sentries (c : channel) : list sentry :=
  match f_monitors c with
  | None => []
  | Some s => elements s
  end.

(** [Channel.f_obstructed]: [self.f_obstructions is not None]. *)
Definition f_obstructed (c : channel) : bool :=
  match f_obstructions c with
  | None => false
  | Some _ => true
  end.

(** [Channel.f_obstruct(by, signal, condition)]. *)
Definition f_obstruct (c : channel) (by_ : oid) (sig : option oid)
    (cond : option condition) : channel * list call :=
  let first := negb (truthy_map (f_obstructions c)) in
  let obs := default ∅ (f_obstructions c) in
  let c' := {| self := self c;
               f_obstructions := Some (<[by_ := (sig, cond)]> obs);
               f_monitors := f_monitors c |} in
  (c', if first then (λ s, OnObstruct s (self c)) <$> sentries c else []).

(** [Channel.f_clear(obstruction)]; the boolean is the returned
    [cleared]. *)
Definition f_clear (c : channel) (key : oid) : bool * channel * list call :=
  match f_obstructions c with
  | None => (false, c, [])
  | Some f_obs =>
    if bool_decide (f_obs = ∅) then (false, c, [])
    else
      match f_obs !! key with
      | None => (false, c, [])
      | Some _ =>
        let f_obs' := delete key f_obs in
        if bool_decide (f_obs' = ∅) then
          (true,
           {| self := self c; f_obstructions := None;
              f_monitors := f_monitors c |},
           (λ s, OnClear s (self c)) <$> sentries c)
        else
          (false,
           {| self := self c; f_obstructions := Some f_obs';
              f_monitors := f_monitors c |},
           [])
      end
  end.

(** [Channel.f_watch(obstructed, cleared)]. *)
Definition f_watch (c : channel) (obstructed cleared : oid)
    : channel * list call :=
  let ms := default ∅ (f_monitors c) in
  let c' := {| self := self c;
               f_obstructions := f_obstructions c;
               f_monitors := Some ({[ (obstructed, cleared) ]} ∪ ms) |} in
  (c', if f_obstructed c' then [OnObstruct (obstructed, cleared) (self c)]
       else []).

(** [Channel.f_ignore(obstructed, cleared)]. *)
Definition f_ignore (c : channel) (obstructed cleared : oid) : channel :=
  match f_monitors c with
  | None => c
  | Some ms =>
    if bool_decide (ms = ∅) then c
    else {| self := self c;
            f_obstructions := f_obstructions c;
            f_monitors := Some (ms ∖ {[ (obstructed, cleared) ]}) |}
  end.

(** Number of obstructions currently registered. *)
Definition obstruction_count (c : channel) : nat :=
  match f_obstructions c with
  | None => 0
  | Some m => size m
  end.

(** A sequence of obstruction operations applied to one channel. *)
Inductive op :=
| Obstruct (by_ : oid) (sig : option oid) (cond : option condition)
| Clear (key : oid).

Definition step (c : channel) (o : op) : channel * list call :=
  match o with
  | Obstruct k s cd => f_obstruct c k s cd
  | Clear k => let '(_, c', l) := f_clear c k in (c', l)
  end.

Fixpoint run (c : channel) (ops : list op) : channel * list call :=
  match ops with
  | [] => (c, [])
  | o :: ops' =>
    let '(c1, l1) := step c o in
    let '(c2, l2) := run c1 ops' in
    (c2, l1 ++ l2)
  end.

(** The monitor calls owed to one change of the obstruction count: one
    [onObstruct] per registered pair when it leaves zero, one [onClear] per
    pair when it returns to zero, nothing otherwise. *)
Definition transition_calls (c : channel) (before after : nat) : list call :=
  match before, after with
  | 0, S _ => (λ s, OnObstruct s (self c)) <$> sentries c
  | S _, 0 => (λ s, OnClear s (self c)) <$> sentries c
  | _, _ => []
  end.

(** The calls owed to a whole run, read off the obstruction counts only. *)
Fixpoint owed_calls (c : channel) (ops : list op) : list call :=
  match ops with
  | [] => []
  | o :: ops' =>
    let c1 := (step c o).1 in
    transition_calls c (obstruction_count c) (obstruction_count c1)
      ++ owed_calls c1 ops'
  end.

(** Number of times the count leaves zero, respectively returns to it. *)
Fixpoint rises (c : channel) (ops : list op) : nat :=
  match ops with
  | [] => 0
  | o :: ops' =>
    let c1 := (step c o).1 in
    (match obstruction_count c, obstruction_count c1 with
     | 0, S _ => 1
     | _, _ => 0
     end) + rises c1 ops'
  end.

Fixpoint falls (c : channel) (ops : list op) : nat :=
  match ops with
  | [] => 0
  | o :: ops' =>
    let c1 := (step c o).1 in
    (match obstruction_count c, obstruction_count c1 with
     | S _, 0 => 1
     | _, _ => 0
     end) + falls c1 ops'
  end.

(** ** Vocabulary of the statements *)

Definition occurrences (x : call) (l : list call) : nat :=
  length (filter (λ y, y = x) l).

Definition watched_channel : channel :=
  {| self := 1; f_obstructions := None; f_monitors := Some {[ (10, 11) ]} |}.

End Channel.

(* ===================================================================== *)
(** * [flows.KOutput]: the bounded kernel output queue *)
(* ===================================================================== *)

Module KOutput.
Import Channel.

(** A chunk handed to the kernel. *)
Abbreviation buffer := (list Byte.byte) (only parsing).

(** A [KOutput] instance.  [transit_acquired] lists the buffers passed to
    [transit.acquire], oldest first, and [transit_terminated] records a call
    of [transit.terminate()]; [terminating] is the processor flag. *)
Record koutput := {
  chan : channel;
  ko_limit : nat;
  ko_queue : list buffer;
  k_transferred : option nat;
  terminating : bool;
  transit_acquired : list buffer;
  transit_terminated : bool;
}.

(** Class attribute [KOutput.ko_limit]. *)
Definition default_limit : nat := 16.

(** [KOutput.ko_overflow]: [len(self.ko_queue) > self.ko_limit]. *)
Definition ko_overflow (k : koutput) : bool :=
  ko_limit k <? length (ko_queue k).

(** [core.Condition(self, ('ko_overflow',))]. *)
Definition overflow_condition (k : koutput) : condition :=
  Condition (self (chan k)) ["ko_overflow"%string] None.

(** [KOutput.k_transition()]. *)
Definition k_transition (k : koutput) : koutput * list call :=
  match ko_queue k with
  | nb :: rest =>
    ({| chan := chan k; ko_limit := ko_limit k;
        ko_queue := rest;
        k_transferred := Some 0;
        terminating := terminating k;
        transit_acquired := transit_acquired k ++ [nb];
        transit_terminated := transit_terminated k |}, [])
  | [] =>
    let '(_, c', calls) := f_clear (chan k) (self (chan k)) in
    ({| chan := c'; ko_limit := ko_limit k;
        ko_queue := [];
        k_transferred := None;
        terminating := terminating k;
        transit_acquired := transit_acquired k;
        transit_terminated :=
          if terminating k then true else transit_terminated k |}, calls)
  end.

(** [KOutput.process(event)]: [event] is a sequence of buffers. *)
Definition process (k : koutput) (event : list buffer)
    : koutput * list call :=
  let k1 := {| chan := chan k; ko_limit := ko_limit k;
               ko_queue := ko_queue k ++ event;
               k_transferred := k_transferred k;
               terminating := terminating k;
               transit_acquired := transit_acquired k;
               transit_terminated := transit_terminated k |} in
  match k_transferred k1 with
  | None => k_transition k1
  | Some _ =>
    if ko_limit k1 <? length (ko_queue k1) then
      let '(c', calls) :=
        f_obstruct (chan k1) (self (chan k1)) None
          (Some (overflow_condition k1)) in
      ({| chan := c'; ko_limit := ko_limit k1;
          ko_queue := ko_queue k1;
          k_transferred := k_transferred k1;
          terminating := terminating k1;
          transit_acquired := transit_acquired k1;
          transit_terminated := transit_terminated k1 |}, calls)
    else (k1, [])
  end.

(** The obstruction the channel holds on itself, if any. *)
Definition self_obstruction (k : koutput) : option (option oid * option condition) :=
  f_obstructions (chan k) ≫= λ m, m !! self (chan k).

(** A freshly constructed [KOutput] with identity [i]. *)
Definition create (i : oid) : koutput :=
  {| chan := {| self := i; f_obstructions := None; f_monitors := None |};
     ko_limit := default_limit;
     ko_queue := [];
     k_transferred := None;
     terminating := false;
     transit_acquired := [];
     transit_terminated := false |}.

(** ** Vocabulary of the statements *)

Definition busy_output : koutput :=
  {| chan := {| self := 1; f_obstructions := None; f_monitors := None |};
     ko_limit := default_limit;
     ko_queue := [];
     k_transferred := Some 0;
     terminating := false;
     transit_acquired := [[]];
     transit_terminated := false |}.

End KOutput.

(* ===================================================================== *)
(** * [flows.Transports]: the protocol stack pair *)
(* ===================================================================== *)

Module Transports.

Section Stack.

(** The protocol layers are objects of classes outside this module.  A layer
    class contributes, through [Transports.operation_set], one triple of
    callables per direction: [ops[0]] transfers events through the layer,
    [ops[1]] tells whether this direction has transfers and [ops[2]] whether
    the opposite direction has.  [L] is the state of a layer object, [E] the
    type of events; the direction is the polarity, [1] or [-1].  The
    callables described are those that return; what a layer raises by
    itself is not described. *)
Context {L E : Type}.
Variable xfer : Z → L → list E → L * list E.
Variable opposite_has_work : Z → L → bool.
Variable layer_terminated : L → bool.

(** What the pair does to the flows connected to it. *)
Inductive effect :=
| Emit (polarity : Z) (events : list E)
| Terminate (downstream : oid).

(** One side of the pair.  [tf_operations] refers to the layers by identity;
    [f_emit] is the downstream whose [process] is bound, or [None] when
    events are discarded; [discarding] tells that [process] was rebound to
    [f_discarding]. *)
Record side := {
  tf_polarity : Z;
  tf_operations : list oid;
  terminating : bool;
  terminated : bool;
  f_downstream : option oid;
  f_emit : option oid;
  discarding : bool;
  controlled : bool;
}.

(** The pair created by [Transports.create]: the layer objects, the shared
    [tf_stack], and the two sides. *)
Record pair := {
  layers : gmap oid L;
  tf_stack : list oid;
  input : side;
  output : side;
  effects : list effect;
}.

(** Class attribute [Transports.polarity]: "neither input nor output".
    [__init__] assigns [tf_polarity] only, so every instance reads this
    value. *)
Definition polarity : Z := 0.

Definition get (pol : Z) (p : pair) : side :=
  if (pol =? 1)%Z then input p else output p.

Definition set (pol : Z) (s : side) (p : pair) : pair :=
  if (pol =? 1)%Z
  then {| layers := layers p; tf_stack := tf_stack p; input := s;
          output := output p; effects := effects p |}
  else {| layers := layers p; tf_stack := tf_stack p; input := input p;
          output := s; effects := effects p |}.

Definition log (e : effect) (p : pair) : pair :=
  {| layers := layers p; tf_stack := tf_stack p; input := input p;
     output := output p; effects := effects p ++ [e] |}.

Definition with_layers (m : gmap oid L) (p : pair) : pair :=
  {| layers := m; tf_stack := tf_stack p; input := input p;
     output := output p; effects := effects p |}.

Definition with_stack (st : list oid) (p : pair) : pair :=
  {| layers := layers p; tf_stack := st; input := input p;
     output := output p; effects := effects p |}.

(** [self.f_emit(events)]. *)
Definition emit (pol : Z) (events : list E) (p : pair) : pair :=
  match f_emit (get pol p) with
  | Some _ => log (Emit pol events) p
  | None => p
  end.

(** The first loop of [process]: pipe the events through every layer and
    note whether some layer reports work for the opposite side.  The
    source holds the callables themselves; an identity that names no layer
    is a reference to nothing, which stops the loop with [KeyError]. *)
Fixpoint transfer_all (pol : Z) (ops : list oid) (m : gmap oid L)
    (events : list E) (opposite : bool) : result (gmap oid L * list E * bool) :=
  match ops with
  | [] => Ok (m, events, opposite)
  | o :: ops' =>
    match m !! o with
    | None => Raise KeyError
    | Some l =>
      let '(l', events') := xfer pol l events in
      let m' := <[o := l']> m in
      let opposite' :=
        if opposite then true else opposite_has_work pol l' in
      transfer_all pol ops' m' events' opposite'
    end
  end.

(** The second loop: [x] counts, up to one, the layers still reporting
    opposite work. *)
Fixpoint pending_opposite (pol : Z) (ops : list oid) (m : gmap oid L) : nat :=
  match ops with
  | [] => 0
  | o :: ops' =>
    match m !! o with
    | Some l =>
      if opposite_has_work pol l then 1 else pending_opposite pol ops' m
    | None => pending_opposite pol ops' m
    end
  end.

(** [Channel.f_disconnect()]. *)
Definition f_disconnect (s : side) : side :=
  {| tf_polarity := tf_polarity s; tf_operations := tf_operations s;
     terminating := terminating s; terminated := terminated s;
     f_downstream := None; f_emit := None;
     discarding := discarding s; controlled := controlled s |}.

Definition with_operations (ops : list oid) (s : side) : side :=
  {| tf_polarity := tf_polarity s; tf_operations := ops;
     terminating := terminating s; terminated := terminated s;
     f_downstream := f_downstream s; f_emit := f_emit s;
     discarding := discarding s; controlled := controlled s |}.

(** [Channel._f_terminated()]: [process] and [f_emit] are rebound to
    [f_discarding]; the call [self.termination_completed()] that follows
    raises [AttributeError], as [library.Processor], the base of [Channel],
    defines no such method, so that the downstream is not told and no exit
    is signalled.  The result is the pair as the call leaves it, with the
    exception raised. *)
Definition f_terminated (pol : Z) (p : pair) : pair * exn :=
  let s := get pol p in
  let s' := {| tf_polarity := tf_polarity s;
               tf_operations := tf_operations s;
               terminating := terminating s; terminated := terminated s;
               f_downstream := f_downstream s; f_emit := None;
               discarding := true; controlled := controlled s |} in
  (set pol s' p, AttributeError).

(** Removal of the last, respectively first, item of a list
    ([del l[-1]], [del l[0]]), for the lists of operations of sides that
    are aligned with the stack, as [Transports.create] makes them; on an
    empty list, where the source raises [IndexError], nothing is
    removed. *)
Definition del_last (l : list oid) : list oid := take (length l - 1) l.
Definition del_first (l : list oid) : list oid := drop 1 l.

(** The [while stack and stack[-1].terminated] loop, over the stack read
    from its top. *)
Fixpoint pop_terminated (pol : Z) (top_down : list oid) (p : pair)
    : result pair :=
  match top_down with
  | [] => Ok (with_stack [] p)
  | o :: below =>
    match layers p !! o with
    | None => Raise KeyError
    | Some l =>
      if layer_terminated l then
        let own := if (tf_polarity (get pol p) =? 1)%Z then pol else (- pol)%Z in
        (* [own] is the side whose downstream is terminated: this side for
           the input, the opposite for the output. *)
        let s := get pol p in
        let o' := get (- pol) p in
        let '(s1, o1) :=
          if (tf_polarity s =? 1)%Z
          then (with_operations (del_last (tf_operations s)) s,
                with_operations (del_first (tf_operations o')) o')
          else (with_operations (del_first (tf_operations s)) s,
                with_operations (del_last (tf_operations o')) o') in
        let p1 := set (- pol) o1 (set pol s1 (with_stack (reverse below) p)) in
        match f_downstream (get own p1) with
        | None => Raise AttributeError
        | Some d =>
          let p2 := log (Terminate d) p1 in
          let p3 := set own (f_disconnect (get own p2)) p2 in
          pop_terminated pol below p3
        end
      else Ok (with_stack (reverse top_down) p)
    end
  end.

(** The tail of [process]: pop the terminated layers and, on an empty
    stack, call [_f_terminated] on the sides that are terminating, this
    side first. *)
Definition finish (pol : Z) (p : pair) : result pair :=
  match pop_terminated pol (reverse (tf_stack p)) p with
  | Raise e => Raise e
  | Ok p4 =>
    match tf_stack p4 with
    | [] =>
      if terminating (get pol p4) then Raise (f_terminated pol p4).2
      else if terminating (get (- pol) p4)
      then Raise (f_terminated (- pol) p4).2
      else Ok p4
    | _ :: _ => Ok p4
    end
  end.

(** The deadlock safeguard, evaluated after the opposite side has been
    drained: [if x and self.polarity == -1 and
    self._tf_opposite().terminating]. *)
Definition check_deadlock (pol : Z) (p : pair) : result pair :=
  let x := pending_opposite pol (tf_operations (get pol p)) (layers p) in
  if negb (x =? 0) && (polarity =? -1)%Z && terminating (get (- pol) p)
  then Raise (Exception "transport stack deadlock")
  else Ok p.

(** [Transports.process(events)] on the side of polarity [pol].  [depth] is
    the number of Python frames left: the call into the opposite side
    recurses "on purpose", bounded by the interpreter's stack depth. *)
Fixpoint process (depth : nat) (pol : Z) (p : pair) (events : list E)
    : result pair :=
  match depth with
  | 0 => Raise RecursionError
  | S depth' =>
    let s := get pol p in
    if discarding s then Ok p
    else match tf_operations s with
    | [] => Ok (emit pol events p)
    | _ :: _ =>
      match transfer_all pol (tf_operations s) (layers p) events false with
      | Raise e => Raise e
      | Ok (m, events', opposite) =>
        let p1 := emit pol events' (with_layers m p) in
        let drained :=
          if opposite then
            match process depth' (- pol) p1 [] with
            | Raise e => Raise e
            | Ok p2 => check_deadlock pol p2
            end
          else Ok p1 in
        match drained with
        | Raise e => Raise e
        | Ok p3 => finish pol p3
        end
      end
    end
  end.

End Stack.

(** ** Vocabulary of the statements *)

Definition deadlock : exn := Exception "transport stack deadlock".

(** A pair with one layer that never terminates and whose output direction
    always reports work for the opposite side. *)
Definition stuck_pair : @pair unit nat :=
  {| layers := {[ 5 := tt ]};
     tf_stack := [5];
     input := {| tf_polarity := 1; tf_operations := [5];
                 terminating := true; terminated := false;
                 f_downstream := Some 7; f_emit := Some 7;
                 discarding := false; controlled := true |};
     output := {| tf_polarity := -1; tf_operations := [5];
                  terminating := false; terminated := false;
                  f_downstream := Some 8; f_emit := Some 8;
                  discarding := false; controlled := true |};
     effects := [] |}.

Definition stuck_process :=
  process (λ _ l (ev : list nat), (l, ev)) (λ pol (_ : unit), (pol =? -1)%Z)
    (λ _, false).

End Transports.

(* ===================================================================== *)
(** * [daemon.ProcessManager]: the fork supervisor *)
(* ===================================================================== *)

Module ProcessManager.

(** Python's [str] on an integer. *)
Definition str (z : Z) : string :=
  DecimalString.NilZero.string_of_int (Z.to_int z).

(** [dispatch.Subprocess]: [sp_processes] maps process identifiers to the
    invocation objects (here the fork identifiers), [sp_exit_status] maps
    them to the reaped status; both keep insertion order. *)
Record subprocess := {
  sp_processes : list (Z * Z);
  sp_exit_status : list (Z * Z);
}.

(** [Subprocess.sp_only]. *)
Definition sp_only (sub : subprocess) : option Z :=
  if (1 <? length (sp_processes sub)) then None
  else match sp_exit_status sub with
       | [] => None
       | (_, status) :: _ => Some status
       end.

(** A child created by [process.Fork.dispatch(self.ctl_forked, fid)]: its
    process identifier, the argument [ctl_forked] received, and the value
    [ctl_forked] stored in [os.environ["SECTORS"]]. *)
Record child := {
  child_pid : Z;
  child_fork_id : Z;
  child_SECTORS : string;
}.

(** The manager, together with what it asked of the system: [next_pid] is
    the identifier the next fork returns to the parent, [forked] lists the
    children created so far and [dispatched] the subprocess transactions
    given to [xact_dispatch]. *)
Record manager := {
  ctl_concurrency : Z;
  terminating : bool;
  ctl_fork_id_to_subprocess : gmap Z subprocess;
  ctl_last_exit_status : gmap Z (Z * option Z);
  next_pid : Z;
  forked : list child;
  dispatched : list subprocess;
}.

(** [ProcessManager.ctl_forked(fork_id)], as far as the environment of the
    child is concerned. *)
Definition ctl_forked (pid fork_id : Z) : child :=
  {| child_pid := pid; child_fork_id := fork_id;
     child_SECTORS := str fork_id |}.

(** Modelled from the spec: [process.Fork.dispatch(self.ctl_forked, fid)],
    of the system library that is not part of the sources, creates a child
    process that runs [ctl_forked(fid)] and returns the identifier of the
    child to the parent. *)
Definition Fork_dispatch (m : manager) (fid : Z) : manager * Z :=
  let pid := next_pid m in
  ({| ctl_concurrency := ctl_concurrency m;
      terminating := terminating m;
      ctl_fork_id_to_subprocess := ctl_fork_id_to_subprocess m;
      ctl_last_exit_status := ctl_last_exit_status m;
      next_pid := (pid + 1)%Z;
      forked := forked m ++ [ctl_forked pid fid];
      dispatched := dispatched m |}, pid).

(** [ProcessManager.ctl_fork(fid)], parent side. *)
Definition ctl_fork (m : manager) (fid : Z) : manager :=
  let '(m1, pid) := Fork_dispatch m fid in
  let sub := {| sp_processes := [(pid, fid)]; sp_exit_status := [] |} in
  {| ctl_concurrency := ctl_concurrency m1;
     terminating := terminating m1;
     ctl_fork_id_to_subprocess :=
       <[fid := sub]> (ctl_fork_id_to_subprocess m1);
     ctl_last_exit_status := ctl_last_exit_status m1;
     next_pid := next_pid m1;
     forked := forked m1;
     dispatched := dispatched m1 ++ [sub] |}.

(** [ProcessManager.actuate()]: [for i in range(1, concurrency+1)]. *)
Definition actuate (m : manager) : manager :=
  foldl ctl_fork m (Z.of_nat <$> seq 1 (Z.to_nat (ctl_concurrency m))).

(** [ProcessManager.xact_exit(xact)], with [sub = xact.xact_context]. *)
Definition xact_exit (m : manager) (sub : subprocess) : result manager :=
  if terminating m then Ok m
  else
    match sp_processes sub with
    | [] => Raise StopIteration
    | (pid, fid) :: _ =>
      match ctl_fork_id_to_subprocess m !! fid with
      | None => Raise KeyError
      | Some _ =>
        let m1 :=
          {| ctl_concurrency := ctl_concurrency m;
             terminating := terminating m;
             ctl_fork_id_to_subprocess :=
               delete fid (ctl_fork_id_to_subprocess m);
             ctl_last_exit_status :=
               <[fid := (pid, sp_only sub)]> (ctl_last_exit_status m);
             next_pid := next_pid m;
             forked := forked m;
             dispatched := dispatched m |} in
        if (fid <? ctl_concurrency m + 1)%Z then Ok (ctl_fork m1 fid)
        else Ok m1
      end
    end.

(** A manager before [actuate]. *)
Definition create (concurrency first_pid : Z) : manager :=
  {| ctl_concurrency := concurrency; terminating := false;
     ctl_fork_id_to_subprocess := ∅; ctl_last_exit_status := ∅;
     next_pid := first_pid; forked := []; dispatched := [] |}.

End ProcessManager.

(* ===================================================================== *)
(** * [library.Unit]: the address space *)
(* ===================================================================== *)

Module Unit.

(** A directory of [u_hierarchy] is a Python dictionary from names to
    further dictionaries.  The dictionaries are objects: [u_faults] is
    reachable both as [faults] and as [dev/faults].  They live in [dicts],
    keyed by identity and keeping insertion order. *)
Abbreviation directory := (list (string * oid)) (only parsing).

Record unit := {
  u_index : gmap (list string) (option oid);
  u_reverse_index : gmap (option oid) (list string);
  u_hierarchy : oid;
  dicts : gmap oid directory;
  fresh : oid;
}.

(** [p[x]] on a directory. *)
Fixpoint entry (d : directory) (x : string) : option oid :=
  match d with
  | [] => None
  | (k, v) :: d' => if String.eqb k x then Some v else entry d' x
  end.

(** [Unit.__init__]. *)
Definition create : unit :=
  {| u_index :=
       <[ ["libexec"%string] := None ]>
       (<[ ["lib"%string] := None ]>
       (<[ ["etc"%string] := None ]>
       (<[ ["bin"%string] := None ]>
       (<[ ["faults"%string] := None ]>
       (<[ ["dev"%string; "faults"%string] := None ]>
       (<[ ["dev"%string] := None ]> ∅))))));
     u_reverse_index := ∅;
     u_hierarchy := 0;
     dicts :=
       <[ 0 := [("bin"%string, 2); ("lib"%string, 3); ("libexec"%string, 4);
                ("etc"%string, 5); ("dev"%string, 6); ("faults"%string, 1)] ]>
       (<[ 1 := [] ]>
       (<[ 2 := [] ]>
       (<[ 3 := [] ]>
       (<[ 4 := [] ]>
       (<[ 5 := [] ]>
       (<[ 6 := [("faults"%string, 1)] ]> ∅))))));
     fresh := 7 |}.

(** The loop of [place]: [if x in p: p = p[x]; else: p[x] = dict()].  The
    new dictionary is stored, and [p] stays where it is. *)
Fixpoint build_out (ds : gmap oid directory) (next : oid) (p : oid)
    (destination : list string) : gmap oid directory * oid :=
  match destination with
  | [] => (ds, next)
  | x :: rest =>
    let d := default [] (ds !! p) in
    match entry d x with
    | Some q => build_out ds next q rest
    | None =>
      build_out (<[ next := [] ]> (<[ p := d ++ [(x, next)] ]> ds))
        (S next) p rest
    end
  end.

(** [Unit.place(obj, *destination)]. *)
Definition place (u : unit) (obj : option oid) (destination : list string)
    : result unit :=
  let '(ds, next) := build_out (dicts u) (fresh u) (u_hierarchy u) destination in
  match destination with
  | [] =>
    (* [destination[0]] raises; the handler removes the index entry. *)
    Raise IndexError
  | x :: _ =>
    Ok {| u_index := <[ destination := obj ]> (u_index u);
          u_reverse_index :=
            if String.eqb x "faults" then u_reverse_index u
            else <[ obj := destination ]> (u_reverse_index u);
          u_hierarchy := u_hierarchy u;
          dicts := ds;
          fresh := next |}
  end.

(** [Unit.delete] with arguments [address]. *)
Definition delete (u : unit) (address : list string) : result unit :=
  match u_index u !! address with
  | None => Raise KeyError
  | Some obj =>
    match u_reverse_index u !! obj with
    | None => Raise KeyError
    | Some _ =>
      Ok {| u_index := base.delete address (u_index u);
            u_reverse_index := base.delete obj (u_reverse_index u);
            u_hierarchy := u_hierarchy u;
            dicts := dicts u;
            fresh := fresh u |}
    end
  end.

(** The walk of [listdir] from directory [p]. *)
Fixpoint walk (ds : gmap oid directory) (p : oid) (address : list string)
    : option (list string) :=
  match address with
  | [] => Some ((default [] (ds !! p)).*1)
  | x :: rest =>
    match entry (default [] (ds !! p)) x with
    | Some q => walk ds q rest
    | None => None
    end
  end.

(** [Unit.listdir] with arguments [address]; [None] is the returned [None]. *)
Definition listdir (u : unit) (address : list string) : option (list string) :=
  walk (dicts u) (u_hierarchy u) address.

(** ** Vocabulary of the statements *)

Definition placed_unit : unit :=
  match place create (Some 40) ["bin"%string; "worker"%string] with
  | Ok u => u
  | Raise _ => create
  end.

Definition deleted_unit : unit :=
  match delete placed_unit ["bin"%string; "worker"%string] with
  | Ok u => u
  | Raise _ => placed_unit
  end.

End Unit.

(* ===================================================================== *)
(** * [library.Ports]: the sets of listening sockets *)
(* ===================================================================== *)

Module Ports.

(** Endpoints: [Local((directory, file))] and the internet endpoints of
    the network library, [(kind, address, port)]. *)
Inductive endpoint :=
| Local (directory file : string)
| Internet (kind address : string) (port : Z).

#[global] Instance endpoint_eq_dec : EqDecision endpoint.
Proof. solve_decision. Defined.

(** [x.protocol]. *)
Definition protocol (x : endpoint) : string :=
  match x with
  | Local _ _ => "local"
  | Internet kind _ _ => kind
  end.

(** [str(x.route)] of a local endpoint: the directory joined with the
    file name. *)
Definition route (x : endpoint) : string :=
  match x with
  | Local directory file => directory +:+ "/" +:+ file
  | Internet _ _ _ => ""
  end.

(** The mapping held for one slot, in insertion order. *)
Abbreviation bindings_map := (list (endpoint * Z)) (only parsing).

(** What the attribute [sets] may hold: the mapping built by [__init__],
    [bind] and [close], or whatever [load] unpickled. *)
Inductive pyvalue :=
| Mapping (m : gmap string bindings_map)
| Str (s : string).

(** The file system: the type of the entry at a path, as
    [route.type()] reports it, and the content of the files written
    through [pickle]. *)
Record filesystem := {
  entries : gmap string string;
  content : gmap string (option pyvalue);
}.

(** The [Ports] device and the system around it.  [descriptors] is the
    state from which [context.bindings] allocates; [closed] lists the
    descriptors given to [os.close], oldest first. *)
Record ports := {
  sets : pyvalue;
  users : gmap string oid;
  fs : filesystem;
  descriptors : Z;
  closed : list Z;
}.

Definition with_sets (v : pyvalue) (p : ports) : ports :=
  {| sets := v; users := users p; fs := fs p;
     descriptors := descriptors p; closed := closed p |}.

Definition with_fs (f : filesystem) (p : ports) : ports :=
  {| sets := sets p; users := users p; fs := f;
     descriptors := descriptors p; closed := closed p |}.

(** [os.close(fd)]. *)
Definition os_close (fd : Z) (p : ports) : ports :=
  {| sets := sets p; users := users p; fs := fs p;
     descriptors := descriptors p; closed := closed p ++ [fd] |}.

(** [self.sets[slot]] on the [defaultdict(dict)]: a missing slot is created
    empty.  On a value that is no mapping the subscript raises. *)
Definition slot_dict (slot : string) : stateful ports bindings_map :=
  p ← get;
  match sets p with
  | Mapping m =>
    match m !! slot with
    | Some d => mret d
    | None => modify (with_sets (Mapping (<[slot := []]> m)));; mret []
    end
  | Str _ => raise TypeError
  end.

(** Assignment to the dictionary object of a slot. *)
Definition set_slot_dict (p : ports) (slot : string) (d : bindings_map)
    : ports :=
  match sets p with
  | Mapping m => with_sets (Mapping (<[slot := d]> m)) p
  | Str _ => p
  end.

(** [d[ep] = fd] on an insertion-ordered dictionary. *)
Fixpoint setitem (d : bindings_map) (ep : endpoint) (fd : Z) : bindings_map :=
  match d with
  | [] => [(ep, fd)]
  | (k, v) :: d' =>
    if decide (k = ep) then (k, fd) :: d' else (k, v) :: setitem d' ep fd
  end.

Fixpoint getitem (d : bindings_map) (ep : endpoint) : option Z :=
  match d with
  | [] => None
  | (k, v) :: d' => if decide (k = ep) then Some v else getitem d' ep
  end.

Fixpoint delitem (d : bindings_map) (ep : endpoint) : bindings_map :=
  match d with
  | [] => []
  | (k, v) :: d' => if decide (k = ep) then d' else (k, v) :: delitem d' ep
  end.

(** [set(iterable)]: duplicates removed. *)
Fixpoint to_set (l : list endpoint) : list endpoint :=
  match l with
  | [] => []
  | x :: l' => if decide (x ∈ l') then to_set l' else x :: to_set l'
  end.

(** [a - b] on sets. *)
Definition difference (a b : list endpoint) : list endpoint :=
  filter (λ x, x ∉ b) a.

(** [a.update(b)]. *)
Definition update (a b : list endpoint) : list endpoint :=
  a ++ difference b a.

(** The first loop of [bind]: existing socket files of local endpoints are
    removed, any other existing file is an error. *)
Fixpoint void_sockets (endpoints : list endpoint) : stateful ports () :=
  match endpoints with
  | [] => mret ()
  | x :: rest =>
    if String.eqb (protocol x) "local" then
      p ← get;
      match entries (fs p) !! route x with
      | None => void_sockets rest
      | Some type =>
        if String.eqb type "socket" then
          modify (with_fs {| entries := delete (route x) (entries (fs p));
                             content := content (fs p) |});;
          void_sockets rest
        else
          raise (Exception "cannot overwrite file that is not a socket file")
      end
    else void_sockets rest
  end.

(** Modelled from the spec: [self.context.bindings], which is not part of
    the sources, gives one new kernel descriptor per endpoint, in order; a
    bound local endpoint appears in the file system as a socket. *)
Fixpoint bindings (f : gmap string string) (next : Z)
    (endpoints : list endpoint) : gmap string string * Z * list Z :=
  match endpoints with
  | [] => (f, next, [])
  | x :: rest =>
    let f' := if String.eqb (protocol x) "local"
              then <[route x := "socket"%string]> f else f in
    let '(f'', next', fds) := bindings f' (next + 1)%Z rest in
    (f'', next', next :: fds)
  end.

(** [Ports.bind(slot, *endpoints)]. *)
Definition bind (slot : string) (endpoints : list endpoint)
    : stateful ports () :=
  d ← slot_dict slot;
  void_sockets endpoints;;
  p ← get;
  let '(f', next, fds) :=
    bindings (entries (fs p)) (descriptors p) endpoints in
  modify (λ p, {| sets := sets p; users := users p;
                  fs := {| entries := f'; content := content (fs p) |};
                  descriptors := next; closed := closed p |});;
  modify (λ p, set_slot_dict p slot
                 (foldl (λ d '(ep, fd), setitem d ep fd) d
                    (zip endpoints fds))).

(** An argument of [close]: the callers pass endpoints; [replace] passes a
    set object. *)
Inductive argument :=
| AnEndpoint (x : endpoint)
| ASet (s : list endpoint).

(** [sd.pop(x, None)] on the dictionary of [slot].  An empty dictionary
    returns the default before the key is hashed; otherwise hashing a set
    raises [TypeError]. *)
Definition pop (slot : string) (x : argument) : stateful ports (option Z) :=
  sd ← slot_dict slot;
  match sd with
  | [] => mret None
  | _ :: _ =>
    match x with
    | AnEndpoint e =>
      modify (λ p, set_slot_dict p slot (delitem sd e));;
      mret (getitem sd e)
    | ASet _ => raise TypeError
    end
  end.

(** The loop of [close]. *)
Fixpoint close_each (slot : string) (endpoints : list argument)
    : stateful ports () :=
  match endpoints with
  | [] => mret ()
  | x :: rest =>
    fd ← pop slot x;
    match fd with
    | Some n => modify (os_close n)
    | None => mret ()
    end;;
    close_each slot rest
  end.

(** [Ports.close(slot, *endpoints)]. *)
Definition close (slot : string) (endpoints : list argument)
    : stateful ports () :=
  slot_dict slot;;
  close_each slot endpoints.

(** [Ports.replace(slot, *endpoints)]. *)
Definition replace (slot : string) (endpoints : list endpoint)
    : stateful ports (list endpoint) :=
  d ← slot_dict slot;
  let current_endpoints := d.*1 in
  let new_endpoints := to_set endpoints in
  let delta := difference new_endpoints current_endpoints in
  bind slot delta;;
  let current_endpoints' := update current_endpoints delta in
  let removed := difference current_endpoints' new_endpoints in
  close slot [ASet removed];;
  mret removed.

(** The binding of the global name [pickle] in the module: [library.py]
    never imports it. *)
Definition pickle : option () := None.

(** [route.open('wb')]: the file is created or truncated. *)
Definition open_wb (f : filesystem) (path : string) : filesystem :=
  {| entries := <[path := "file"%string]> (entries f);
     content := <[path := None]> (content f) |}.

(** [Ports.store(route)], for a module in which [pickle] is bound as
    [pk]: [pickle.dump(str(route), f)]. *)
Definition store_with (pk : option ()) (path : string) : stateful ports () :=
  modify (λ p, with_fs (open_wb (fs p) path) p);;
  match pk with
  | None => raise NameError
  | Some _ =>
    modify (λ p, with_fs
      {| entries := entries (fs p);
         content := <[path := Some (Str path)]> (content (fs p)) |} p)
  end.

(** [Ports.load(route)]: [self.sets = pickle.load(f)]. *)
Definition load_with (pk : option ()) (path : string) : stateful ports () :=
  p ← get;
  match content (fs p) !! path with
  | None => raise FileNotFoundError
  | Some data =>
    match pk with
    | None => raise NameError
    | Some _ =>
      match data with
      | None => raise EOFError
      | Some v => modify (with_sets v)
      end
    end
  end.

Definition store := store_with pickle.
Definition load := load_with pickle.

(** [Ports.__init__], in a system with the given file system and next
    descriptor. *)
Definition create (f : filesystem) (next : Z) : ports :=
  {| sets := Mapping ∅; users := ∅; fs := f;
     descriptors := next; closed := [] |}.

(** ** Vocabulary of the statements *)

(** A computation that gives nothing to [os.close]. *)
Definition closes_nothing {A} (m : stateful ports A) : Prop :=
  ∀ p, closed (m p).1 = closed p.

Definition http_port : endpoint := Internet "ip4" "127.0.0.1" 80.
Definition alt_port : endpoint := Internet "ip4" "127.0.0.1" 8080.

(** A device whose slot ["http"] holds one endpoint on descriptor 3. *)
Definition serving : ports :=
  {| sets := Mapping {[ "http"%string := [(http_port, 3%Z)] ]};
     users := ∅;
     fs := {| entries := ∅; content := ∅ |};
     descriptors := 4;
     closed := [] |}.

(** The device of the process restarted on the file system [serving]
    stored to. *)
Definition restarted : ports :=
  create (fs (store "/run/ports" serving).1) 4.

End Ports.

(* ===================================================================== *)
(** * [flows.Catenation]: the sequenced multiplexer *)
(* ===================================================================== *)

Module Catenation.
Import Channel.

(** The events emitted downstream: [(Event.initiate, layer)],
    [(Event.transfer, layer, events)] and [(Event.terminate, layer)]. *)
Inductive token :=
| initiate (layer : oid)
| transfer (layer : oid) (events : list oid)
| terminate (layer : oid).

(** An entry of [cat_connections]: [(queue, layer, termination)]. *)
Record connection := {
  queue : option (list (list oid));
  layer : oid;
  term : option bool;
}.

(** The tasks this channel gives to [ctx_enqueue_task]. *)
Inductive task :=
| cat_flush_task
| cat_drain_task.

(** The channel, the upstream channels it obstructs and clears, and its
    surroundings: [terminated] tells that [process] and [f_emit] were
    rebound to [f_discarding]; [tasks] are its entries in the queue of the
    context, in order; [emitted] are the batches given to [f_emit];
    [faults] are the exceptions trapped by the context or raised into a
    caller. *)
Record catenation := {
  own : channel;
  cat_order : list oid;
  cat_connections : gmap oid connection;
  cat_flows : gmap oid (option oid);
  cat_events : list token;
  terminating : bool;
  terminated : bool;
  tasks : list task;
  emitted : list (list token);
  upstreams : gmap oid channel;
  faults : list exn;
}.

Abbreviation M := (stateful catenation) (only parsing).

Definition set_order (v : list oid) (c : catenation) : catenation :=
  {| own := own c; cat_order := v; cat_connections := cat_connections c;
     cat_flows := cat_flows c; cat_events := cat_events c;
     terminating := terminating c; terminated := terminated c;
     tasks := tasks c; emitted := emitted c;
     upstreams := upstreams c; faults := faults c |}.

Definition set_connections (v : gmap oid connection) (c : catenation)
    : catenation :=
  {| own := own c; cat_order := cat_order c; cat_connections := v;
     cat_flows := cat_flows c; cat_events := cat_events c;
     terminating := terminating c; terminated := terminated c;
     tasks := tasks c; emitted := emitted c;
     upstreams := upstreams c; faults := faults c |}.

Definition set_flows (v : gmap oid (option oid)) (c : catenation)
    : catenation :=
  {| own := own c; cat_order := cat_order c;
     cat_connections := cat_connections c;
     cat_flows := v; cat_events := cat_events c;
     terminating := terminating c; terminated := terminated c;
     tasks := tasks c; emitted := emitted c;
     upstreams := upstreams c; faults := faults c |}.

Definition set_events (v : list token) (c : catenation) : catenation :=
  {| own := own c; cat_order := cat_order c;
     cat_connections := cat_connections c;
     cat_flows := cat_flows c; cat_events := v;
     terminating := terminating c; terminated := terminated c;
     tasks := tasks c; emitted := emitted c;
     upstreams := upstreams c; faults := faults c |}.

Definition set_tasks (v : list task) (c : catenation) : catenation :=
  {| own := own c; cat_order := cat_order c;
     cat_connections := cat_connections c;
     cat_flows := cat_flows c; cat_events := cat_events c;
     terminating := terminating c; terminated := terminated c;
     tasks := v; emitted := emitted c;
     upstreams := upstreams c; faults := faults c |}.

Definition set_emitted (v : list (list token)) (c : catenation)
    : catenation :=
  {| own := own c; cat_order := cat_order c;
     cat_connections := cat_connections c;
     cat_flows := cat_flows c; cat_events := cat_events c;
     terminating := terminating c; terminated := terminated c;
     tasks := tasks c; emitted := v;
     upstreams := upstreams c; faults := faults c |}.

Definition set_upstreams (v : gmap oid channel) (c : catenation)
    : catenation :=
  {| own := own c; cat_order := cat_order c;
     cat_connections := cat_connections c;
     cat_flows := cat_flows c; cat_events := cat_events c;
     terminating := terminating c; terminated := terminated c;
     tasks := tasks c; emitted := emitted c;
     upstreams := v; faults := faults c |}.

Definition set_own (v : channel) (c : catenation) : catenation :=
  {| own := v; cat_order := cat_order c;
     cat_connections := cat_connections c;
     cat_flows := cat_flows c; cat_events := cat_events c;
     terminating := terminating c; terminated := terminated c;
     tasks := tasks c; emitted := emitted c;
     upstreams := upstreams c; faults := faults c |}.

Definition set_faults (v : list exn) (c : catenation) : catenation :=
  {| own := own c; cat_order := cat_order c;
     cat_connections := cat_connections c;
     cat_flows := cat_flows c; cat_events := cat_events c;
     terminating := terminating c; terminated := terminated c;
     tasks := tasks c; emitted := emitted c;
     upstreams := upstreams c; faults := v |}.

(** The state of an upstream channel; one never seen before has no
    obstructions and no monitors. *)
Definition upstream (c : catenation) (flow : oid) : channel :=
  default {| self := flow; f_obstructions := None; f_monitors := None |}
    (upstreams c !! flow).

(** [self.ctx_enqueue_task(task)]. *)
Definition ctx_enqueue_task (t : task) : M () :=
  modify (λ c, set_tasks (tasks c ++ [t]) c).

(** [self.termination_started()]: [library.Processor], the base of
    [Channel], defines no such method and the call raises
    [AttributeError]. *)
Definition termination_started : M () := raise AttributeError.

(** [Channel._f_terminated()]: [process] and [f_emit] are rebound to
    [f_discarding]; the call [self.termination_completed()] that follows
    raises [AttributeError], as [library.Processor] defines no such method,
    so that the downstream is not told and no exit is signalled. *)
Definition f_terminated : M () :=
  modify (λ c,
    {| own := own c; cat_order := cat_order c;
       cat_connections := cat_connections c;
       cat_flows := cat_flows c; cat_events := cat_events c;
       terminating := terminating c; terminated := true;
       tasks := tasks c; emitted := emitted c;
       upstreams := upstreams c; faults := faults c |});;
  raise AttributeError.

(** [if not self.cat_events: self.ctx_enqueue_task(self.cat_flush)]. *)
Definition flush_when_first : M () :=
  c ← get;
  match cat_events c with
  | [] => ctx_enqueue_task cat_flush_task
  | _ :: _ => mret ()
  end.

(** [self.cat_events.append(token)]. *)
Definition add (t : token) : M () :=
  modify (λ c, set_events (cat_events c ++ [t]) c).

(** [self.cat_order[0]]. *)
Definition head_of_line : M oid :=
  c ← get;
  match cat_order c with
  | [] => raise IndexError
  | l :: _ => mret l
  end.

(** [self.cat_connections[flow]]. *)
Definition connection_of (flow : oid) : M connection :=
  c ← get;
  match cat_connections c !! flow with
  | None => raise KeyError
  | Some cxn => mret cxn
  end.

(** [Catenation.cat_transition()]. *)
Definition cat_transition : M () :=
  c ← get;
  assert (negb (bool_decide (cat_order c = [])));;
  match cat_order c with
  | [] => raise IndexError
  | l :: order' =>
    modify (set_order order');;
    match cat_flows c !! l with
    | None => raise KeyError
    | Some f =>
      modify (set_flows (delete l (cat_flows c)));;
      match f with
      | Some flow =>
        match cat_connections c !! flow with
        | None => raise KeyError
        | Some _ => modify (set_connections (delete flow (cat_connections c)))
        end
      | None => mret ()
      end;;
      flush_when_first;;
      add (terminate l);;
      match order' with
      | [] => mret ()
      | next :: _ =>
        if bool_decide (is_Some (delete l (cat_flows c) !! next))
        then ctx_enqueue_task cat_drain_task
        else mret ()
      end
    end
  end.

(** [Catenation.cat_drain()]. *)
Definition cat_drain : M () :=
  c ← get;
  assert (negb (bool_decide (cat_order c = [])));;
  head ← head_of_line;
  match cat_flows c !! head with
  | None => raise KeyError
  | Some None => raise KeyError
  | Some (Some f) =>
    cxn ← connection_of f;
    flush_when_first;;
    add (initiate (layer cxn));;
    match queue cxn with
    | None => raise AttributeError
    | Some q =>
      modify (λ c, set_events
                (cat_events c ++ (transfer (layer cxn) <$> q)) c);;
      match term cxn with
      | None =>
        modify (λ c, set_connections
          (<[f := {| queue := None; layer := layer cxn; term := None |}]>
             (cat_connections c)) c);;
        modify (λ c, set_upstreams
          (<[f := (f_clear (upstream c f) (self (own c))).1.2]>
             (upstreams c)) c)
      | Some _ =>
        modify (λ c, set_connections
          (<[f := {| queue := Some []; layer := layer cxn;
                     term := term cxn |}]> (cat_connections c)) c);;
        cat_transition
      end
    end
  end.

(** [Catenation.cat_overflowing(flow)]. *)
Definition cat_overflowing (flow : oid) : M bool :=
  cxn ← connection_of flow;
  match queue cxn with
  | None => mret false
  | Some q => mret (8 <? length q)
  end.

(** [Catenation.cat_transfer(events, source)]. *)
Definition cat_transfer (events : list oid) (source : oid) : M () :=
  cxn ← connection_of source;
  head ← head_of_line;
  if bool_decide (layer cxn = head) then
    flush_when_first;;
    add (transfer (layer cxn) events)
  else
    match queue cxn with
    | Some q =>
      modify (λ c, set_connections
        (<[source := {| queue := Some (q ++ [events]); layer := layer cxn;
                        term := term cxn |}]> (cat_connections c)) c);;
      c ← get;
      overflowing ← cat_overflowing source;
      if negb (f_obstructed (upstream c source)) && overflowing then
        modify (set_upstreams
          (<[source :=
               (f_obstruct (upstream c source) (self (own c)) None
                  (Some (Condition (self (own c)) ["cat_overflowing"%string]
                           (Some source)))).1]>
             (upstreams c)))
      else mret ()
    | None => raise (Exception "flow has not been connected")
    end.

(** [Catenation.process(events, source)]; once rebound, the attribute is
    [f_discarding]. *)
Definition process (events : list oid) (source : oid) : M () :=
  c ← get;
  if terminated c then mret ()
  else if bool_decide (is_Some (cat_connections c !! source)) then
    cat_transfer events source
  else
    modify (set_order (cat_order c ++ events)).

(** [Catenation.cat_reserve(layer)]. *)
Definition cat_reserve (l : oid) : M () :=
  modify (λ c, set_order (cat_order c ++ [l]) c).

(** [Catenation.cat_flush()]. *)
Definition cat_flush : M () :=
  c ← get;
  modify (set_events []);;
  (if terminated c then mret ()
   else modify (set_emitted (emitted c ++ [cat_events c])));;
  if terminating c && bool_decide (cat_order c = [])
  then f_terminated
  else mret ().

(** [Catenation.cat_terminate(subflow)]. *)
Definition cat_terminate (subflow : oid) : M () :=
  cxn ← connection_of subflow;
  head ← head_of_line;
  if bool_decide (layer cxn = head) then cat_transition
  else
    modify (λ c, set_connections
      (<[subflow := {| queue := queue cxn; layer := layer cxn;
                       term := Some true |}]> (cat_connections c)) c).

(** [Catenation.f_terminate(context)]. *)
Definition f_terminate (context : option oid) : M () :=
  c ← get;
  match context ≫= λ f, cat_connections c !! f with
  | None =>
    if terminating c then mret ()
    else termination_started;; cat_flush
  | Some _ =>
    match context with
    | Some f => cat_terminate f
    | None => mret ()
    end
  end.

(** [flow.f_connect(self)] of an upstream [flow]: the channel watches the
    upstream's [f_obstruct] and [f_clear]; were it obstructed itself, the
    upstream is obstructed at once. *)
Definition f_connect (flow : oid) : M () :=
  c ← get;
  let '(own', calls) := f_watch (own c) flow flow in
  modify (set_own own');;
  match calls with
  | [] => mret ()
  | _ :: _ =>
    modify (set_upstreams
      (<[flow := (f_obstruct (upstream c flow) (self (own c)) None None).1]>
         (upstreams c)))
  end.

(** [Catenation.cat_connect(layer, flow)]. *)
Definition cat_connect (l : oid) (flow : option oid) : M () :=
  c ← get;
  assert (negb (bool_decide (cat_order c = [])));;
  head ← head_of_line;
  if bool_decide (head = l) then
    match flow with
    | Some f =>
      modify (λ c, set_connections
        (<[f := {| queue := None; layer := l; term := None |}]>
           (cat_connections c)) c)
    | None => mret ()
    end;;
    modify (λ c, set_flows (<[l := flow]> (cat_flows c)) c);;
    flush_when_first;;
    add (initiate l);;
    match flow with
    | None => cat_transition
    | Some f => f_connect f
    end
  else
    modify (λ c, set_flows (<[l := flow]> (cat_flows c)) c);;
    match flow with
    | Some f =>
      modify (λ c, set_connections
        (<[f := {| queue := Some []; layer := l; term := None |}]>
           (cat_connections c)) c);;
      f_connect f
    | None => mret ()
    end.

(** What happens around the channel: a layer is reserved, a flow is
    connected to a layer, an upstream emits events or terminates, or the
    context runs the next task the channel enqueued. *)
Inductive action :=
| Reserve (l : oid)
| Connect (l : oid) (flow : option oid)
| Send (source : oid) (events : list oid)
| End (source : oid)
| Tick.

Definition perform (a : action) : M () :=
  match a with
  | Reserve l => cat_reserve l
  | Connect l flow => cat_connect l flow
  | Send source events => process events source
  | End source => f_terminate (Some source)
  | Tick =>
    c ← get;
    match tasks c with
    | [] => mret ()
    | t :: rest =>
      modify (set_tasks rest);;
      match t with
      | cat_flush_task => cat_flush
      | cat_drain_task => cat_drain
      end
    end
  end.

(** An exception raised by an action is trapped by the context, or by the
    task of the caller, and noted as a fault; the channel keeps the state
    reached. *)
Definition step (c : catenation) (a : action) : catenation :=
  match perform a c with
  | (c', Returned _) => c'
  | (c', Raised e) => set_faults (faults c' ++ [e]) c'
  | (c', Diverged) => c'
  end.

Definition run (c : catenation) (actions : list action) : catenation :=
  foldl step c actions.

(** [Catenation.__init__], with identity [i], connected to a downstream. *)
Definition create (i : oid) : catenation :=
  {| own := {| self := i; f_obstructions := None; f_monitors := None |};
     cat_order := []; cat_connections := ∅; cat_flows := ∅;
     cat_events := []; terminating := false; terminated := false;
     tasks := []; emitted := [];
     upstreams := ∅; faults := [] |}.

(** Everything the downstream has received, in order. *)
Definition observed (c : catenation) : list token := concat (emitted c).

(** The order promised to the downstream for the layers [order] still to come:
    [opened] tells whether the first of them has been initiated.  A
    sequence is accepted when it is a prefix of
    [initiate(L1), transfer(L1, _)..., terminate(L1), initiate(L2), ...]. *)
Fixpoint sequenced (order : list oid) (opened : bool) (seen : list token)
    : bool :=
  match seen with
  | [] => true
  | t :: rest =>
    match order with
    | [] => false
    | l :: order' =>
      match t with
      | initiate l' =>
        negb opened && bool_decide (l' = l) && sequenced order true rest
      | transfer l' _ =>
        opened && bool_decide (l' = l) && sequenced order true rest
      | terminate l' =>
        opened && bool_decide (l' = l) && sequenced order' false rest
      end
    end
  end.

(** ** Vocabulary of the statements *)

(** The sequenced fan-in scenario: layers 1 and 2 are reserved, the flow of
    layer 2 connects first and sends, then the flow of layer 1 connects and
    sends. *)
Definition fan_in : list action :=
  [Reserve 1; Reserve 2;
   Connect 2 (Some 20); Send 20 [20; 21];
   Connect 1 (Some 10); Send 10 [10; 11]].

End Catenation.

(* ===================================================================== *)
(** * [library.Processor] and [library.Sector]: exits and interrupts *)
(* ===================================================================== *)

Module Sector.

(** The classes of the processors dealt with: [Sector], and [Processor]
    for a processor whose [terminate] and [interrupt] are those of
    [Processor].  The classes that override them and signal exits of
    their own, as [Flow] and [Transformation] do in [interrupt], are not
    among them. *)
Inductive class :=
| ProcessorClass
| SectorClass.

(** The key of a class in [Sector.processors]. *)
Definition placement (c : class) : nat :=
  match c with
  | ProcessorClass => 0
  | SectorClass => 1
  end.

(** The attributes of a processor.  [controller] is the dereferenced weak
    reference; [processors], [scheduler] and [exits] are those of a
    [Sector]. *)
Record processor := {
  class_of : class;
  actuated : bool;
  terminated : bool;
  terminating : option bool;
  interrupted : bool;
  terminator : option oid;
  interruptor : option oid;
  exceptions : option (list (option oid * exn));
  controller : option oid;
  exit_event_connections : option (gmap oid (list oid));
  processors : gmap nat (gset oid);
  scheduler : option oid;
  exits : option (gset oid);
}.

(** [self.terminating = v; self.terminator = by]. *)
Definition set_terminating (v : option bool) (by_ : option oid) (pr : processor) : processor :=
  {| class_of := class_of pr;
     actuated := actuated pr;
     terminated := terminated pr;
     terminating := v;
     interrupted := interrupted pr;
     terminator := by_;
     interruptor := interruptor pr;
     exceptions := exceptions pr;
     controller := controller pr;
     exit_event_connections := exit_event_connections pr;
     processors := processors pr;
     scheduler := scheduler pr;
     exits := exits pr |}.

(** [self.terminated = True; self.terminating = False]. *)
Definition set_terminated  (pr : processor) : processor :=
  {| class_of := class_of pr;
     actuated := actuated pr;
     terminated := true;
     terminating := Some false;
     interrupted := interrupted pr;
     terminator := terminator pr;
     interruptor := interruptor pr;
     exceptions := exceptions pr;
     controller := controller pr;
     exit_event_connections := exit_event_connections pr;
     processors := processors pr;
     scheduler := scheduler pr;
     exits := exits pr |}.

(** [self.interruptor = by; self.interrupted = True]. *)
Definition set_interrupted (by_ : option oid) (pr : processor) : processor :=
  {| class_of := class_of pr;
     actuated := actuated pr;
     terminated := terminated pr;
     terminating := terminating pr;
     interrupted := true;
     terminator := terminator pr;
     interruptor := by_;
     exceptions := exceptions pr;
     controller := controller pr;
     exit_event_connections := exit_event_connections pr;
     processors := processors pr;
     scheduler := scheduler pr;
     exits := exits pr |}.

(** Assignment to [self.exit_event_connections]. *)
Definition set_connections (v : option (gmap oid (list oid))) (pr : processor) : processor :=
  {| class_of := class_of pr;
     actuated := actuated pr;
     terminated := terminated pr;
     terminating := terminating pr;
     interrupted := interrupted pr;
     terminator := terminator pr;
     interruptor := interruptor pr;
     exceptions := exceptions pr;
     controller := controller pr;
     exit_event_connections := v;
     processors := processors pr;
     scheduler := scheduler pr;
     exits := exits pr |}.

(** Assignment to the content of [self.processors]. *)
Definition set_processors (v : gmap nat (gset oid)) (pr : processor) : processor :=
  {| class_of := class_of pr;
     actuated := actuated pr;
     terminated := terminated pr;
     terminating := terminating pr;
     interrupted := interrupted pr;
     terminator := terminator pr;
     interruptor := interruptor pr;
     exceptions := exceptions pr;
     controller := controller pr;
     exit_event_connections := exit_event_connections pr;
     processors := v;
     scheduler := scheduler pr;
     exits := exits pr |}.

(** Assignment to [self.exits]. *)
Definition set_exits (v : option (gset oid)) (pr : processor) : processor :=
  {| class_of := class_of pr;
     actuated := actuated pr;
     terminated := terminated pr;
     terminating := terminating pr;
     interrupted := interrupted pr;
     terminator := terminator pr;
     interruptor := interruptor pr;
     exceptions := exceptions pr;
     controller := controller pr;
     exit_event_connections := exit_event_connections pr;
     processors := processors pr;
     scheduler := scheduler pr;
     exits := v |}.

(** A task in the queue of the execution context: a sector's [reap], or an
    at-exit callback applied to the processor that exited. *)
Inductive task :=
| reap_task (sector : oid)
| exit_callback (callback : oid) (processor : oid).

(** The processors, the queue of the context, the unit at the root, and
    the at-exit callbacks invoked so far, as [(callback, processor)]. *)
Record system := {
  procs : gmap oid processor;
  tasks : list task;
  root : Unit.unit;
  invoked : list (oid * oid);
}.

Abbreviation M := (stateful system) (only parsing).

Definition set_procs (v : gmap oid processor) (s : system) : system :=
  {| procs := v; tasks := tasks s; root := root s; invoked := invoked s |}.
Definition set_tasks (v : list task) (s : system) : system :=
  {| procs := procs s; tasks := v; root := root s; invoked := invoked s |}.
Definition set_root (v : Unit.unit) (s : system) : system :=
  {| procs := procs s; tasks := tasks s; root := v; invoked := invoked s |}.
Definition set_invoked (v : list (oid * oid)) (s : system) : system :=
  {| procs := procs s; tasks := tasks s; root := root s; invoked := v |}.

(** The object with identity [p]. *)
Definition the (p : oid) : M processor :=
  s ← get;
  match procs s !! p with
  | Some pr => mret pr
  | None => raise KeyError
  end.

(** Attribute assignments on the object [p]. *)
Definition update (p : oid) (f : processor → processor) : M () :=
  modify (λ s, set_procs (alter f p (procs s)) s).

(** Modelled from the spec: [self.context.enqueue], of the execution
    context that is not part of the sources, appends the tasks to the FIFO
    task queue. *)
Definition enqueue (ts : list task) : M () :=
  modify (λ s, set_tasks (tasks s ++ ts) s).

(** [Processor.functioning]. *)
Definition functioning (pr : processor) : bool :=
  actuated pr && negb (terminated pr || interrupted pr).

(** Truth value of [self.terminating]. *)
Definition is_terminating (pr : processor) : bool :=
  match terminating pr with
  | Some true => true
  | _ => false
  end.

(** [Processor.terminate(by)]. *)
Definition Processor_terminate (p : oid) (by_ : option oid) : M bool :=
  pr ← the p;
  if negb (functioning pr) || is_terminating pr then mret false
  else update p (set_terminating (Some true) by_);; mret true.

(** [Processor.interrupt(by)]. *)
Definition Processor_interrupt (p : oid) (by_ : option oid) : M bool :=
  pr ← the p;
  if interrupted pr then mret false
  else update p (set_interrupted by_);; mret true.

(** [Processor.exit_event_connect(processor, callback)] on [ctl]. *)
Definition exit_event_connect (ctl p callback : oid) : M () :=
  c ← the ctl;
  let eec := default ∅ (exit_event_connections c) in
  let cbl := default [] (eec !! p) in
  update ctl (set_connections (Some (<[p := cbl ++ [callback]]> eec))).

(** [Processor.atexit(exit_callback)]. *)
Definition atexit (p callback : oid) : M () :=
  pr ← the p;
  if terminated pr then
    modify (λ s, set_invoked (invoked s ++ [(callback, p)]) s)
  else
    match controller pr with
    | None => raise AttributeError
    | Some ctl => exit_event_connect ctl p callback
    end.

(** [Processor.exit_event_emit(processor)] on [ctl]. *)
Definition exit_event_emit (ctl p : oid) : M () :=
  c ← the ctl;
  match exit_event_connections c with
  | None => mret ()
  | Some eec =>
    enqueue ((λ cb, exit_callback cb p) <$> default [] (eec !! p));;
    let eec' := delete p eec in
    update ctl (set_connections
                  (if bool_decide (eec' = ∅) then None else Some eec'))
  end.

(** [Sector.exited(processor)] on [ctl]. *)
Definition exited (ctl p : oid) : M () :=
  c ← the ctl;
  match class_of c with
  | ProcessorClass => raise AttributeError
  | SectorClass =>
    match exits c with
    | None =>
      update ctl (set_exits (Some ∅));;
      enqueue [reap_task ctl]
    | Some _ => mret ()
    end;;
    update ctl (λ c, set_exits (Some ({[ p ]} ∪ default ∅ (exits c))) c)
  end.

(** The members of [self.processors], class by class. *)
Definition members (pr : processor) : list oid :=
  map_to_list (processors pr) ≫= λ '(_, sset), elements sset.

(** One computation per item, in order. *)
Fixpoint for_each {A} (l : list A) (f : A → M ()) : M () :=
  match l with
  | [] => mret ()
  | x :: l' => f x;; for_each l' f
  end.

(** [x.interrupt(by)], dispatched on the class of [p]:
    [Processor.interrupt] or [Sector.interrupt], whose cascade reaches the
    scheduler and the members of these two classes.  [Scheduler.interrupt]
    cancels its timer, which is no part of this state, before it goes on
    with [Processor.interrupt].  [depth] is the number of frames the
    interpreter has left. *)
Fixpoint interrupt (depth : nat) (p : oid) (by_ : option oid) : M () :=
  match depth with
  | 0 => raise RecursionError
  | S depth' =>
    pr ← the p;
    match class_of pr with
    | ProcessorClass => Processor_interrupt p by_;; mret ()
    | SectorClass =>
      if interrupted pr then mret ()
      else
        Processor_interrupt p by_;;
        match scheduler pr with
        | Some sch => interrupt depth' sch None
        | None => mret ()
        end;;
        for_each (members pr) (λ x, interrupt depth' x None)
    end
  end.

(** [x.terminate(by)], dispatched on the class of [p]:
    [Processor.terminate] or [Sector.terminate]. *)
Fixpoint terminate (depth : nat) (p : oid) (by_ : option oid) : M bool :=
  match depth with
  | 0 => raise RecursionError
  | S depth' =>
    pr ← the p;
    match class_of pr with
    | ProcessorClass => Processor_terminate p by_
    | SectorClass =>
      started ← Processor_terminate p by_;
      if negb started then mret false
      else
        (if bool_decide (processors pr = ∅) then
           match controller pr with
           | None => raise AttributeError
           | Some ctl => exited ctl p
           end;;
           update p set_terminated
         else
           for_each (members pr) (λ x, terminate depth' x None;; mret ()));;
        mret true
    end
  end.

(** [Sector.reaped()]. *)
Definition reaped (depth : nat) (p : oid) : M () :=
  pr ← the p;
  if bool_decide (processors pr = ∅) && negb (interrupted pr) then
    update p set_terminated;;
    match scheduler pr with
    | Some sch => interrupt depth sch None
    | None => mret ()
    end;;
    match controller pr with
    | Some ctl => exited ctl p
    | None => mret ()
    end
  else mret ().

(** [struct[x.__class__].discard(x)] on the [defaultdict(set)]. *)
Definition discard (key : nat) (x : oid) (struct : gmap nat (gset oid))
    : gmap nat (gset oid) :=
  <[key := default ∅ (struct !! key) ∖ {[ x ]}]> struct.

(** [if not struct[c]: del struct[c]]. *)
Definition prune (key : nat) (struct : gmap nat (gset oid))
    : gmap nat (gset oid) :=
  if bool_decide (default ∅ (struct !! key) = ∅) then delete key struct
  else <[key := default ∅ (struct !! key)]> struct.

(** [Sector.reap()]. *)
Definition reap (depth : nat) (p : oid) : M () :=
  pr ← the p;
  match exits pr with
  | None => mret ()
  | Some xs =>
    update p (set_exits None);;
    for_each (elements xs) (λ x,
      xr ← the x;
      update p (λ pr, set_processors
                        (discard (placement (class_of xr)) x (processors pr)) pr);;
      exit_event_emit p x);;
    for_each (elements xs) (λ x,
      xr ← the x;
      update p (λ pr, set_processors
                        (prune (placement (class_of xr)) (processors pr)) pr));;
    reaped depth p
  end.

(** [Resource.sector]: the nearest controller that is a [Sector].  The loop
    has no bound of its own; [steps] bounds the model. *)
Fixpoint sector_from (steps : nat) (c : option oid) : M (option oid) :=
  match c with
  | None => mret None
  | Some ctl =>
    cr ← the ctl;
    match class_of cr with
    | SectorClass => mret (Some ctl)
    | ProcessorClass =>
      match steps with
      | 0 => diverge
      | S steps' => sector_from steps' (controller cr)
      end
    end
  end.

Definition sector (p : oid) : M (option oid) :=
  pr ← the p;
  s ← get;
  sector_from (size (procs s)) (controller pr).

(** Python's [hex] on an identity. *)
Definition hex (n : nat) : string :=
  "0x" +:+ HexadecimalString.NilZero.string_of_uint (Nat.to_hex_uint n).

(** ['/'.join(path)]. *)
Fixpoint join (path : list string) : string :=
  match path with
  | [] => ""
  | [x] => x
  | x :: rest => x +:+ "/" +:+ join rest
  end.

(** [Unit.place], in the unit of this system. *)
Definition place (obj : oid) (destination : list string) : M () :=
  s ← get;
  match Unit.place (root s) (Some obj) destination with
  | Ok u => modify (set_root u)
  | Raise e => raise e
  end.

(** [Unit.faulted(resource, path=None)]. *)
Definition faulted (depth : nat) (resource : oid) : M () :=
  found ← sector resource;
  s ← get;
  let faultor := default resource found in
  let path :=
    match found with
    | Some _ => None
    | None => Unit.u_reverse_index (root s) !! Some faultor
    end in
  match path with
  | Some path =>
    place faultor ["faults"%string;
                   "/" +:+ join path +:+ "@" +:+ hex faultor]
  | None => place faultor ["faults"%string; hex faultor]
  end;;
  fr ← the faultor;
  if interrupted fr then mret ()
  else
    interrupt depth faultor None;;
    fr ← the faultor;
    if terminated fr then mret ()
    else
      match controller fr with
      | None => raise AttributeError
      | Some ctl => exited ctl faultor
      end.

(** [Sector.dispatch(processor)] of a new processor of class [c]. *)
Definition dispatch (ctl p : oid) (c : class) : M () :=
  modify (λ s, set_procs
    (<[p := {| class_of := c; actuated := true; terminated := false;
               terminating := None; interrupted := false;
               terminator := None; interruptor := None;
               exceptions := None; controller := Some ctl;
               exit_event_connections := None; processors := ∅;
               scheduler := None; exits := None |}]> (procs s)) s);;
  update ctl (λ pr, set_processors
    (<[placement c := {[ p ]} ∪ default ∅ (processors pr !! placement c)]>
       (processors pr)) pr).

(** The context runs the first task of its queue. *)
Definition run_task (depth : nat) : M () :=
  s ← get;
  match tasks s with
  | [] => mret ()
  | t :: rest =>
    modify (set_tasks rest);;
    match t with
    | reap_task p => reap depth p
    | exit_callback cb p =>
      modify (λ s, set_invoked (invoked s ++ [(cb, p)]) s)
    end
  end.

(** A root sector [r], actuated, alone in a fresh unit. *)
Definition create (r : oid) : system :=
  {| procs := {[ r := {| class_of := SectorClass; actuated := true;
                         terminated := false; terminating := None;
                         interrupted := false; terminator := None;
                         interruptor := None; exceptions := None;
                         controller := None;
                         exit_event_connections := None; processors := ∅;
                         scheduler := None; exits := None |} ]};
     tasks := []; root := Unit.create; invoked := [] |}.

(** ** Vocabulary of the statements *)

(** A sector [2] with an at-exit callback [77], dispatched in the root
    sector [1], and a processor [3] dispatched in sector [2]. *)
Definition supervised : M () :=
  dispatch 1 2 SectorClass;;
  dispatch 2 3 ProcessorClass;;
  atexit 2 77.

(** The state they are in after that. *)
Definition supervised_state : system := (supervised (create 1)).1.

(** The flags [(interrupted, terminated)] of a processor. *)
Definition flags (s : system) (p : nat) : option (bool * bool) :=
  (λ pr, (interrupted pr, terminated pr)) <$> procs s !! p.

End Sector.

(* ===================================================================== *)
(** * [flows.KOutput]: runs of the output queue *)
(* ===================================================================== *)

Module KOutputRuns.
Import Channel KOutput.

(** What happens to a [KOutput]: the upstream hands it events, or the
    traffic loop reports that the buffer in flight was written out and
    calls [k_transition]. *)
Inductive op :=
| Process (event : list (list Byte.byte))
| Transition.

Definition step (k : koutput) (o : op) : koutput :=
  match o with
  | Process event => (process k event).1
  | Transition => (k_transition k).1
  end.

Definition run (k : koutput) (ops : list op) : koutput := foldl step k ops.

(** The buffers handed in by the [Process] operations, in order. *)
Definition handed (ops : list op) : list (list Byte.byte) :=
  ops ≫= λ o, match o with Process event => event | Transition => [] end.

(** [n] calls of [k_transition] in a row. *)
Definition transitions (n : nat) (k : koutput) : koutput :=
  Nat.iter n (λ k, (k_transition k).1) k.

(** An output with [queue] waiting behind a buffer in flight. *)
Definition queued (queue : list (list Byte.byte)) (closing : bool) : koutput :=
  {| chan := {| self := 1; f_obstructions := None; f_monitors := None |};
     ko_limit := default_limit;
     ko_queue := queue;
     k_transferred := Some 0;
     terminating := closing;
     transit_acquired := [[]];
     transit_terminated := false |}.

End KOutputRuns.

(* ===================================================================== *)
(** * [library.Lock]: the event driven lock *)
(* ===================================================================== *)

Module Lock.

(** The two slots of a [Lock]; callbacks are identified by the object they
    are. *)
Record lock := {
  _waiters : list oid;
  _current : option oid;
}.

(** [Lock.__init__]. *)
Definition create : lock := {| _waiters := []; _current := None |}.

(** [Lock.acquire(callback)]: the new state, the callbacks invoked with
    [self.release], and the returned boolean. *)
Definition acquire (l : lock) (callback : oid) : lock * list oid * bool :=
  let waiters := _waiters l ++ [callback] in
  match _current l, waiters with
  | None, first :: _ =>
    if bool_decide (first = callback)
    then ({| _waiters := waiters; _current := Some first |}, [first], true)
    else ({| _waiters := waiters; _current := None |}, [], false)
  | _, _ => ({| _waiters := waiters; _current := _current l |}, [], false)
  end.

(** [Lock.release()]. *)
Definition release (l : lock) : lock * list oid * bool :=
  match _current l with
  | Some _ =>
    match _waiters l with
    | [] => (l, [], false)
    | _ :: rest =>
      match rest with
      | next :: _ => ({| _waiters := rest; _current := Some next |}, [next], true)
      | [] => ({| _waiters := rest; _current := None |}, [], true)
      end
    end
  | None => (l, [], true)
  end.

(** [Lock.locked()]. *)
Definition locked (l : lock) : bool :=
  match _current l with
  | Some _ => true
  | None => false
  end.

(** The users of a lock ask for it or give it back. *)
Inductive op :=
| Acquire (callback : oid)
| Release.

(** A run of operations, with the callbacks invoked along it, in order. *)
Fixpoint run (l : lock) (ops : list op) : lock * list oid :=
  match ops with
  | [] => (l, [])
  | o :: ops' =>
    let '(l1, invoked, _) :=
      match o with
      | Acquire callback => acquire l callback
      | Release => release l
      end in
    let '(l2, later) := run l1 ops' in
    (l2, invoked ++ later)
  end.

(** The callbacks the run asked the lock for, in order. *)
Definition requested (ops : list op) : list oid :=
  ops ≫= λ o, match o with Acquire callback => [callback] | Release => [] end.

(** The shape every lock reached from a new one has: the holder is the
    first waiter, the callbacks invoked are those that were released
    followed by the holder, and the requests are the released callbacks
    followed by the waiters. *)
Definition granted (l : lock) (invoked requests : list nat) : Prop :=
  ∃ released,
    requests = released ++ _waiters l
    ∧ invoked = released ++ option_list (_current l)
    ∧ _current l = head (_waiters l).

End Lock.

(* ===================================================================== *)
(** * [library.Join]: completion of a set of processors *)
(* ===================================================================== *)

Module Join.

(** The slots of a [Join]: the named processors, the exits still awaited
    ([None] once the join is complete) and the callback. *)
Record join := {
  dependencies : list (string * oid);
  pending : option (gset oid);
  callback : option oid;
}.

(** [Join.__init__]. *)
Definition create (processors : list (string * oid)) : join :=
  {| dependencies := processors;
     pending := Some (list_to_set processors.*2);
     callback := None |}.

(** [Join.exited(processor)]: the new state, the callbacks invoked with the
    join, and the exception raised, if any. *)
Definition exited (j : join) (processor : oid)
    : join * list oid * option exn :=
  match pending j with
  | None => (j, [], Some AttributeError)
  | Some awaited =>
    let awaited' := awaited ∖ {[ processor ]} in
    if bool_decide (awaited' = ∅) then
      let j' := {| dependencies := dependencies j; pending := None;
                   callback := None |} in
      match callback j with
      | Some cb => (j', [cb], None)
      | None => (j', [], Some TypeError)
      end
    else
      ({| dependencies := dependencies j; pending := Some awaited';
          callback := callback j |}, [], None)
  end.

(** [Join.atexit(callback)]. *)
Definition atexit (j : join) (cb : oid) : join * list oid :=
  match pending j with
  | None => (j, [cb])
  | Some _ =>
    ({| dependencies := dependencies j; pending := pending j;
        callback := Some cb |}, [])
  end.

(** The exits of [processors] reach the join one after the other; an
    exception raised into one caller does not keep the next from
    calling. *)
Fixpoint exits (j : join) (processors : list oid) : join * list oid :=
  match processors with
  | [] => (j, [])
  | p :: rest =>
    let '(j1, invoked, _) := exited j p in
    let '(j2, later) := exits j1 rest in
    (j2, invoked ++ later)
  end.

End Join.

(* ===================================================================== *)
(** * [dispatch.Subprocess]: a set of system processes *)
(* ===================================================================== *)

Module Subprocess.
Export ProcessManager.

(** The exception of [sp_exit]. *)
Inductive error :=
| RuntimeError (msg : string).

(** [k in d] on a mapping kept in insertion order. *)
Definition contains (d : list (Z * Z)) (k : Z) : bool :=
  bool_decide (k ∈ d.*1).

(** [d[k] = v]: an existing key keeps its place, a new one goes last. *)
Fixpoint setitem (d : list (Z * Z)) (k v : Z) : list (Z * Z) :=
  match d with
  | [] => [(k, v)]
  | (k', v') :: d' =>
    if bool_decide (k' = k) then (k', v) :: d'
    else (k', v') :: setitem d' k v
  end.

(** [Subprocess(reap, invocations)]. *)
Definition create (invocations : list (Z * Z)) : subprocess :=
  {| sp_processes := invocations; sp_exit_status := [] |}.

(** [Subprocess.sp_reaped]. *)
Definition sp_reaped (sub : subprocess) : bool :=
  bool_decide (length (sp_processes sub) = length (sp_exit_status sub)).

(** [Subprocess.sp_waiting]. *)
Definition sp_waiting (sub : subprocess) : gset Z :=
  list_to_set (sp_processes sub).*1 ∖ list_to_set (sp_exit_status sub).*1.

(** [Subprocess.sp_exit(pid)], where [status] is what [self.sp_reaper(pid)]
    returns in this call and [interrupted] the flag of the processor.  The
    result holds the new state and whether [xact_exit_if_empty] was
    called. *)
Definition sp_exit (interrupted : bool) (sub : subprocess) (pid status : Z)
    : error + subprocess * bool :=
  if negb (contains (sp_processes sub) pid) then
    inl (RuntimeError "process identifier not in subprocess set")
  else
    let sub' := {| sp_processes := sp_processes sub;
                   sp_exit_status := setitem (sp_exit_status sub) pid status |} in
    inr (sub',
         bool_decide (length (sp_processes sub') = length (sp_exit_status sub'))
         && negb interrupted).

(** The exit events [(pid, status)] of the system reach the subprocess one
    after the other; an event that raises leaves it as it was. *)
Definition exits (interrupted : bool) (sub : subprocess)
    (events : list (Z * Z)) : subprocess :=
  foldl (λ sub '(pid, status),
           match sp_exit interrupted sub pid status with
           | inl _ => sub
           | inr (sub', _) => sub'
           end) sub events.

End Subprocess.

(* ===================================================================== *)
(** * [library.Ports]: giving a slot up *)
(* ===================================================================== *)

Module PortsDevice.
Export Ports.

(** [del self.sets[slot]]. *)
Definition del_slot (slot : string) (p : ports) : ports :=
  match sets p with
  | Mapping m => with_sets (Mapping (delete slot m)) p
  | Str _ => p
  end.

(** [Ports.discard(slot)]. *)
Definition discard (slot : string) : stateful ports () :=
  d ← slot_dict slot;
  modify (λ p, foldl (λ p '(_, fd), os_close fd p) p d);;
  modify (del_slot slot).

(** [Ports.acquire(slot)]. *)
Definition acquire (slot : string) : stateful ports bindings_map :=
  slot_dict slot.

End PortsDevice.

(* ===================================================================== *)
(** * [library.Unit]: sequences of placements *)
(* ===================================================================== *)

Module UnitRuns.
Export Unit.

(** The calls that change the address space. *)
Inductive op :=
| Place (obj : option oid) (destination : list string)
| Delete (address : list string).

(** The unit after a call, whether it returned or raised: the handler of
    [place] removes the index entry before it raises again, and [delete]
    raises before it has removed anything. *)
Definition step (u : unit) (o : op) : unit :=
  match o with
  | Place obj destination =>
    match place u obj destination with
    | Ok u' => u'
    | Raise _ =>
      {| u_index := base.delete destination (u_index u);
         u_reverse_index := u_reverse_index u;
         u_hierarchy := u_hierarchy u;
         dicts := dicts u;
         fresh := fresh u |}
    end
  | Delete address =>
    match delete u address with
    | Ok u' => u'
    | Raise _ => u
    end
  end.

Definition run (u : unit) (ops : list op) : unit := foldl step u ops.

(** The directory object [p]. *)
Definition dir (ds : gmap oid directory) (p : oid) : directory :=
  default [] (ds !! p).

(** The identities of the dictionaries are those handed out so far: the
    root and the targets of all entries are among them, and nothing is
    stored under an identity not yet handed out. *)
Definition allocated (ds : gmap oid directory) (root next : oid) : Prop :=
  root < next
  ∧ (∀ k, next ≤ k → ds !! k = None)
  ∧ (∀ p x q, entry (dir ds p) x = Some q → q < next).

End UnitRuns.

(* ===================================================================== *)
(** * [flows.Transports]: a pair over two layers *)
(* ===================================================================== *)

Module TransportsPairs.
Export Transports.

(** The pair [Transports.create] makes for a stack of two layers, [5]
    below [6], both sides connected; the state of a layer is whether it is
    terminated. *)
Definition two_layers (lower upper : bool) : @pair bool nat :=
  {| layers := {[ 5 := lower; 6 := upper ]};
     tf_stack := [5; 6];
     input := {| tf_polarity := 1; tf_operations := [5; 6];
                 terminating := false; terminated := false;
                 f_downstream := Some 7; f_emit := Some 7;
                 discarding := false; controlled := true |};
     output := {| tf_polarity := -1; tf_operations := [6; 5];
                  terminating := false; terminated := false;
                  f_downstream := Some 8; f_emit := Some 8;
                  discarding := false; controlled := true |};
     effects := [] |}.

End TransportsPairs.

(* ===================================================================== *)
(** * [flows.Division]: routing the content of layers to flows *)
(* ===================================================================== *)

Module Division.

(** The events of a protocol stream: [(Event.initiate, layer)],
    [(Event.transfer, layer, data)], [(Event.terminate, layer)],
    [(Event.overflow, data)], and the two for which [div_operations] holds
    [None]. *)
Inductive event :=
| initiate (layer : oid)
| transfer (layer : oid) (data : list oid)
| terminate (layer : oid)
| obstruct
| clear
| overflow (data : list oid).

(** A value of [div_flows]: [None], [Event.terminate] or a flow. *)
Inductive slot :=
| Unconnected
| Closed
| Connected (flow : oid).

(** The calls made on the flows connected to the layers. *)
Inductive call :=
| Watched (flow : oid)
| Ignored (flow : oid)
| Processed (flow : oid) (data : list oid)
| Terminated (flow : oid).

(** The channel: [div_flows] keeps insertion order, which [interrupt]
    follows; [terminated] tells that [process] and [f_emit] were rebound
    to [f_discarding]; [emitted] are the batches of initiations given to
    [f_emit], each initiation standing for the pair of the layer and its
    connect callback; [calls] are the calls made on flows, in order. *)
Record division := {
  div_queues : gmap oid (list (list oid));
  div_flows : list (oid * slot);
  div_initiations : list oid;
  div_container_overflow : option (list (list oid));
  terminated : bool;
  emitted : list (list oid);
  calls : list call;
}.

Abbreviation M := (stateful division) (only parsing).

Definition set_queues (v : gmap oid (list (list oid))) (d : division) :=
  {| div_queues := v; div_flows := div_flows d;
     div_initiations := div_initiations d;
     div_container_overflow := div_container_overflow d;
     terminated := terminated d; emitted := emitted d; calls := calls d |}.

Definition set_flows (v : list (oid * slot)) (d : division) :=
  {| div_queues := div_queues d; div_flows := v;
     div_initiations := div_initiations d;
     div_container_overflow := div_container_overflow d;
     terminated := terminated d; emitted := emitted d; calls := calls d |}.

Definition set_initiations (v : list oid) (d : division) :=
  {| div_queues := div_queues d; div_flows := div_flows d;
     div_initiations := v;
     div_container_overflow := div_container_overflow d;
     terminated := terminated d; emitted := emitted d; calls := calls d |}.

Definition set_container_overflow (v : option (list (list oid)))
    (d : division) :=
  {| div_queues := div_queues d; div_flows := div_flows d;
     div_initiations := div_initiations d;
     div_container_overflow := v;
     terminated := terminated d; emitted := emitted d; calls := calls d |}.

Definition set_emitted (v : list (list oid)) (d : division) :=
  {| div_queues := div_queues d; div_flows := div_flows d;
     div_initiations := div_initiations d;
     div_container_overflow := div_container_overflow d;
     terminated := terminated d; emitted := v; calls := calls d |}.

(** A call on a flow. *)
Definition call_flow (c : call) : M () :=
  modify (λ d,
    {| div_queues := div_queues d; div_flows := div_flows d;
       div_initiations := div_initiations d;
       div_container_overflow := div_container_overflow d;
       terminated := terminated d; emitted := emitted d;
       calls := calls d ++ [c] |}).

(** [d[k]], [d[k] = v] and [d.pop(k)] on a dictionary in insertion
    order. *)
Fixpoint getitem (d : list (oid * slot)) (k : oid) : option slot :=
  match d with
  | [] => None
  | (k', v) :: d' => if bool_decide (k' = k) then Some v else getitem d' k
  end.

Fixpoint setitem (d : list (oid * slot)) (k : oid) (v : slot)
    : list (oid * slot) :=
  match d with
  | [] => [(k, v)]
  | (k', v') :: d' =>
    if bool_decide (k' = k) then (k', v) :: d'
    else (k', v') :: setitem d' k v
  end.

Fixpoint delitem (d : list (oid * slot)) (k : oid) : list (oid * slot) :=
  match d with
  | [] => []
  | (k', v) :: d' =>
    if bool_decide (k' = k) then d' else (k', v) :: delitem d' k
  end.

(** [Division.div_initiate(fc, layer)]. *)
Definition div_initiate (layer : oid) : M () :=
  modify (λ d, set_flows (setitem (div_flows d) layer Unconnected) d);;
  modify (λ d, set_initiations (div_initiations d ++ [layer]) d).

(** The loop [while q: fp(p(), source=self)]. *)
Fixpoint drain (flow : oid) (q : list (list oid)) : M () :=
  match q with
  | [] => mret ()
  | data :: q' => call_flow (Processed flow data);; drain flow q'
  end.

(** [Division.div_connect(layer, flow)]. *)
Definition div_connect (layer : oid) (flow : option oid) : M () :=
  match flow with
  | None =>
    d ← get;
    match getitem (div_flows d) layer with
    | None => raise KeyError
    | Some _ => modify (set_flows (delitem (div_flows d) layer))
    end
  | Some f =>
    call_flow (Watched f);;
    d ← get;
    let cflow := getitem (div_flows d) layer in
    modify (set_flows
              (setitem (delitem (div_flows d) layer) layer (Connected f)));;
    drain f (default [] (div_queues d !! layer));;
    modify (set_queues (delete layer (div_queues d)));;
    match cflow with
    | Some Closed => call_flow (Terminated f)
    | _ => mret ()
    end
  end.

(** [Division.div_transfer(fc, layer, subflow_transfer)].  A layer that
    was terminated before its flow connected holds [Event.terminate],
    which has no [process]. *)
Definition div_transfer (layer : oid) (data : list oid) : M () :=
  d ← get;
  match getitem (div_flows d) layer with
  | None => raise KeyError
  | Some Unconnected =>
    modify (set_queues
      (<[layer := default [] (div_queues d !! layer) ++ [data]]>
         (div_queues d)))
  | Some Closed => raise AttributeError
  | Some (Connected f) => call_flow (Processed f data)
  end.

(** [Division.interrupt()]: the connected flows are terminated, in the
    order of [div_flows]. *)
Fixpoint interrupt_flows (flows : list (oid * slot)) : M () :=
  match flows with
  | [] => mret ()
  | (_, Connected f) :: rest => call_flow (Terminated f);; interrupt_flows rest
  | (_, _) :: rest => interrupt_flows rest
  end.

Definition interrupt : M () :=
  d ← get;
  interrupt_flows (div_flows d).

(** [Channel._f_terminated()]: [process] and [f_emit] are rebound to
    [f_discarding]; the call [self.termination_completed()] that follows
    raises [AttributeError], as [library.Processor], the base of [Channel],
    defines no such method. *)
Definition f_terminated : M () :=
  modify (λ d,
    {| div_queues := div_queues d; div_flows := div_flows d;
       div_initiations := div_initiations d;
       div_container_overflow := div_container_overflow d;
       terminated := true; emitted := emitted d; calls := calls d |});;
  raise AttributeError.

(** [Division.f_terminate()]: [self.interrupt()], then
    [self._f_terminated()]. *)
Definition f_terminate : M () :=
  interrupt;;
  f_terminated.

(** [Division.div_overflow(fc, data)]. *)
Definition div_overflow (data : list oid) : M () :=
  match data with
  | [] => mret ()
  | _ :: _ =>
    modify (λ d, set_container_overflow
                   (Some (default [] (div_container_overflow d) ++ [data])) d)
  end;;
  f_terminate.

(** [Division.div_terminate(fc, layer)].  The final [assert] reads
    [self.div_queues[layer]], which creates the queue when there is none;
    its test compares the layer to the queued transfers and holds for
    every layer that is not itself a transfer. *)
Definition div_terminate (layer : oid) : M () :=
  d ← get;
  match getitem (div_flows d) layer with
  | None => mret ()
  | Some s =>
    modify (set_flows (delitem (div_flows d) layer));;
    match s with
    | Unconnected =>
      modify (λ d, set_flows (setitem (div_flows d) layer Closed) d)
    | Closed => raise AttributeError
    | Connected f => call_flow (Ignored f);; call_flow (Terminated f)
    end;;
    modify (λ d, set_queues
      (<[layer := default [] (div_queues d !! layer)]> (div_queues d)) d)
  end.

(** [ops[event[0]](self, *event)]. *)
Definition operate (e : event) : M () :=
  match e with
  | initiate layer => div_initiate layer
  | transfer layer data => div_transfer layer data
  | terminate layer => div_terminate layer
  | obstruct | clear => raise TypeError
  | overflow data => div_overflow data
  end.

Fixpoint operate_all (events : list event) : M () :=
  match events with
  | [] => mret ()
  | e :: rest => operate e;; operate_all rest
  end.

(** [Division.process(events)]; once rebound, the attribute is
    [f_discarding], and so is [f_emit]. *)
Definition process (events : list event) : M () :=
  d ← get;
  if terminated d then mret ()
  else
    operate_all events;;
    d ← get;
    match div_initiations d with
    | [] => mret ()
    | _ :: _ =>
      (if terminated d then mret ()
       else modify (set_emitted (emitted d ++ [div_initiations d])));;
      modify (set_initiations [])
    end.

(** [Division.__init__]. *)
Definition create : division :=
  {| div_queues := ∅; div_flows := []; div_initiations := [];
     div_container_overflow := None; terminated := false;
     emitted := []; calls := [] |}.

End Division.

(* ===================================================================== *)
(** * Properties *)
(* ===================================================================== *)

(** ** Obstruction monitors *)

Section ChannelFacts.
Import Channel.

Lemma f_clear_frame c k :
  self (f_clear c k).1.2 = self c
  ∧ f_monitors (f_clear c k).1.2 = f_monitors c.
Proof.
  unfold f_clear. destruct (f_obstructions c) as [m|]; [|done].
  case_bool_decide; [done|].
  destruct (m !! k); [|done]. by case_bool_decide.
Qed.

Lemma step_self c o : self (step c o).1 = self c.
Proof.
  destruct o as [k s cd|k]; simpl; [done|].
  pose proof (f_clear_frame c k) as [H _].
  by destruct (f_clear c k) as [[b c'] l].
Qed.

Lemma step_monitors c o : f_monitors (step c o).1 = f_monitors c.
Proof.
  destruct o as [k s cd|k]; simpl; [done|].
  pose proof (f_clear_frame c k) as [_ H].
  by destruct (f_clear c k) as [[b c'] l].
Qed.

Lemma step_sentries c o : sentries (step c o).1 = sentries c.
Proof. unfold sentries. by rewrite step_monitors. Qed.

Lemma size_insert_pos {A} (m : gmap nat A) k v :
  ∃ n, size (<[k := v]> m) = S n.
Proof.
  destruct (size (<[k := v]> m)) as [|n] eqn:E; [|by eexists].
  apply map_size_empty_inv in E.
  by apply insert_non_empty in E.
Qed.

Lemma size_pos_of_nonempty {A} (m : gmap nat A) :
  m ≠ ∅ → ∃ n, size m = S n.
Proof.
  intros Hne. destruct (size m) as [|n] eqn:E; [|by eexists].
  by apply map_size_empty_inv in E.
Qed.

(** Each operation makes exactly the calls owed to the change of the
    obstruction count it causes. *)
Lemma step_calls c o :
  (step c o).2
  = transition_calls c (obstruction_count c) (obstruction_count (step c o).1).
Proof.
  destruct o as [k s cd|k]; simpl.
  - unfold f_obstruct, obstruction_count, truthy_map; simpl.
    destruct (f_obstructions c) as [m|]; simpl.
    + destruct (size_insert_pos m k (s, cd)) as [n ->].
      case_bool_decide as Hm; simpl.
      * subst m. by rewrite map_size_empty.
      * by destruct (size_pos_of_nonempty m Hm) as [n' ->].
    + by destruct (size_insert_pos ∅ k (s, cd)) as [n ->].
  - unfold f_clear, obstruction_count.
    destruct (f_obstructions c) as [m|] eqn:Hobs; simpl; [|by rewrite Hobs].
    case_bool_decide as Hm; simpl.
    { rewrite Hobs. subst m. by rewrite map_size_empty. }
    destruct (size_pos_of_nonempty m Hm) as [n Hn].
    destruct (m !! k) as [v|] eqn:Hk; simpl.
    + case_bool_decide as Hd; simpl; rewrite Hn; [done|].
      by destruct (size_pos_of_nonempty _ Hd) as [n' ->].
    + by rewrite Hobs, Hn.
Qed.

Lemma run_calls c ops : (run c ops).2 = owed_calls c ops.
Proof.
  revert c. induction ops as [|o ops IH]; intros c; simpl; [done|].
  specialize (IH (step c o).1). rewrite <- IH, <- step_calls.
  destruct (step c o) as [c1 l1]; simpl.
  by destruct (run c1 ops).
Qed.

Lemma occurrences_app x l1 l2 :
  occurrences x (l1 ++ l2) = occurrences x l1 + occurrences x l2.
Proof. unfold occurrences. by rewrite filter_app, length_app. Qed.

Lemma occurrences_absent x l : x ∉ l → occurrences x l = 0.
Proof.
  unfold occurrences. induction l as [|y l IH]; intros Hx; [done|].
  apply not_elem_of_cons in Hx as [Hne Hx].
  rewrite filter_cons_False by done. by apply IH.
Qed.

Lemma occurrences_cons x y l :
  occurrences x (y :: l) = (if decide (y = x) then 1 else 0) + occurrences x l.
Proof. unfold occurrences. rewrite filter_cons. by case_decide. Qed.

Lemma occurrences_fmap_same (f : nat * nat → call) (l : list (nat * nat)) s :
  Inj (=) (=) f → NoDup l → s ∈ l → occurrences (f s) (f <$> l) = 1.
Proof.
  intros Hf Hnd.
  induction Hnd as [|x l Hx Hnd IH]; intros Hs; [by apply elem_of_nil in Hs|].
  rewrite fmap_cons, occurrences_cons.
  destruct (decide (x = s)) as [->|Hne].
  - rewrite decide_True by done.
    rewrite occurrences_absent; [done|].
    intros [z [Heq Hz]]%list_elem_of_fmap. apply Hf in Heq. by subst.
  - rewrite decide_False by (intros Heq; by apply Hf in Heq). simpl.
    apply IH. by apply elem_of_cons in Hs as [->|Hs].
Qed.

Lemma occurrences_fmap_other (f g : nat * nat → call) (l : list (nat * nat)) s :
  (∀ x y, f x ≠ g y) → occurrences (f s) (g <$> l) = 0.
Proof.
  intros Hfg. apply occurrences_absent.
  intros [z [Heq Hz]]%list_elem_of_fmap. by apply (Hfg s z).
Qed.

Lemma occurrences_transition c s before after :
  s ∈ sentries c →
  occurrences (OnObstruct s (self c)) (transition_calls c before after)
  = match before, after with 0, S _ => 1 | _, _ => 0 end
  ∧ occurrences (OnClear s (self c)) (transition_calls c before after)
  = match before, after with S _, 0 => 1 | _, _ => 0 end.
Proof.
  intros Hs.
  assert (NoDup (sentries c)) as Hnd.
  { unfold sentries. destruct (f_monitors c); [apply NoDup_elements|constructor]. }
  destruct before, after; simpl; try done; split.
  - apply (occurrences_fmap_same (λ s, OnObstruct s (self c))); try done.
    by intros x y [=].
  - by apply (occurrences_fmap_other (λ s, OnClear s (self c))).
  - by apply (occurrences_fmap_other (λ s, OnObstruct s (self c))).
  - apply (occurrences_fmap_same (λ s, OnClear s (self c))); try done.
    by intros x y [=].
Qed.

Lemma owed_calls_counts c ops s :
  s ∈ sentries c →
  occurrences (OnObstruct s (self c)) (owed_calls c ops) = rises c ops
  ∧ occurrences (OnClear s (self c)) (owed_calls c ops) = falls c ops.
Proof.
  revert c. induction ops as [|o ops IH]; intros c Hs; simpl; [done|].
  rewrite !occurrences_app.
  destruct (occurrences_transition c s (obstruction_count c)
              (obstruction_count (step c o).1) Hs) as [-> ->].
  destruct (IH (step c o).1) as [H1 H2]; [by rewrite step_sentries|].
  rewrite step_self in H1, H2. by rewrite H1, H2.
Qed.

(** C3. Over any sequence of [f_obstruct] and [f_clear] calls on a channel,
    the monitor calls made are exactly those owed to the changes of the
    obstruction count: every registered pair has its [onObstruct] invoked
    once for each change from zero obstructions to one or more, and its
    [onClear] once for each change back to zero; a second [f_obstruct]
    under any key before a clear makes no monitor call. *)
Theorem monitors_fire_once_per_transition c ops s :
  s ∈ sentries c →
  (run c ops).2 = owed_calls c ops
  ∧ occurrences (OnObstruct s (self c)) (run c ops).2 = rises c ops
  ∧ occurrences (OnClear s (self c)) (run c ops).2 = falls c ops
  ∧ ∀ k1 k2 s1 s2 cd1 cd2,
      (f_obstruct (f_obstruct c k1 s1 cd1).1 k2 s2 cd2).2 = [].
Proof.
  intros Hs. rewrite run_calls.
  destruct (owed_calls_counts c ops s Hs) as [H1 H2].
  repeat split; try done.
  intros k1 k2 s1 s2 cd1 cd2. unfold f_obstruct at 1; simpl.
  case_bool_decide as He; [|done].
  by apply insert_non_empty in He.
Qed.

Lemma monitors_fire_once_per_transition_witness :
  (10, 11) ∈ sentries watched_channel
  ∧ (run watched_channel
       [Obstruct 2 None None; Obstruct 3 None None; Clear 3; Clear 2;
        Obstruct 2 None None]).2
    = [OnObstruct (10, 11) 1; OnClear (10, 11) 1; OnObstruct (10, 11) 1].
Proof.
  assert ((10, 11) ∈ sentries watched_channel) as Hs.
  { vm_compute. apply list_elem_of_here. }
  split; [exact Hs|].
  rewrite (proj1 (monitors_fire_once_per_transition watched_channel _ _ Hs)).
  reflexivity.
Defined.

(** C9. [f_watch] on an obstructed channel adds the pair to the monitor set
    and invokes [onObstruct] with the channel at once; on an unobstructed
    channel it adds the pair and invokes nothing. *)
Theorem f_watch_signals_current_obstruction c obstructed cleared :
  f_monitors (f_watch c obstructed cleared).1
  = Some ({[ (obstructed, cleared) ]} ∪ default ∅ (f_monitors c))
  ∧ f_obstructions (f_watch c obstructed cleared).1 = f_obstructions c
  ∧ (f_watch c obstructed cleared).2
    = if f_obstructed c then [OnObstruct (obstructed, cleared) (self c)]
      else [].
Proof. unfold f_watch, f_obstructed; simpl. by destruct (f_obstructions c). Qed.

End ChannelFacts.

(** ** Kernel output queue *)

Section KOutputFacts.
Import Channel KOutput.

Lemma f_clear_removes c key :
  f_obstructions (f_clear c key).1.2 ≫= (λ m, m !! key) = None.
Proof.
  unfold f_clear. destruct (f_obstructions c) as [m|] eqn:E; simpl.
  - case_bool_decide as Hm; simpl.
    + rewrite E; simpl. subst m. apply lookup_empty.
    + destruct (m !! key) eqn:Hk; simpl.
      * case_bool_decide; simpl; [done|]. apply lookup_delete_eq.
      * by rewrite E.
  - by rewrite E.
Qed.

(** Counterexample to C4 without the amendment: with no transfer in flight,
    eighteen buffers handed to [process] leave seventeen queued, above the
    limit of sixteen, and the channel is not obstructed. *)
Lemma idle_overflow_not_obstructed :
  let k' := (process (create 1) (replicate 18 [])).1 in
  length (ko_queue k') = 17
  ∧ ko_overflow k' = true
  ∧ f_obstructed (chan k') = false.
Proof. by vm_compute. Qed.

(** C4 (amended). While a transfer is in flight, [process] obstructs the
    channel on itself with [Condition(self, ('ko_overflow',))] whenever it
    leaves more than [ko_limit] entries queued, and leaves the obstructions
    alone otherwise; with no transfer in flight it starts the next transfer
    instead.  The self obstruction is removed only by an operation that
    leaves the queue empty with nothing in flight, and [k_transition] on an
    empty queue always removes it. *)
Theorem ko_overflow_obstructs_in_flight k event :
  (is_Some (k_transferred k) →
     let k' := (process k event).1 in
     ko_queue k' = ko_queue k ++ event
     ∧ (ko_overflow k' = true →
          self_obstruction k' = Some (None, Some (overflow_condition k)))
     ∧ (ko_overflow k' = false → chan k' = chan k))
  ∧ (k_transferred k = None →
       process k event
       = k_transition {| chan := chan k; ko_limit := ko_limit k;
                         ko_queue := ko_queue k ++ event;
                         k_transferred := None;
                         terminating := terminating k;
                         transit_acquired := transit_acquired k;
                         transit_terminated := transit_terminated k |})
  ∧ (ko_queue k = [] → self_obstruction (k_transition k).1 = None)
  ∧ (∀ k', (k' = (process k event).1 ∨ k' = (k_transition k).1) →
       is_Some (self_obstruction k) → self_obstruction k' = None →
       ko_queue k' = [] ∧ k_transferred k' = None).
Proof.
  split; [|split; [|split]].
  - intros [n Hn]. unfold process; simpl. rewrite Hn.
    unfold ko_overflow; simpl.
    destruct (ko_limit k <? length (ko_queue k ++ event)) eqn:Hl; simpl.
    + split; [done|]. split; [|by rewrite Hl].
      intros _. unfold self_obstruction; simpl. apply lookup_insert_eq.
    + split; [done|]. split; [by rewrite Hl|done].
  - intros Hn. unfold process; simpl. by rewrite Hn.
  - intros Hq. unfold k_transition. rewrite Hq.
    pose proof (f_clear_removes (chan k) (self (chan k))) as Hc.
    pose proof (f_clear_frame (chan k) (self (chan k))) as [Hs _].
    destruct (f_clear (chan k) (self (chan k))) as [[b c'] calls].
    unfold self_obstruction; simpl in *. by rewrite Hs.
  - assert (∀ k0, is_Some (self_obstruction k0) →
              self_obstruction (k_transition k0).1 = None →
              ko_queue (k_transition k0).1 = []
              ∧ k_transferred (k_transition k0).1 = None) as Htr.
    { intros k0 Hsome. unfold k_transition.
      destruct (ko_queue k0) as [|nb rest].
      - by destruct (f_clear (chan k0) (self (chan k0))) as [[b c'] calls].
      - simpl. intros Hnone. unfold self_obstruction in *; simpl in *.
        rewrite Hnone in Hsome. by destruct Hsome. }
    intros k' [->| ->] Hsome Hnone; [|by apply Htr].
    revert Hnone. unfold process; simpl.
    destruct (k_transferred k) as [n|] eqn:Hn.
    + destruct (ko_limit k <? length (ko_queue k ++ event)); simpl.
      * unfold self_obstruction; simpl. by rewrite lookup_insert_eq.
      * unfold self_obstruction in *; simpl. intros Hnone.
        rewrite Hnone in Hsome. by destruct Hsome.
    + apply Htr. done.
Qed.

Lemma ko_overflow_obstructs_in_flight_witness :
  is_Some (k_transferred busy_output)
  ∧ self_obstruction (process busy_output (replicate 17 [])).1
    = Some (None, Some (Condition 1 ["ko_overflow"%string] None)).
Proof.
  assert (is_Some (k_transferred busy_output)) as Hb by (by eexists).
  split; [exact Hb|].
  apply (proj1 (ko_overflow_obstructs_in_flight busy_output
                  (replicate 17 [])) Hb).
  reflexivity.
Defined.

End KOutputFacts.

(** ** Transport stack *)

Section TransportsFacts.
Import Transports.

Lemma transfer_all_raises {L E} (xfer : Z → L → list E → L * list E) ohw
    pol ops m events opp e :
  transfer_all xfer ohw pol ops m events opp = Raise e → e = KeyError.
Proof.
  revert m events opp. induction ops as [|o ops IH]; intros m events opp;
    simpl; [done|].
  destruct (m !! o) as [l|]; [|by intros [= <-]].
  destruct (xfer pol l events) as [l' events']. apply IH.
Qed.

Lemma pop_terminated_raises {L E} (lt : L → bool) pol top (p : @pair L E) e :
  pop_terminated lt pol top p = Raise e → e = KeyError ∨ e = AttributeError.
Proof.
  revert p. induction top as [|o below IH]; intros p; simpl; [done|].
  destruct (layers p !! o) as [l|]; [|intros [= <-]; by left].
  destruct (lt l); [|done].
  destruct (tf_polarity (get pol p) =? 1)%Z; simpl.
  - match goal with |- context [f_downstream ?s] => destruct (f_downstream s) end;
      [apply IH|intros [= <-]; by right].
  - match goal with |- context [f_downstream ?s] => destruct (f_downstream s) end;
      [apply IH|intros [= <-]; by right].
Qed.

Lemma finish_raises {L E} (lt : L → bool) pol (p : @pair L E) e :
  finish lt pol p = Raise e → e = KeyError ∨ e = AttributeError.
Proof.
  unfold finish.
  destruct (pop_terminated lt pol (reverse (tf_stack p)) p) as [p4|e'] eqn:Hp.
  - destruct (tf_stack p4); [|done].
    destruct (terminating (get pol p4)); [intros [= <-]; by right|].
    destruct (terminating (get (- pol) p4)); [intros [= <-]; by right|done].
  - intros [= ->]. by apply pop_terminated_raises in Hp.
Qed.

Lemma check_deadlock_ok {L E} (ohw : Z → L → bool) pol (p : @pair L E) :
  check_deadlock ohw pol p = Ok p.
Proof.
  unfold check_deadlock. change (polarity =? -1)%Z with false.
  by rewrite andb_false_r.
Qed.

(** The deadlock test reads the class attribute [polarity], which is [0] on
    every instance, so [process] never raises the transport-stack deadlock,
    on either side and at any depth. *)
Theorem process_never_raises_deadlock {L E}
    (xfer : Z → L → list E → L * list E) (ohw : Z → L → bool)
    (lt : L → bool) depth pol (p : @pair L E) events :
  process xfer ohw lt depth pol p events ≠ Raise deadlock.
Proof.
  revert pol p events. induction depth as [|depth IH]; intros pol p events;
    simpl; [done|].
  destruct (discarding (get pol p)); [done|].
  destruct (tf_operations (get pol p)) as [|o ops] eqn:Hops; [done|].
  destruct (transfer_all xfer ohw pol (o :: ops) (layers p) events false)
    as [[[m events'] opp]|e] eqn:Ht.
  2:{ apply transfer_all_raises in Ht. by subst e. }
  assert (∀ p3 : @pair L E, finish lt pol p3 ≠ Raise deadlock) as Hfin.
  { intros p3 Hf. by apply finish_raises in Hf as [Hf|Hf]. }
  destruct opp; [|apply Hfin].
  destruct (process xfer ohw lt depth (- pol)
              (emit pol events' (with_layers m p)) []) as [p2|e] eqn:Hrec.
  - rewrite check_deadlock_ok. apply Hfin.
  - intros [= ->]. by apply IH in Hrec.
Qed.

(** C2 at the failing input: [process] on the output side returns normally
    although, after the drain pass into the input side, its layer still
    reports opposite work and the input side is terminating, the condition
    under which the safeguard is to raise the transport-stack deadlock. *)
Example stuck_output_returns :
  ∃ p', stuck_process 64 (-1)%Z stuck_pair [42] = Ok p'
        ∧ effects p' = [Emit (-1) [42]; Emit 1 []]
        ∧ pending_opposite (λ pol (_ : unit), (pol =? -1)%Z) (-1)
            (tf_operations (output p')) (layers p') = 1
        ∧ tf_polarity (output p') = (-1)%Z
        ∧ terminating (input p') = true.
Proof. eexists. by vm_compute. Qed.

End TransportsFacts.

(** ** Fork supervisor *)

Section ProcessManagerFacts.
Import ProcessManager.

(** C8. When a worker with fork identifier [fid] exits and the manager is
    not terminating, the exit is recorded and, if [fid ≤ N], exactly one
    child is forked, with the same fork identifier and its [SECTORS]
    variable set to [str(fid)]; if [fid > N] none is.  When the manager is
    terminating nothing is forked. *)
Theorem xact_exit_restarts_same_fork_id m sub pid fid rest :
  sp_processes sub = (pid, fid) :: rest →
  is_Some (ctl_fork_id_to_subprocess m !! fid) →
  (terminating m = true → xact_exit m sub = Ok m)
  ∧ (terminating m = false →
     ∃ m', xact_exit m sub = Ok m'
       ∧ ctl_last_exit_status m' !! fid = Some (pid, sp_only sub)
       ∧ forked m'
         = forked m ++
           (if bool_decide (fid ≤ ctl_concurrency m)%Z
            then [{| child_pid := next_pid m; child_fork_id := fid;
                     child_SECTORS := str fid |}]
            else [])).
Proof.
  intros Hsub [old Hold]. unfold xact_exit. split; intros ->; [done|].
  rewrite Hsub, Hold.
  destruct (fid <? ctl_concurrency m + 1)%Z eqn:Hlt.
  - eexists. split; [done|]. simpl. rewrite lookup_insert_eq.
    split; [done|]. rewrite bool_decide_eq_true_2; [done|]. lia.
  - eexists. split; [done|]. simpl. rewrite lookup_insert_eq.
    split; [done|]. rewrite bool_decide_eq_false_2; [by rewrite app_nil_r|]. lia.
Qed.

Lemma xact_exit_restarts_same_fork_id_witness :
  let m := actuate (create 3 100) in
  let sub := {| sp_processes := [(101, 2)%Z]; sp_exit_status := [(101, 9)%Z] |} in
  ∃ m', xact_exit m sub = Ok m'
    ∧ ctl_last_exit_status m' !! 2%Z = Some (101%Z, Some 9%Z)
    ∧ forked m'
      = forked m ++ [{| child_pid := 103; child_fork_id := 2;
                        child_SECTORS := "2" |}].
Proof.
  intros m sub.
  assert (is_Some (ctl_fork_id_to_subprocess m !! 2%Z)) as Hin
    by (by vm_compute; eexists).
  destruct (xact_exit_restarts_same_fork_id m sub 101 2 [] eq_refl Hin)
    as [_ Hrun].
  destruct (Hrun eq_refl) as (m' & H1 & H2 & H3).
  exists m'. repeat split; [exact H1|exact H2|exact H3].
Defined.

End ProcessManagerFacts.

(** ** Unit address space *)

Section UnitFacts.
Import Unit.

(** C10. A successful [delete] removes the address from [u_index] and the
    object placed there from [u_reverse_index], and nothing else: the
    hierarchy is the same object with the same content, so [listdir] answers
    as before the deletion, and a name listed under the parent address
    beforehand is still listed afterwards. *)
Theorem delete_keeps_hierarchy u address u' :
  delete u address = Ok u' →
  (∃ obj, u_index u !! address = Some obj
     ∧ u_index u' = base.delete address (u_index u)
     ∧ u_reverse_index u' = base.delete obj (u_reverse_index u))
  ∧ u_hierarchy u' = u_hierarchy u
  ∧ dicts u' = dicts u
  ∧ (∀ a, listdir u' a = listdir u a)
  ∧ (∀ parent names name,
       listdir u parent = Some names → name ∈ names →
       ∃ names', listdir u' parent = Some names' ∧ name ∈ names').
Proof.
  unfold delete. destruct (u_index u !! address) as [obj|] eqn:Hi; [|done].
  destruct (u_reverse_index u !! obj) as [addr|] eqn:Hr; [|done].
  intros [= <-]. simpl. split; [by exists obj|].
  repeat split; try done.
  intros parent names name Hl Hn. exists names. by split.
Qed.

Lemma delete_keeps_hierarchy_witness :
  delete placed_unit ["bin"%string; "worker"%string] = Ok deleted_unit
  ∧ u_index deleted_unit !! ["bin"%string; "worker"%string] = None
  ∧ listdir placed_unit ["bin"%string] = Some ["worker"%string]
  ∧ listdir deleted_unit ["bin"%string] = Some ["worker"%string].
Proof.
  assert (delete placed_unit ["bin"%string; "worker"%string] = Ok deleted_unit)
    as Hd by (by vm_compute).
  destruct (delete_keeps_hierarchy _ _ _ Hd) as (_ & _ & _ & Hl & _).
  split; [exact Hd|]. split; [by vm_compute|].
  split; [by vm_compute|]. rewrite Hl. by vm_compute.
Defined.

End UnitFacts.

(** ** Port sets *)

Section PortsFacts.
Import Ports.

Lemma closes_nothing_ret {A} (a : A) : closes_nothing (mret a).
Proof. done. Qed.

Lemma closes_nothing_raise {A} e : closes_nothing (raise (A := A) e).
Proof. done. Qed.

Lemma closes_nothing_get : closes_nothing get.
Proof. done. Qed.

Lemma closes_nothing_modify f :
  (∀ p, closed (f p) = closed p) → closes_nothing (modify f).
Proof. intros Hf p. apply Hf. Qed.

Lemma closes_nothing_bind {A B} (m : stateful ports A) (f : A → stateful ports B) :
  closes_nothing m → (∀ a, closes_nothing (f a)) → closes_nothing (m ≫= f).
Proof.
  intros Hm Hf p. unfold mbind, stateful_bind. specialize (Hm p).
  destruct (m p) as [p1 [a|e|]]; simpl in *; [|done..].
  by rewrite Hf.
Qed.

Lemma set_slot_dict_closed p slot d :
  closed (set_slot_dict p slot d) = closed p.
Proof. unfold set_slot_dict. by destruct (sets p). Qed.

Lemma slot_dict_closes_nothing slot : closes_nothing (slot_dict slot).
Proof.
  apply closes_nothing_bind; [apply closes_nothing_get|]. intros p.
  destruct (sets p) as [m|s]; [|apply closes_nothing_raise].
  destruct (m !! slot); [apply closes_nothing_ret|].
  apply closes_nothing_bind; [by apply closes_nothing_modify|].
  intros _. apply closes_nothing_ret.
Qed.

Lemma void_sockets_closes_nothing endpoints :
  closes_nothing (void_sockets endpoints).
Proof.
  induction endpoints as [|x rest IH]; simpl; [apply closes_nothing_ret|].
  destruct (String.eqb (protocol x) "local"); [|done].
  apply closes_nothing_bind; [apply closes_nothing_get|]. intros p.
  destruct (entries (fs p) !! route x) as [type|]; [|done].
  destruct (String.eqb type "socket"); [|apply closes_nothing_raise].
  apply closes_nothing_bind; [by apply closes_nothing_modify|]. done.
Qed.

Lemma bind_closes_nothing slot endpoints :
  closes_nothing (bind slot endpoints).
Proof.
  apply closes_nothing_bind; [apply slot_dict_closes_nothing|]. intros d.
  apply closes_nothing_bind; [apply void_sockets_closes_nothing|]. intros _.
  apply closes_nothing_bind; [apply closes_nothing_get|]. intros p.
  destruct (bindings (entries (fs p)) (descriptors p) endpoints)
    as [[f' next] fds].
  apply closes_nothing_bind; [by apply closes_nothing_modify|]. intros _.
  apply closes_nothing_modify. intros p'. apply set_slot_dict_closed.
Qed.

(** [pop] of a set object never returns a descriptor. *)
Lemma pop_set slot s p n : (pop slot (ASet s) p).2 ≠ Returned (Some n).
Proof.
  unfold pop, mbind, stateful_bind.
  by destruct (slot_dict slot p) as [p1 [[|b sd]|e|]].
Qed.

(** [close] handed one set object closes nothing. *)
Lemma close_set_closes_nothing slot s :
  closes_nothing (close slot [ASet s]).
Proof.
  apply closes_nothing_bind; [apply slot_dict_closes_nothing|]. intros _.
  intros p. simpl. unfold mbind at 1, stateful_bind at 1.
  pose proof (pop_set slot s p) as Hn.
  assert (closes_nothing (pop slot (ASet s))) as Hp.
  { apply closes_nothing_bind; [apply slot_dict_closes_nothing|].
    intros [|b sd]; [apply closes_nothing_ret|apply closes_nothing_raise]. }
  specialize (Hp p).
  destruct (pop slot (ASet s) p) as [p1 [[n|]|e|]]; simpl in *; try done.
  by specialize (Hn n).
Qed.

(** [replace] never gives a descriptor to [os.close], whatever the slot
    holds and whatever endpoints are requested. *)
Lemma replace_closes_nothing slot endpoints :
  closes_nothing (replace slot endpoints).
Proof.
  apply closes_nothing_bind; [apply slot_dict_closes_nothing|]. intros d.
  apply closes_nothing_bind; [apply bind_closes_nothing|]. intros _.
  apply closes_nothing_bind; [apply close_set_closes_nothing|]. intros _.
  apply closes_nothing_ret.
Qed.

(** On a slot that holds an endpoint when [close] is reached, [replace]
    raises [TypeError]. *)
Lemma close_set_raises slot s p b sd :
  (slot_dict slot p).2 = Returned (b :: sd) →
  (close slot [ASet s] p).2 = Raised TypeError.
Proof.
  intros Hs. unfold close, mbind, stateful_bind.
  assert (∀ p1, (slot_dict slot p).1 = p1 →
            slot_dict slot p1 = (p1, Returned (b :: sd))) as Hidem.
  { intros p1 <-. revert Hs. unfold slot_dict, mbind, stateful_bind, get.
    destruct (sets p) as [m|?] eqn:Hm; simpl; [|done].
    destruct (m !! slot) as [d|] eqn:Hd; simpl; [|done].
    intros [= ->]. by rewrite Hm, Hd. }
  destruct (slot_dict slot p) as [p1 [d| |]] eqn:Hsd; simpl in *; try done.
  inversion Hs; subst d. simpl. unfold pop, mbind, stateful_bind.
  by rewrite (Hidem p1 eq_refl).
Qed.

(** C7 at the failing input: replacing the endpoint of the slot by another
    one binds the new endpoint and then raises [TypeError] inside [close];
    descriptor 3 is not closed and the old endpoint stays in the slot. *)
Example replace_leaves_removed_endpoint_open :
  let '(p', r) := replace "http" [alt_port] serving in
  r = Raised TypeError
  ∧ closed p' = []
  ∧ sets p' = Mapping {[ "http"%string := [(http_port, 3%Z); (alt_port, 4%Z)] ]}.
Proof. by vm_compute. Qed.

(** Whatever the module binds [pickle] to, a device that loads the file
    written by [store] either fails on the unbound name, its [sets]
    untouched, or finds the path of the file, a string, in [sets]. *)
Lemma load_after_store pk p q path :
  fs q = fs (store_with pk path p).1 →
  (pk = None ∧ (load_with pk path q).2 = Raised NameError
   ∧ sets (load_with pk path q).1 = sets q)
  ∨ sets (load_with pk path q).1 = Str path.
Proof.
  intros Hfs. unfold load_with, mbind, stateful_bind, get. rewrite Hfs.
  unfold store_with, mbind, stateful_bind.
  destruct pk as [[]|]; simpl.
  - right. by rewrite lookup_insert_eq.
  - left. by rewrite lookup_insert_eq.
Qed.

(** C6 at the failing input: [store] raises [NameError] after truncating the
    file, and the device of the restarted process, loading that file, fails
    as well and keeps its empty [sets]; with [pickle] bound, [store] writes
    the path and [load] puts that string into [sets]. *)
Example store_then_load_loses_sets :
  (store "/run/ports" serving).2 = Raised NameError
  ∧ content (fs (store "/run/ports" serving).1) !! "/run/ports"%string
    = Some None
  ∧ (load "/run/ports" restarted).2 = Raised NameError
  ∧ sets (load "/run/ports" restarted).1 = Mapping ∅
  ∧ sets (load_with (Some ()) "/run/ports"
            (create (fs (store_with (Some ()) "/run/ports" serving).1) 4)).1
    = Str "/run/ports".
Proof. by vm_compute. Qed.

End PortsFacts.

(** ** Sequenced multiplexer *)

Section CatenationFacts.
Import Catenation.

(** When the context runs the enqueued tasks between the two terminations
    the downstream sees the layers in reservation order. *)
Example fan_in_with_ticks :
  let c := run (create 0) (fan_in ++ [End 10; Tick; Tick; End 20; Tick]) in
  observed c
  = [initiate 1; transfer 1 [10; 11]; terminate 1;
     initiate 2; transfer 2 [20; 21]; terminate 2]
  ∧ sequenced [1; 2] false (observed c) = true
  ∧ faults c = [].
Proof. by vm_compute. Qed.

(** C1 at the failing input: the upstream of layer 1 terminates, and the
    upstream of layer 2 acts before the context runs the drain that this
    termination enqueued.  Layer 2 is already the head of line.  If its
    upstream terminates, the termination is emitted at once: the initiation
    of layer 2 and its queued transfer never reach the downstream, and the
    drain fails its assertion on the empty order.  If its upstream sends,
    the new transfer overtakes the initiation of layer 2 and the transfer
    queued before it. *)
Example head_of_line_window_breaks_sequence :
  let terminated_early :=
    run (create 0) (fan_in ++ [End 10; End 20; Tick; Tick]) in
  let sent_early :=
    run (create 0) (fan_in ++ [End 10; Send 20 [22]; Tick; Tick; Tick]) in
  (observed terminated_early
   = [initiate 1; transfer 1 [10; 11]; terminate 1; terminate 2]
   ∧ sequenced [1; 2] false (observed terminated_early) = false
   ∧ faults terminated_early = [AssertionError]
   ∧ tasks terminated_early = [])
  ∧ (observed sent_early
     = [initiate 1; transfer 1 [10; 11]; terminate 1; transfer 2 [22];
        initiate 2; transfer 2 [20; 21]]
     ∧ sequenced [1; 2] false (observed sent_early) = false
     ∧ faults sent_early = []).
Proof. by vm_compute. Qed.

End CatenationFacts.

(** ** Processor exits and interrupts *)

Section SectorFacts.
Import Sector.

Lemma the_found p s pr : procs s !! p = Some pr → the p s = (s, Returned pr).
Proof. intros H. unfold the, mbind, stateful_bind, get. by rewrite H. Qed.

(** C5 at the failing input: a sector [2] with an at-exit callback [77]
    holds a processor [3], which is reported to [Unit.faulted].  The unit
    interrupts the sector and signals its exit to the root sector, whose
    [reap] enqueues the callback; the context then invokes it, for a
    sector that is interrupted and not terminated, and that
    [Processor.atexit] promises not to call back once interrupted. *)
Example fault_runs_exit_callback_of_interrupted_sector :
  let '(s, r) :=
    (supervised;; faulted 64 3;; run_task 64;; run_task 64) (create 1) in
  r = Returned ()
  ∧ invoked s = [(77, 2)]
  ∧ flags s 2 = Some (true, false)
  ∧ flags s 3 = Some (true, false).
Proof. by vm_compute. Qed.

(** An interrupt alone leaves the callback registered and the queue of the
    context empty. *)
Example interrupt_leaves_callback_registered :
  let '(s, r) := (supervised;; interrupt 64 2 None;; run_task 64) (create 1) in
  r = Returned ()
  ∧ invoked s = [] ∧ tasks s = []
  ∧ flags s 2 = Some (true, false)
  ∧ flags s 3 = Some (true, false)
  ∧ (exit_event_connections <$> procs s !! 1) = Some (Some {[ 2 := [77] ]}).
Proof. by vm_compute. Qed.

(** Termination of the sector, once its processor has exited, runs it. *)
Example terminate_runs_exit_callback :
  let '(s, r) :=
    (dispatch 1 2 SectorClass;; atexit 2 77;;
     terminate 64 2 None;; run_task 64;; run_task 64) (create 1) in
  r = Returned ()
  ∧ invoked s = [(77, 2)]
  ∧ flags s 2 = Some (false, true).
Proof. by vm_compute. Qed.

End SectorFacts.

(** ** Further properties of channels *)

Section ChannelMore.
Import Channel.

Lemma step_keeps_nonempty c o :
  f_obstructions c ≠ Some ∅ → f_obstructions (step c o).1 ≠ Some ∅.
Proof.
  intros Hwf. destruct o as [k s cd|k]; simpl.
  - intros [= He]. by apply insert_non_empty in He.
  - unfold f_clear. destruct (f_obstructions c) as [m|] eqn:E; simpl;
      [|by rewrite E].
    case_bool_decide as Hm; simpl; [by rewrite E|].
    destruct (m !! k); simpl; [|by rewrite E].
    case_bool_decide as Hd; simpl; [done|congruence].
Qed.

(** X1. Starting from a channel whose [f_obstructions] is [None] or a non-empty
    dictionary, no sequence of [f_obstruct] and [f_clear] calls leaves an
    empty dictionary behind: [f_obstructed] is true exactly when some
    obstruction is registered. *)
Theorem obstructed_iff_registered c ops :
  f_obstructions c ≠ Some ∅ →
  f_obstructions (run c ops).1 ≠ Some ∅
  ∧ (f_obstructed (run c ops).1 = true ↔ 0 < obstruction_count (run c ops).1).
Proof.
  intros Hwf.
  assert (f_obstructions (run c ops).1 ≠ Some ∅) as Hfin.
  { revert c Hwf. induction ops as [|o ops IH]; intros c Hwf; simpl; [done|].
    specialize (IH (step c o).1 (step_keeps_nonempty c o Hwf)).
    destruct (step c o) as [c1 l1]; simpl in *.
    by destruct (run c1 ops) as [c2 l2]. }
  split; [done|]. unfold f_obstructed, obstruction_count.
  destruct (f_obstructions (run c ops).1) as [m|]; [|split; [done|lia]].
  split; [intros _|done].
  destruct (size_pos_of_nonempty m) as [n ->]; [congruence|lia].
Qed.

Lemma obstructed_iff_registered_witness :
  f_obstructions watched_channel ≠ Some ∅
  ∧ f_obstructed
      (run watched_channel [Obstruct 2 None None; Clear 2]).1 = false.
Proof.
  assert (f_obstructions watched_channel ≠ Some ∅) as Hwf by done.
  split; [exact Hwf|].
  destruct (obstructed_iff_registered watched_channel
              [Obstruct 2 None None; Clear 2] Hwf) as [_ Hiff].
  apply not_true_is_false. intros E.
  apply Hiff in E. vm_compute in E. lia.
Defined.

(** X2. [f_obstruct] under a key that is not registered, followed by [f_clear]
    of that key, restores the obstructions; [f_clear] reports a clear
    exactly when the channel was unobstructed before, and the monitors are
    the same. *)
Theorem obstruct_clear_round_trip c k s cd :
  f_obstructions c ≠ Some ∅ →
  f_obstructions c ≫= (λ m, m !! k) = None →
  let c1 := (f_obstruct c k s cd).1 in
  f_obstructions (f_clear c1 k).1.2 = f_obstructions c
  ∧ (f_clear c1 k).1.1 = negb (f_obstructed c)
  ∧ f_monitors (f_clear c1 k).1.2 = f_monitors c
  ∧ (f_clear c1 k).2
    = if f_obstructed c then [] else (λ m, OnClear m (self c)) <$> sentries c.
Proof.
  intros Hwf Hk. cbv zeta. unfold f_obstruct, f_clear, f_obstructed; simpl.
  rewrite bool_decide_eq_false_2 by apply insert_non_empty.
  rewrite lookup_insert_eq.
  destruct (f_obstructions c) as [m|] eqn:E; simpl in *.
  - rewrite delete_insert_id by done.
    rewrite bool_decide_eq_false_2 by congruence. done.
  - rewrite delete_insert_id by apply lookup_empty.
    rewrite bool_decide_eq_true_2 by done. done.
Qed.

Lemma obstruct_clear_round_trip_witness :
  f_obstructions watched_channel ≠ Some ∅
  ∧ f_obstructions
      (f_clear (f_obstruct watched_channel 5 None (Some Inexorable)).1 5).1.2
    = None.
Proof.
  assert (f_obstructions watched_channel ≠ Some ∅) as Hwf by done.
  split; [exact Hwf|].
  apply (obstruct_clear_round_trip watched_channel 5 None (Some Inexorable)
           Hwf eq_refl).
Defined.

(** X3. [f_watch] of a pair that is not watched yet, followed by [f_ignore] of
    that pair, leaves the monitors that were there, and leaves the
    obstructions alone; on a channel that never had monitors the attribute
    ends as an empty set instead of [None]. *)
Theorem watch_ignore_round_trip c obstructed cleared :
  (obstructed, cleared) ∉ sentries c →
  let c1 := (f_watch c obstructed cleared).1 in
  sentries (f_ignore c1 obstructed cleared) = sentries c
  ∧ f_monitors (f_ignore c1 obstructed cleared)
    = Some (default ∅ (f_monitors c))
  ∧ f_obstructions (f_ignore c1 obstructed cleared) = f_obstructions c.
Proof.
  intros Hnew. cbv zeta. unfold f_watch, f_ignore; simpl.
  rewrite bool_decide_eq_false_2 by set_solver. simpl.
  assert ((({[(obstructed, cleared)]} ∪ default ∅ (f_monitors c))
           ∖ {[(obstructed, cleared)]} : gset (nat * nat))
          = default ∅ (f_monitors c)) as Hset.
  { assert ((obstructed, cleared) ∉ default ∅ (f_monitors c)) as Hnot.
    { unfold sentries in Hnew. destruct (f_monitors c) as [ms|]; simpl.
      - by rewrite elem_of_elements in Hnew.
      - apply not_elem_of_empty. }
    apply set_eq. intros x.
    rewrite elem_of_difference, elem_of_union, elem_of_singleton. split.
    - by intros [[->|Hx] Hne].
    - intros Hx. split; [by right|]. by intros ->. }
  rewrite Hset. split; [|done].
  unfold sentries; simpl. destruct (f_monitors c); simpl; [done|].
  apply elements_empty.
Qed.

Lemma watch_ignore_round_trip_witness :
  ((20, 21) ∉ sentries watched_channel)
  ∧ sentries (f_ignore (f_watch watched_channel 20 21).1 20 21)
    = sentries watched_channel.
Proof.
  assert ((20, 21) ∉ sentries watched_channel) as Hnew.
  { vm_compute. intros H. apply list_elem_of_singleton in H. discriminate. }
  split; [exact Hnew|].
  apply (watch_ignore_round_trip watched_channel 20 21 Hnew).
Defined.

End ChannelMore.

(** ** Further properties of the kernel output queue *)

Section KOutputMore.
Import Channel KOutput KOutputRuns.

Lemma k_transition_order k :
  transit_acquired (k_transition k).1 ++ ko_queue (k_transition k).1
  = transit_acquired k ++ ko_queue k.
Proof.
  unfold k_transition. destruct (ko_queue k) as [|nb rest]; simpl.
  - by destruct (f_clear (chan k) (self (chan k))) as [[b c'] calls].
  - by rewrite <- app_assoc.
Qed.

Lemma process_order k event :
  transit_acquired (process k event).1 ++ ko_queue (process k event).1
  = transit_acquired k ++ ko_queue k ++ event.
Proof.
  unfold process; simpl. destruct (k_transferred k) as [n|]; simpl.
  - by destruct (ko_limit k <? length (ko_queue k ++ event)).
  - by rewrite k_transition_order.
Qed.

(** X4. Nothing is lost or reordered: over any sequence of [process] and
    [k_transition] calls, the buffers given to the kernel followed by the
    buffers still queued are the buffers that were there at the start
    followed by the buffers handed in, in the order they were handed in. *)
Theorem output_queue_is_fifo k ops :
  transit_acquired (run k ops) ++ ko_queue (run k ops)
  = transit_acquired k ++ ko_queue k ++ handed ops.
Proof.
  revert k. induction ops as [|o ops IH]; intros k; simpl.
  - by rewrite app_nil_r.
  - unfold run in *. simpl. rewrite IH. destruct o as [event|]; simpl.
    + rewrite (app_assoc _ (ko_queue _)), process_order.
      by rewrite <- !app_assoc.
    + by rewrite (app_assoc _ (ko_queue _)), k_transition_order, <- app_assoc.
Qed.

(** X5. After any operation, a channel with no transfer in flight has an empty
    queue and holds no obstruction on itself. *)
Theorem idle_output_is_drained k o :
  k_transferred (step k o) = None →
  ko_queue (step k o) = [] ∧ self_obstruction (step k o) = None.
Proof.
  assert (∀ k0, k_transferred (k_transition k0).1 = None →
            ko_queue (k_transition k0).1 = []
            ∧ self_obstruction (k_transition k0).1 = None) as Htr.
  { intros k0. unfold k_transition. destruct (ko_queue k0) as [|nb rest];
      [|done].
    pose proof (f_clear_removes (chan k0) (self (chan k0))) as Hc.
    pose proof (f_clear_frame (chan k0) (self (chan k0))) as [Hs _].
    destruct (f_clear (chan k0) (self (chan k0))) as [[b c'] calls].
    intros _. split; [done|]. unfold self_obstruction; simpl in *.
    by rewrite Hs. }
  destruct o as [event|]; simpl; [|apply Htr].
  unfold process; simpl. destruct (k_transferred k) as [n|] eqn:Hn; simpl.
  - destruct (ko_limit k <? length (ko_queue k ++ event)); simpl;
      by rewrite ?Hn.
  - apply Htr.
Qed.

Lemma idle_output_is_drained_witness :
  k_transferred (step (queued [] false) Transition) = None
  ∧ ko_queue (step (queued [] false) Transition) = [].
Proof.
  assert (k_transferred (step (queued [] false) Transition) = None) as Hn
    by reflexivity.
  split; [exact Hn|].
  apply (idle_output_is_drained (queued [] false) Transition Hn).
Defined.

Lemma k_transition_pops k nb rest :
  ko_queue k = nb :: rest →
  (k_transition k).1
  = {| chan := chan k; ko_limit := ko_limit k; ko_queue := rest;
       k_transferred := Some 0; terminating := terminating k;
       transit_acquired := transit_acquired k ++ [nb];
       transit_terminated := transit_terminated k |}.
Proof. intros Hq. unfold k_transition. by rewrite Hq. Qed.

Lemma transitions_pending k j :
  j ≤ length (ko_queue k) →
  transit_acquired (transitions j k) = transit_acquired k ++ take j (ko_queue k)
  ∧ ko_queue (transitions j k) = drop j (ko_queue k)
  ∧ transit_terminated (transitions j k) = transit_terminated k
  ∧ terminating (transitions j k) = terminating k
  ∧ self (chan (transitions j k)) = self (chan k).
Proof.
  induction j as [|j IH]; intros Hj.
  - simpl. by rewrite app_nil_r.
  - destruct IH as (Ha & Hq & Ht & Hg & Hs); [lia|].
    destruct (drop j (ko_queue k)) as [|nb rest] eqn:Hd.
    { apply (f_equal length) in Hd. rewrite length_drop in Hd. simpl in Hd. lia. }
    change (transitions (S j) k) with (k_transition (transitions j k)).1.
    rewrite (k_transition_pops _ nb rest Hq). simpl.
    rewrite Ha, <- app_assoc. repeat split; try done.
    + f_equal. rewrite (take_S_r _ _ nb); [done|].
      rewrite <- (take_drop j (ko_queue k)) at 1.
      rewrite Hd, lookup_app_r by (rewrite length_take; lia).
      rewrite length_take. replace (j - j `min` length (ko_queue k)) with 0 by lia.
      done.
    + replace (S j) with (j + 1) by lia. by rewrite <- drop_drop, Hd.
Qed.

(** X6. Draining: while queued buffers remain, each [k_transition] hands the
    next one to the kernel and leaves the transit open; the call after the
    last one empties the state, removes the obstruction the channel holds
    on itself and, if the channel is terminating, terminates the transit.
    So a terminating output gives every queued buffer to the kernel before
    it closes. *)
Theorem drain_before_transit_terminates k j :
  j ≤ length (ko_queue k) →
  let last := transitions (S (length (ko_queue k))) k in
  transit_acquired (transitions j k) = transit_acquired k ++ take j (ko_queue k)
  ∧ transit_terminated (transitions j k) = transit_terminated k
  ∧ transit_acquired last = transit_acquired k ++ ko_queue k
  ∧ ko_queue last = [] ∧ k_transferred last = None
  ∧ self_obstruction last = None
  ∧ transit_terminated last = terminating k || transit_terminated k.
Proof.
  intros Hj. cbv zeta.
  destruct (transitions_pending k j Hj) as (Ha & _ & Ht & _).
  split; [done|]. split; [done|].
  destruct (transitions_pending k (length (ko_queue k)) (le_n _))
    as (Ha' & Hq' & Ht' & Hg' & Hs').
  rewrite firstn_all in Ha'. rewrite drop_all in Hq'.
  change (transitions (S (length (ko_queue k))) k)
    with (k_transition (transitions (length (ko_queue k)) k)).1.
  set (kn := transitions (length (ko_queue k)) k) in *.
  unfold k_transition. rewrite Hq'.
  pose proof (f_clear_removes (chan kn) (self (chan kn))) as Hc.
  pose proof (f_clear_frame (chan kn) (self (chan kn))) as [Hs _].
  destruct (f_clear (chan kn) (self (chan kn))) as [[b c'] calls].
  simpl in *. rewrite Ha'. repeat split; try done.
  - unfold self_obstruction; simpl. by rewrite Hs.
  - rewrite Hg', Ht'. by destruct (terminating k).
Qed.

Lemma drain_before_transit_terminates_witness :
  2 ≤ length (ko_queue (queued [[]; []; []] true))
  ∧ transit_terminated (transitions 2 (queued [[]; []; []] true)) = false
  ∧ transit_terminated (transitions 4 (queued [[]; []; []] true)) = true.
Proof.
  assert (2 ≤ length (ko_queue (queued [[]; []; []] true))) as Hj
    by (simpl; lia).
  destruct (drain_before_transit_terminates _ 2 Hj)
    as (_ & Ht & _ & _ & _ & _ & Hl).
  split; [exact Hj|]. split; [exact Ht|exact Hl].
Defined.

End KOutputMore.

(** ** The event driven lock *)

Section LockFacts.
Import Lock.

Lemma granted_acquire l invoked requests callback :
  granted l invoked requests →
  granted (acquire l callback).1.1 (invoked ++ (acquire l callback).1.2)
    (requests ++ [callback]).
Proof.
  intros (released & Hr & Hi & Hc). unfold acquire.
  destruct (_current l) as [c|] eqn:Hcur.
  - destruct (_waiters l) as [|w ws] eqn:Hw; [done|]. simpl in *.
    exists released. simpl. rewrite Hr, Hi, <- !app_assoc, app_nil_r. done.
  - destruct (_waiters l) as [|w ws] eqn:Hw; [|done]. simpl.
    rewrite bool_decide_eq_true_2 by done. simpl.
    exists released. simpl. rewrite Hr, Hi, !app_nil_r. done.
Qed.

Lemma granted_release l invoked requests :
  granted l invoked requests →
  granted (release l).1.1 (invoked ++ (release l).1.2) requests.
Proof.
  intros (released & Hr & Hi & Hc). unfold release.
  destruct (_current l) as [c|] eqn:Hcur.
  - destruct (_waiters l) as [|w ws] eqn:Hw; [done|].
    simpl in Hc. injection Hc as <-.
    destruct ws as [|next ws]; simpl.
    + exists (released ++ [c]). simpl. rewrite Hr, Hi, !app_nil_r. done.
    + exists (released ++ [c]). simpl. rewrite Hr, Hi, <- !app_assoc. done.
  - simpl. rewrite app_nil_r. exists released. by rewrite Hcur.
Qed.

Lemma run_granted l invoked requests ops :
  granted l invoked requests →
  granted (run l ops).1 (invoked ++ (run l ops).2) (requests ++ requested ops).
Proof.
  revert l invoked requests.
  induction ops as [|o ops IH]; intros l invoked requests Hg; simpl.
  - by rewrite !app_nil_r.
  - destruct o as [callback|]; simpl.
    + pose proof (granted_acquire l invoked requests callback Hg) as H1.
      destruct (acquire l callback) as [[l1 inv1] b]. simpl in H1.
      specialize (IH _ _ _ H1).
      destruct (run l1 ops) as [l2 later]. simpl in *.
      rewrite <- ?app_assoc in IH. simpl in IH. by rewrite <- ?app_assoc.
    + pose proof (granted_release l invoked requests Hg) as H1.
      destruct (release l) as [[l1 inv1] b]. simpl in H1.
      specialize (IH _ _ _ H1).
      destruct (run l1 ops) as [l2 later]. simpl in *.
      rewrite <- ?app_assoc in IH. simpl in IH. by rewrite <- ?app_assoc.
Qed.

(** X7. The lock is granted in the order it was asked for, to one callback at a
    time: over any sequence of [acquire] and [release] calls on a new lock,
    the callbacks invoked are the first of the requested ones, in the order
    of the requests, and the remaining requests are the waiters behind the
    holder; the holder is the first waiter and the callback invoked last;
    and the lock is locked exactly while a request is unreleased. *)
Theorem lock_is_granted_in_request_order ops :
  let '(l, invoked) := run create ops in
  requested ops = invoked ++ drop 1 (_waiters l)
  ∧ _current l = head (_waiters l)
  ∧ (∀ holder, _current l = Some holder → last invoked = Some holder)
  ∧ (locked l = true ↔ _waiters l ≠ []).
Proof.
  assert (granted create [] []) as H0 by (by exists []).
  pose proof (run_granted create [] [] ops H0) as (released & Hr & Hi & Hc).
  destruct (run create ops) as [l invoked]. simpl in *.
  split; [|split; [done|split]].
  - rewrite Hr, Hi, Hc. destruct (_waiters l); simpl.
    + by rewrite !app_nil_r.
    + by rewrite <- app_assoc.
  - intros holder Hh. rewrite Hi, Hh. simpl. apply last_snoc.
  - unfold locked. rewrite Hc. by destruct (_waiters l).
Qed.

End LockFacts.

(** ** Joins *)

Section JoinFacts.
Import Join.

Lemma exits_completed j processors :
  pending j = None → (exits j processors).2 = []
  ∧ pending (exits j processors).1 = None.
Proof.
  revert j. induction processors as [|p rest IH]; intros j Hp; simpl; [done|].
  unfold exited. rewrite Hp.
  specialize (IH j Hp). by destruct (exits j rest) as [j2 later].
Qed.

Lemma covered_step (awaited : gset nat) p (rest : list nat) :
  awaited ∖ {[ p ]} ⊆ list_to_set rest ↔ awaited ⊆ list_to_set (p :: rest).
Proof.
  split; intros Hsub x Hx.
  - apply elem_of_list_to_set, elem_of_cons.
    destruct (decide (x = p)) as [->|Hne]; [by left|right].
    apply (elem_of_list_to_set (C:=gset nat)), Hsub, elem_of_difference.
    split; [done|]. by rewrite elem_of_singleton.
  - apply elem_of_difference in Hx as [Hx Hne].
    rewrite elem_of_singleton in Hne.
    apply Hsub, elem_of_list_to_set, elem_of_cons in Hx as [Hx|Hx]; [done|].
    by apply (elem_of_list_to_set (C:=gset nat)).
Qed.

Lemma exits_awaited j processors awaited cb :
  pending j = Some awaited → callback j = Some cb →
  (exits j processors).2
  = if bool_decide (processors ≠ [] ∧ awaited ⊆ list_to_set processors)
    then [cb] else [].
Proof.
  revert j awaited. induction processors as [|p rest IH];
    intros j awaited Hp Hc.
  - case_bool_decide as H; [by destruct H|done].
  - cbn [exits]. unfold exited. rewrite Hp, Hc.
    destruct (bool_decide (awaited ∖ {[p]} = ∅)) eqn:He;
      [apply bool_decide_eq_true_1 in He|apply bool_decide_eq_false_1 in He].
    + pose proof (exits_completed
        {| dependencies := dependencies j; pending := None;
           callback := None |} rest eq_refl) as [Hl _].
      destruct (exits _ rest) as [j2 later]. simpl in *. subst later.
      rewrite bool_decide_eq_true_2; [done|]. split; [done|].
      apply covered_step. rewrite He. intros x Hx.
      by apply not_elem_of_empty in Hx.
    + specialize (IH
        {| dependencies := dependencies j;
           pending := Some (awaited ∖ {[p]}); callback := callback j |}
        (awaited ∖ {[p]}) eq_refl Hc).
      rewrite Hc in IH.
      destruct (exits _ rest) as [j2 later]. simpl in IH |- *. rewrite IH.
      assert ((rest ≠ [] ∧ awaited ∖ {[p]} ⊆ list_to_set rest)
              ↔ (p :: rest ≠ [] ∧ awaited ⊆ list_to_set (p :: rest)))
        as Hiff.
      { rewrite <- covered_step. split; intros [H1 H2]; (split; [|done]);
          [done|].
        intros ->. apply He, set_eq. intros x. split.
        - intros Hx. by apply H2, elem_of_list_to_set, elem_of_nil in Hx.
        - intros Hx. by apply not_elem_of_empty in Hx. }
      by rewrite (bool_decide_ext _ _ Hiff).
Qed.

(** X8. A join whose callback was assigned before the exits arrive invokes it
    exactly once, at the exit that leaves no dependency awaited: over any
    sequence of [exited] calls, the callback has been invoked, once, when
    the sequence is not empty and mentions every dependency, and not at all
    otherwise.  A join over no processors completes at the first exit it is
    told of, whichever it is. *)
Theorem join_completes_at_last_exit processors cb exiting :
  (exits (atexit (create processors) cb).1 exiting).2
  = if bool_decide (exiting ≠ []
                    ∧ list_to_set processors.*2 ⊆@{gset nat} list_to_set exiting)
    then [cb] else [].
Proof. by apply exits_awaited. Qed.

(** X9. When the last awaited processor exits before any callback was
    assigned, [exited] raises [TypeError] but the join is complete: the
    next [atexit] invokes its callback at once, and a further [exited]
    raises [AttributeError]. *)
Theorem join_completed_without_callback j awaited processor cb :
  pending j = Some awaited → callback j = None →
  awaited ∖ {[ processor ]} = ∅ →
  let '(j', invoked, raised) := exited j processor in
  raised = Some TypeError ∧ invoked = [] ∧ pending j' = None
  ∧ (atexit j' cb).2 = [cb]
  ∧ (exited j' processor).2 = Some AttributeError.
Proof.
  intros Hp Hc He. unfold exited. rewrite Hp, Hc.
  by rewrite bool_decide_eq_true_2.
Qed.

Lemma join_completed_without_callback_witness :
  let j := create [("a"%string, 7)] in
  pending j = Some {[ 7 ]} ∧ (exited j 7).2 = Some TypeError.
Proof.
  intros j.
  assert (pending j = Some {[ 7 ]}) as Hp by (by vm_compute).
  split; [exact Hp|].
  pose proof (join_completed_without_callback j {[ 7 ]} 7 0 Hp eq_refl) as H.
  destruct (exited j 7) as [[j' invoked] raised].
  apply H. apply set_eq. intros x.
  rewrite elem_of_difference, elem_of_singleton. split; [by intros [-> ?]|].
  intros Hx. by apply not_elem_of_empty in Hx.
Defined.

End JoinFacts.

(** ** The pool of workers *)

Section PoolFacts.
Import ProcessManager.

(** The forks of [ctl_fork] for the identifiers [a+1 .. a+n], in order. *)
Lemma forks_in_order m a n :
  let m' := foldl ctl_fork m (Z.of_nat <$> seq (S a) n) in
  forked m'
  = forked m ++ ((λ i, ctl_forked (next_pid m + Z.of_nat i)
                         (Z.of_nat (S a + i))) <$> seq 0 n)
  ∧ next_pid m' = (next_pid m + Z.of_nat n)%Z
  ∧ length (dispatched m') = length (dispatched m) + n
  ∧ ctl_last_exit_status m' = ctl_last_exit_status m
  ∧ ∀ fid,
      ctl_fork_id_to_subprocess m' !! fid
      = if bool_decide (Z.of_nat a < fid ≤ Z.of_nat (a + n))%Z
        then Some {| sp_processes :=
                       [((next_pid m + (fid - Z.of_nat a - 1))%Z, fid)];
                     sp_exit_status := [] |}
        else ctl_fork_id_to_subprocess m !! fid.
Proof.
  induction n as [|n IH].
  - simpl. rewrite app_nil_r. repeat split; try done; try lia.
    intros fid. rewrite bool_decide_eq_false_2; [done|lia].
  - rewrite !seq_S, !fmap_app, foldl_app.
    destruct IH as (Hf & Hp & Hd & Hl & Hm). cbn zeta in *.
    set (m1 := foldl ctl_fork m (Z.of_nat <$> seq (S a) n)) in *.
    simpl. rewrite Hf, Hp, Hl, length_app, Hd. simpl.
    split; [|split; [lia|split; [lia|split; [done|]]]].
    + by rewrite <- app_assoc.
    + intros fid.
      destruct (decide (fid = Z.of_nat (S (a + n)))) as [->|Hne].
      * rewrite lookup_insert_eq, bool_decide_eq_true_2 by lia.
        repeat f_equal. lia.
      * rewrite lookup_insert_ne by done. rewrite Hm.
        apply (f_equal (λ b : bool, if b then _ else _)).
        apply bool_decide_ext. lia.
Qed.

(** X10. [actuate] forks one worker per fork identifier [1 .. N], in that
    order, each child seeing its own identifier, and records the
    subprocess of each under its identifier and nothing else; with a
    concurrency of zero or less it forks nothing. *)
Theorem actuate_forks_one_worker_per_id m :
  let n := Z.to_nat (ctl_concurrency m) in
  forked (actuate m)
  = forked m ++ ((λ i, ctl_forked (next_pid m + Z.of_nat i)
                         (Z.of_nat (S i))) <$> seq 0 n)
  ∧ length (dispatched (actuate m)) = length (dispatched m) + n
  ∧ ∀ fid,
      ctl_fork_id_to_subprocess (actuate m) !! fid
      = if bool_decide (1 ≤ fid ≤ ctl_concurrency m)%Z
        then Some {| sp_processes := [((next_pid m + fid - 1)%Z, fid)];
                     sp_exit_status := [] |}
        else ctl_fork_id_to_subprocess m !! fid.
Proof.
  intros n. unfold actuate. fold n.
  destruct (forks_in_order m 0 n) as (Hf & _ & Hd & _ & Hm).
  split; [exact Hf|split; [exact Hd|]]. intros fid. rewrite Hm.
  case_bool_decide as H1; case_bool_decide as H2; try done; try lia.
  repeat f_equal. lia.
Qed.

(** X11. The exit of a worker whose fork identifier is above the concurrency is
    handled once: the first [xact_exit] drops the subprocess and forks
    nothing, and a second report of the same exit raises [KeyError]. *)
Theorem exit_beyond_concurrency_is_final m sub pid fid rest :
  terminating m = false →
  sp_processes sub = (pid, fid) :: rest →
  is_Some (ctl_fork_id_to_subprocess m !! fid) →
  (ctl_concurrency m < fid)%Z →
  ∃ m', xact_exit m sub = Ok m'
    ∧ forked m' = forked m
    ∧ ctl_fork_id_to_subprocess m' = delete fid (ctl_fork_id_to_subprocess m)
    ∧ xact_exit m' sub = Raise KeyError.
Proof.
  intros Ht Hsub [old Hold] Hlt. unfold xact_exit at 1.
  rewrite Ht, Hsub, Hold.
  destruct (fid <? ctl_concurrency m + 1)%Z eqn:E; [lia|].
  eexists. split; [done|]. split; [done|]. split; [done|].
  unfold xact_exit. simpl. by rewrite Hsub, lookup_delete_eq.
Qed.

Lemma exit_beyond_concurrency_is_final_witness :
  let m := ctl_fork (actuate (create 2 100)) 5 in
  let sub := {| sp_processes := [(102, 5)%Z]; sp_exit_status := [(102, 0)%Z] |} in
  ∃ m', xact_exit m sub = Ok m' ∧ forked m' = forked m
    ∧ xact_exit m' sub = Raise KeyError.
Proof.
  intros m sub.
  assert (is_Some (ctl_fork_id_to_subprocess m !! 5%Z)) as Hin
    by (by vm_compute; eexists).
  destruct (exit_beyond_concurrency_is_final m sub 102 5 [] eq_refl eq_refl
              Hin) as (m' & H1 & H2 & _ & H3); [by vm_compute|].
  exists m'. repeat split; [exact H1|exact H2|exact H3].
Defined.

End PoolFacts.

(** ** Subprocess sets *)

Section SubprocessFacts.
Import Subprocess.

Lemma setitem_keys d k v k' :
  k' ∈ (setitem d k v).*1 ↔ k' = k ∨ k' ∈ d.*1.
Proof.
  induction d as [|[k0 v0] d IH]; simpl.
  - rewrite list_elem_of_singleton, elem_of_nil. tauto.
  - case_bool_decide as E; simpl; rewrite !elem_of_cons.
    + subst k0. tauto.
    + rewrite IH. tauto.
Qed.

Lemma setitem_NoDup d k v : NoDup d.*1 → NoDup (setitem d k v).*1.
Proof.
  induction d as [|[k0 v0] d IH]; simpl; intros Hd.
  - apply NoDup_singleton.
  - apply NoDup_cons in Hd as [Hk0 Hd].
    case_bool_decide as E; simpl; apply NoDup_cons.
    + done.
    + split; [|by apply IH]. rewrite setitem_keys. by intros [?|?].
Qed.

Lemma exits_cons interrupted sub pid status events :
  exits interrupted sub ((pid, status) :: events)
  = exits interrupted
      (if contains (sp_processes sub) pid
       then {| sp_processes := sp_processes sub;
               sp_exit_status := setitem (sp_exit_status sub) pid status |}
       else sub) events.
Proof.
  unfold exits at 1. cbn [foldl]. unfold sp_exit.
  by destruct (contains (sp_processes sub) pid).
Qed.

(** What any run of exit events keeps true of a subprocess. *)
Lemma exits_keys interrupted sub events :
  NoDup (sp_exit_status sub).*1 →
  let sub' := exits interrupted sub events in
  sp_processes sub' = sp_processes sub
  ∧ NoDup (sp_exit_status sub').*1
  ∧ ∀ k, k ∈ (sp_exit_status sub').*1
         ↔ k ∈ (sp_exit_status sub).*1
           ∨ (k ∈ (sp_processes sub).*1 ∧ k ∈ events.*1).
Proof.
  revert sub. induction events as [|[pid status] events IH]; intros sub Hd.
  - simpl. split; [done|split; [done|]]. intros k.
    rewrite elem_of_nil. tauto.
  - cbn zeta. rewrite exits_cons. unfold contains.
    case_bool_decide as Hin; simpl.
    + specialize (IH
        {| sp_processes := sp_processes sub;
           sp_exit_status := setitem (sp_exit_status sub) pid status |}
        (setitem_NoDup _ pid status Hd)).
      cbn zeta in IH. simpl in IH. destruct IH as (Hp & Hn & Hk).
      split; [done|split; [done|]]. intros k. rewrite Hk, setitem_keys.
      rewrite elem_of_cons. split; [|intros [?|[? [->|?]]]; by eauto].
      intros [[->|?]|[? ?]]; by eauto.
    + specialize (IH sub Hd). cbn zeta in IH. destruct IH as (Hp & Hn & Hk).
      split; [done|split; [done|]]. intros k. rewrite Hk, elem_of_cons.
      split; [intros [?|[? ?]]; by eauto|].
      intros [?|[? [->|?]]]; by eauto.
Qed.

(** X12. All the processes of a subprocess have been reaped exactly when none is
    waited for: over any sequence of exit events, known to the subprocess
    or not and repeated or not, the set of processes is as it was created,
    the processes waited for are those no event named, and [sp_reaped]
    holds exactly when that set is empty. *)
Theorem reaped_iff_none_waiting interrupted invocations events :
  NoDup invocations.*1 →
  let sub := exits interrupted (create invocations) events in
  sp_processes sub = invocations
  ∧ sp_waiting sub = list_to_set invocations.*1 ∖ list_to_set events.*1
  ∧ (sp_reaped sub = true ↔ sp_waiting sub = ∅).
Proof.
  intros Hinv.
  destruct (exits_keys interrupted (create invocations) events)
    as (Hp & Hn & Hk); [apply NoDup_nil_2|].
  cbn zeta in *. simpl in Hp, Hk.
  set (sub := exits interrupted (create invocations) events) in *.
  assert (∀ k, k ∈ (sp_exit_status sub).*1
               ↔ k ∈ invocations.*1 ∧ k ∈ events.*1) as Hk'.
  { intros k. rewrite Hk, elem_of_nil. tauto. }
  assert (sp_waiting sub = list_to_set invocations.*1 ∖ list_to_set events.*1)
    as Hw.
  { unfold sp_waiting. rewrite Hp. apply set_eq. intros k.
    rewrite !elem_of_difference, !elem_of_list_to_set, Hk'. tauto. }
  split; [done|split; [done|]].
  unfold sp_reaped, sp_waiting. rewrite Hp, bool_decide_eq_true.
  rewrite <- (length_fmap fst invocations).
  rewrite <- (length_fmap fst (sp_exit_status sub)).
  assert ((sp_exit_status sub).*1 ⊆+ invocations.*1) as Hsub.
  { apply NoDup_submseteq; [done|]. intros k Hin. by apply Hk' in Hin as [? _]. }
  split.
  - intros Hlen. apply set_eq. intros k.
    rewrite elem_of_difference, !elem_of_list_to_set.
    split; [|intros Hx; by apply not_elem_of_empty in Hx].
    intros [Hin Hout]. destruct Hout.
    assert ((sp_exit_status sub).*1 ≡ₚ invocations.*1) as Hperm
      by (apply submseteq_length_Permutation; [done|lia]).
    by rewrite Hperm.
  - intros Hempty.
    assert (invocations.*1 ⊆+ (sp_exit_status sub).*1) as Hsup.
    { apply NoDup_submseteq; [done|]. intros k Hin.
      destruct (decide (k ∈ (sp_exit_status sub).*1)) as [|Hout]; [done|].
      assert (k ∈ (list_to_set invocations.*1 ∖
                   list_to_set (sp_exit_status sub).*1 : gset Z)) as Hx.
      { rewrite elem_of_difference, !elem_of_list_to_set. done. }
      rewrite Hempty in Hx. by apply not_elem_of_empty in Hx. }
    apply submseteq_length in Hsub, Hsup. lia.
Qed.

Lemma reaped_iff_none_waiting_witness :
  let sub := exits false (create [(10, 1); (11, 2)]%Z)
               [(11, 0); (99, 1); (11, 9)]%Z in
  sp_waiting sub = list_to_set [10; 11]%Z ∖ list_to_set [11; 99; 11]%Z
  ∧ (sp_reaped sub = true ↔ sp_waiting sub = ∅).
Proof.
  intros sub.
  assert (NoDup [(10, 1); (11, 2)]%Z.*1) as Hn.
  { simpl. apply NoDup_cons. split.
    - rewrite list_elem_of_singleton. lia.
    - apply NoDup_singleton. }
  destruct (reaped_iff_none_waiting false [(10, 1); (11, 2)]%Z
              [(11, 0); (99, 1); (11, 9)]%Z Hn) as (_ & H1 & H2).
  split; [exact H1|exact H2].
Defined.

(** The statuses the events carry for [pid], in order. *)
Lemma exits_only interrupted pid invocation status0 events :
  let statuses := (filter (λ e, e.1 = pid) events).*2 in
  sp_exit_status
    (exits interrupted {| sp_processes := [(pid, invocation)];
                          sp_exit_status := [(pid, status0)] |} events)
  = [(pid, default status0 (last statuses))].
Proof.
  revert status0. induction events as [|[p s] events IH]; intros status0.
  - done.
  - cbn zeta. rewrite exits_cons. unfold contains. simpl.
    destruct (decide (p = pid)) as [->|Hne].
    + rewrite bool_decide_eq_true_2 by (apply list_elem_of_singleton; done).
      rewrite bool_decide_eq_true_2 by done.
      rewrite IH. rewrite filter_cons_True by done. simpl.
      rewrite last_cons. by destruct (last _).
    + rewrite bool_decide_eq_false_2
        by (rewrite list_elem_of_singleton; done).
      simpl. rewrite IH. by rewrite filter_cons_False by done.
Qed.

(** X13. For a subprocess of one process, [sp_only] is the status reaped at the
    latest exit event of that process, and [None] as long as there was
    none; events of other processes do not count. *)
Theorem sp_only_is_latest_status interrupted pid invocation events :
  sp_only (exits interrupted (create [(pid, invocation)]) events)
  = last (filter (λ e, e.1 = pid) events).*2.
Proof.
  induction events as [|[p s] events IH].
  - done.
  - rewrite exits_cons. unfold contains. simpl.
    destruct (decide (p = pid)) as [->|Hne].
    + rewrite bool_decide_eq_true_2 by (apply list_elem_of_singleton; done).
      unfold sp_only.
      pose proof (exits_keys interrupted
        {| sp_processes := [(pid, invocation)];
           sp_exit_status := [(pid, s)] |} events) as (Hp & _).
      { apply NoDup_singleton. }
      rewrite Hp. simpl. rewrite exits_only.
      rewrite filter_cons_True by done. simpl.
      rewrite last_cons. by destruct (last _).
    + rewrite bool_decide_eq_false_2
        by (rewrite list_elem_of_singleton; done).
      simpl. rewrite filter_cons_False by done. exact IH.
Qed.

End SubprocessFacts.

(** ** Computations with state *)

Section StatefulFacts.
Context {S : Type}.

Lemma run_bind {A B} (m : stateful S A) (f : A → stateful S B) s s' a :
  m s = (s', Returned a) → (m ≫= f) s = f a s'.
Proof. intros H. unfold mbind, stateful_bind. by rewrite H. Qed.

Lemma run_bind_raised {A B} (m : stateful S A) (f : A → stateful S B) s s' e :
  m s = (s', Raised e) → (m ≫= f) s = (s', Raised e).
Proof. intros H. unfold mbind, stateful_bind. by rewrite H. Qed.

Lemma run_get {B} (f : S → stateful S B) s : (get ≫= f) s = f s s.
Proof. done. Qed.

Lemma run_modify {B} (g : S → S) (f : () → stateful S B) s :
  (modify g ≫= f) s = f () (g s).
Proof. done. Qed.

Lemma run_ret {A B} (a : A) (f : A → stateful S B) s : (mret a ≫= f) s = f a s.
Proof. done. Qed.

End StatefulFacts.

(** ** Slots of the port sets *)

Section PortsDeviceFacts.
Import PortsDevice.

(** The dictionary of a slot that exists is returned as it is. *)
Lemma slot_dict_found p m slot d :
  sets p = Mapping m → m !! slot = Some d →
  slot_dict slot p = (p, Returned d).
Proof.
  intros Hs Hd. unfold slot_dict, mbind, stateful_bind, get.
  by rewrite Hs, Hd.
Qed.

(** A slot that does not exist is created empty. *)
Lemma slot_dict_missing p m slot :
  sets p = Mapping m → m !! slot = None →
  slot_dict slot p = (with_sets (Mapping (<[slot := []]> m)) p, Returned []).
Proof.
  intros Hs Hd. unfold slot_dict, mbind, stateful_bind, get.
  by rewrite Hs, Hd.
Qed.

Lemma slot_dict_default p m slot :
  sets p = Mapping m →
  slot_dict slot p
  = (with_sets (Mapping (<[slot := default [] (m !! slot)]> m)) p,
     Returned (default [] (m !! slot))).
Proof.
  intros Hs. destruct (m !! slot) as [d|] eqn:Hd; simpl.
  - rewrite (slot_dict_found p m slot d Hs Hd), insert_id by done.
    destruct p. simpl in *. by subst.
  - by apply slot_dict_missing.
Qed.

(** *** Dictionaries in insertion order *)

Lemma filter_agree {A} (P Q : A → Prop) `{!∀ x, Decision (P x)}
    `{!∀ x, Decision (Q x)} (l : list A) :
  (∀ x, x ∈ l → P x ↔ Q x) → filter P l = filter Q l.
Proof.
  induction l as [|a l IH]; intros Hagree; [done|].
  assert (filter P l = filter Q l) as Hl.
  { apply IH. intros x Hx. apply Hagree. by apply elem_of_cons; right. }
  assert (P a ↔ Q a) as Ha by (apply Hagree, elem_of_cons; by left).
  destruct (decide (P a)) as [HP|HP].
  - rewrite !filter_cons_True by tauto. by rewrite Hl.
  - rewrite !filter_cons_False by tauto. done.
Qed.

Lemma getitem_delitem_ne d e x :
  x ≠ e → getitem (delitem d e) x = getitem d x.
Proof.
  intros Hne. induction d as [|[k v] d IH]; simpl; [done|].
  destruct (decide (k = e)) as [->|Hk]; simpl.
  - by destruct (decide (e = x)).
  - destruct (decide (k = x)); [done|]. exact IH.
Qed.

Lemma delitem_keys d e x : x ∈ (delitem d e).*1 → x ∈ d.*1.
Proof.
  induction d as [|[k v] d IH]; simpl; [done|].
  destruct (decide (k = e)) as [->|Hk]; simpl.
  - intros Hx. by apply elem_of_cons; right.
  - rewrite !elem_of_cons. intros [->|Hx]; [by left|right; by apply IH].
Qed.

Lemma delitem_NoDup d e : NoDup d.*1 → NoDup (delitem d e).*1.
Proof.
  induction d as [|[k v] d IH]; simpl; [done|]. intros Hd.
  apply NoDup_cons in Hd as [Hk Hd].
  destruct (decide (k = e)) as [->|Hne]; simpl; [done|].
  apply NoDup_cons. split; [|by apply IH].
  intros Hin. by apply Hk, (delitem_keys d e).
Qed.

Lemma delitem_filter d e (endpoints : list endpoint) :
  NoDup d.*1 →
  filter (λ kv, kv.1 ∉ endpoints) (delitem d e)
  = filter (λ kv, kv.1 ∉ e :: endpoints) d.
Proof.
  induction d as [|[k v] d IH]; simpl; [done|]. intros Hd.
  apply NoDup_cons in Hd as [Hk Hd].
  destruct (decide (k = e)) as [->|Hne].
  - rewrite filter_cons_False
      by (simpl; intros H; apply H, elem_of_cons; by left).
    apply filter_agree. intros [k' v'] Hin. simpl.
    rewrite not_elem_of_cons.
    assert (k' ≠ e); [|tauto]. intros ->. apply Hk.
    apply list_elem_of_fmap. by exists (e, v').
  - destruct (decide (k ∈ endpoints)) as [Hke|Hke].
    + rewrite !filter_cons_False; [by apply IH|simpl..].
      * intros H. apply H, elem_of_cons. by right.
      * by intros H.
    + rewrite !filter_cons_True; [by rewrite IH|simpl..].
      * by apply not_elem_of_cons.
      * done.
Qed.

Lemma setitem_fresh d ep fd : ep ∉ d.*1 → setitem d ep fd = d ++ [(ep, fd)].
Proof.
  induction d as [|[k v] d IH]; simpl; [done|]. intros Hn.
  apply not_elem_of_cons in Hn as [Hne Hn].
  destruct (decide (k = ep)); [done|]. by rewrite IH.
Qed.

Lemma setitem_zip_fresh d (endpoints : list endpoint) (fds : list Z) :
  NoDup endpoints → (∀ x, x ∈ endpoints → x ∉ d.*1) →
  length fds = length endpoints →
  foldl (λ d '(ep, fd), setitem d ep fd) d (zip endpoints fds)
  = d ++ zip endpoints fds.
Proof.
  revert d fds. induction endpoints as [|x rest IH]; intros d fds Hn Hd Hl.
  - simpl. by rewrite app_nil_r.
  - destruct fds as [|fd fds]; [done|]. simpl.
    apply NoDup_cons in Hn as [Hx Hn].
    rewrite setitem_fresh by (apply Hd, elem_of_cons; by left).
    rewrite IH; [by rewrite <- app_assoc|done| |simpl in Hl; lia].
    intros y Hy. rewrite fmap_app, elem_of_app. simpl.
    rewrite list_elem_of_singleton. intros [Hin| ->]; [|done].
    revert Hin. apply Hd, elem_of_cons. by right.
Qed.

(** One new descriptor per endpoint, counting up. *)
Lemma bindings_descriptors f next endpoints :
  (bindings f next endpoints).1.2 = (next + Z.of_nat (length endpoints))%Z
  ∧ (bindings f next endpoints).2 = seqZ next (Z.of_nat (length endpoints)).
Proof.
  revert f next. induction endpoints as [|x rest IH]; intros f next.
  - simpl. split; [lia|done].
  - cbn [bindings length].
    set (f' := if String.eqb (protocol x) "local"
               then <[route x := "socket"%string]> f else f).
    destruct (IH f' (next + 1)%Z) as [H1 H2].
    destruct (bindings f' (next + 1)%Z rest) as [[f'' next'] fds].
    simpl in *. split; [lia|].
    rewrite seqZ_cons by lia. rewrite H2. do 2 f_equal; lia.
Qed.

(** *** [close] *)

Lemma pop_held p m slot d e :
  sets p = Mapping m → m !! slot = Some d →
  pop slot (AnEndpoint e) p
  = (match d with
     | [] => p
     | _ :: _ => set_slot_dict p slot (delitem d e)
     end, Returned (getitem d e)).
Proof.
  intros Hs Hd. unfold pop.
  rewrite (run_bind _ _ _ _ _ (slot_dict_found p m slot d Hs Hd)).
  by destruct d.
Qed.

Lemma close_each_held p m slot d endpoints :
  sets p = Mapping m → m !! slot = Some d →
  NoDup d.*1 → NoDup endpoints →
  ∃ p', close_each slot (AnEndpoint <$> endpoints) p = (p', Returned ())
    ∧ closed p' = closed p ++ omap (getitem d) endpoints
    ∧ sets p'
      = Mapping (<[slot := filter (λ kv, kv.1 ∉ endpoints) d]> m)
    ∧ descriptors p' = descriptors p ∧ fs p' = fs p ∧ users p' = users p.
Proof.
  intros Hs Hd Hdn Hn. revert p m d Hs Hd Hdn.
  induction endpoints as [|e rest IH]; intros p m d Hs Hd Hdn.
  - exists p. simpl. rewrite app_nil_r. repeat split; try done.
    rewrite Hs. f_equal. rewrite insert_id; [done|]. rewrite Hd. f_equal.
    clear. induction d as [|kv d IH]; [done|].
    rewrite filter_cons_True by apply not_elem_of_nil. by rewrite <- IH.
  - apply NoDup_cons in Hn as [He Hn]. cbn [fmap list_fmap close_each].
    rewrite (run_bind _ _ _ _ _ (pop_held p m slot d e Hs Hd)).
    destruct d as [|b sd] eqn:Ed.
    + simpl. destruct (IH Hn p m [] Hs Hd Hdn)
        as (p' & Hrun & H1 & H2 & H3 & H4 & H5).
      exists p'. unfold mbind, stateful_bind, mret, stateful_ret in *.
      simpl. rewrite Hrun. done.
    + rewrite <- Ed in *. clear Ed b sd.
      set (p1 := set_slot_dict p slot (delitem d e)).
      assert (sets p1 = Mapping (<[slot := delitem d e]> m)) as Hs1.
      { unfold p1, set_slot_dict. by rewrite Hs. }
      assert (closed p1 = closed p ∧ descriptors p1 = descriptors p
              ∧ fs p1 = fs p ∧ users p1 = users p) as (Hc1 & Hd1 & Hf1 & Hu1).
      { unfold p1, set_slot_dict. by rewrite Hs. }
      set (p2 := match getitem d e with
                 | Some n => os_close n p1
                 | None => p1
                 end).
      destruct (IH Hn p2 (<[slot := delitem d e]> m) (delitem d e))
        as (p' & Hrun & H1 & H2 & H3 & H4 & H5).
      { unfold p2. by destruct (getitem d e). }
      { apply lookup_insert_eq. }
      { by apply delitem_NoDup. }
      exists p'. split.
      { unfold mbind, stateful_bind, mret, stateful_ret, modify.
        fold p1. simpl. unfold p2 in Hrun.
        destruct (getitem d e); exact Hrun. }
      split.
      { rewrite H1. unfold p2. cbn [omap].
        assert (omap (getitem (delitem d e)) rest = omap (getitem d) rest)
          as ->.
        { clear -He. induction rest as [|x rest IH]; [done|].
          apply not_elem_of_cons in He as [Hne He]. specialize (IH He).
          cbn [omap list_omap]. rewrite getitem_delitem_ne by done.
          by rewrite IH. }
        destruct (getitem d e) as [n|] eqn:Hg;
          cbn [closed os_close omap list_omap]; rewrite Hg.
        - rewrite Hc1, <- app_assoc. done.
        - by rewrite Hc1. }
      split.
      { rewrite H2, insert_insert_eq, delitem_filter by done. done. }
      unfold p2 in *. destruct (getitem d e); simpl in *;
        repeat split; congruence.
Qed.

(** X14. [close] closes the descriptors of the endpoints the slot holds, in the
    order they are given, and drops them from the slot; an endpoint the
    slot does not hold is passed over, and the other endpoints of the slot
    stay open, in their order. *)
Theorem close_closes_the_endpoints_held p m slot d endpoints :
  sets p = Mapping m → m !! slot = Some d →
  NoDup d.*1 → NoDup endpoints →
  let '(p', r) := close slot (AnEndpoint <$> endpoints) p in
  r = Returned ()
  ∧ closed p' = closed p ++ omap (getitem d) endpoints
  ∧ sets p' = Mapping (<[slot := filter (λ kv, kv.1 ∉ endpoints) d]> m)
  ∧ descriptors p' = descriptors p ∧ fs p' = fs p.
Proof.
  intros Hs Hd Hdn Hn. unfold close.
  rewrite (run_bind _ _ _ _ _ (slot_dict_found p m slot d Hs Hd)).
  destruct (close_each_held p m slot d endpoints Hs Hd Hdn Hn)
    as (p' & Hrun & H1 & H2 & H3 & H4 & _).
  rewrite Hrun. done.
Qed.

Lemma close_closes_the_endpoints_held_witness :
  let '(p', r) := close "http" [AnEndpoint alt_port; AnEndpoint http_port]
                    serving in
  r = Returned () ∧ closed p' = [3%Z].
Proof.
  pose proof (close_closes_the_endpoints_held serving
    {[ "http"%string := [(http_port, 3%Z)] ]} "http" [(http_port, 3%Z)]
    [alt_port; http_port] eq_refl eq_refl) as H.
  cbn [fmap list_fmap] in H.
  destruct (close "http" [AnEndpoint alt_port; AnEndpoint http_port] serving)
    as [p' r].
  destruct H as (H1 & H2 & _).
  - apply NoDup_singleton.
  - apply NoDup_cons. split; [|apply NoDup_singleton].
    rewrite list_elem_of_singleton. discriminate.
  - split; [exact H1|exact H2].
Defined.

(** *** [bind] and files that are no sockets *)

Lemma void_sockets_refuses endpoints p x type :
  x ∈ endpoints → protocol x = "local"%string →
  entries (fs p) !! route x = Some type → type ≠ "socket"%string →
  ∃ p', void_sockets endpoints p
        = (p', Raised (Exception
                         "cannot overwrite file that is not a socket file"))
    ∧ sets p' = sets p ∧ descriptors p' = descriptors p
    ∧ closed p' = closed p
    ∧ entries (fs p') !! route x = Some type.
Proof.
  intros Hin Hlocal. revert p.
  induction endpoints as [|y rest IH]; intros p Hx Htype.
  { by apply elem_of_nil in Hin. }
  simpl. destruct (String.eqb_spec (protocol y) "local") as [Hy|Hy].
  - unfold mbind at 1, stateful_bind at 1, get at 1.
    destruct (entries (fs p) !! route y) as [t|] eqn:Ht.
    + destruct (String.eqb_spec t "socket") as [->|Hsock].
      * assert (route y ≠ route x) as Hne by congruence.
        assert (x ∈ rest) as Hrest.
        { apply elem_of_cons in Hin as [->|?]; [congruence|done]. }
        unfold mbind, stateful_bind, modify at 1.
        destruct (IH Hrest
          (with_fs {| entries := delete (route y) (entries (fs p));
                      content := content (fs p) |} p))
          as (p' & Hrun & H1 & H2 & H3 & H4).
        { simpl. by rewrite lookup_delete_ne. }
        { done. }
        exists p'. by rewrite Hrun.
      * exists p. repeat split; done.
    + assert (x ∈ rest) as Hrest.
      { apply elem_of_cons in Hin as [->|?]; [congruence|done]. }
      by apply IH.
  - assert (x ∈ rest) as Hrest.
    { apply elem_of_cons in Hin as [->|?]; [congruence|done]. }
    by apply IH.
Qed.

(** X15. [bind] refuses to replace a file that is no socket before it binds
    anything: when one of the local endpoints names such a file, [bind]
    raises, no descriptor has been allocated, the slot holds what it held
    (a slot that did not exist holds nothing) and the file is still
    there, whatever the position of the endpoint among the others. *)
Theorem bind_refuses_file_that_is_no_socket p m slot endpoints x type :
  sets p = Mapping m →
  x ∈ endpoints → protocol x = "local"%string →
  entries (fs p) !! route x = Some type → type ≠ "socket"%string →
  let '(p', r) := bind slot endpoints p in
  r = Raised (Exception "cannot overwrite file that is not a socket file")
  ∧ descriptors p' = descriptors p
  ∧ closed p' = closed p
  ∧ sets p' = Mapping (<[slot := default [] (m !! slot)]> m)
  ∧ entries (fs p') !! route x = Some type.
Proof.
  intros Hs Hin Hlocal Hx Htype. unfold bind.
  rewrite (run_bind _ _ _ _ _ (slot_dict_default p m slot Hs)).
  destruct (void_sockets_refuses endpoints
              (with_sets (Mapping (<[slot := default [] (m !! slot)]> m)) p)
              x type Hin Hlocal Hx Htype) as (p' & Hrun & H1 & H2 & H3 & H4).
  rewrite (run_bind_raised _ _ _ _ _ Hrun). done.
Qed.

Lemma bind_refuses_file_that_is_no_socket_witness :
  let p := create {| entries := {[ "/run/s"%string := "file"%string ]};
                     content := ∅ |} 3 in
  (bind "http" [http_port; Local "/run" "s"] p).2
  = Raised (Exception "cannot overwrite file that is not a socket file")
  ∧ descriptors (bind "http" [http_port; Local "/run" "s"] p).1 = 3%Z.
Proof.
  intros p.
  pose proof (bind_refuses_file_that_is_no_socket p ∅ "http"
    [http_port; Local "/run" "s"] (Local "/run" "s") "file" eq_refl) as H.
  destruct (bind "http" [http_port; Local "/run" "s"] p) as [p' r].
  destruct H as (H1 & H2 & _); [| done | done | done |by split].
  apply elem_of_cons. right. apply elem_of_cons. by left.
Defined.

(** *** [bind] followed by [discard] *)

Lemma void_sockets_passes endpoints p :
  (∀ x type, x ∈ endpoints → protocol x = "local"%string →
     entries (fs p) !! route x = Some type → type = "socket"%string) →
  ∃ p', void_sockets endpoints p = (p', Returned ())
    ∧ sets p' = sets p ∧ descriptors p' = descriptors p
    ∧ closed p' = closed p.
Proof.
  revert p. induction endpoints as [|y rest IH]; intros p Hsock.
  { by exists p. }
  assert (∀ x type, x ∈ rest → protocol x = "local"%string →
            entries (fs p) !! route x = Some type → type = "socket"%string)
    as Hrest.
  { intros x type Hx. apply Hsock, elem_of_cons. by right. }
  simpl. destruct (String.eqb_spec (protocol y) "local") as [Hy|Hy].
  - unfold mbind at 1, stateful_bind at 1, get at 1.
    destruct (entries (fs p) !! route y) as [t|] eqn:Ht.
    + rewrite (Hsock y t) by (done || apply elem_of_cons; by left).
      simpl. unfold mbind, stateful_bind, modify at 1.
      destruct (IH
        (with_fs {| entries := delete (route y) (entries (fs p));
                    content := content (fs p) |} p))
        as (p' & Hrun & H1 & H2 & H3).
      { intros x type Hx Hl. simpl. intros Hlook.
        apply lookup_delete_Some in Hlook as [_ Hlook]. by eapply Hrest. }
      exists p'. by rewrite Hrun.
    + by apply IH.
  - by apply IH.
Qed.

Lemma close_all_closed (d : list (endpoint * Z)) p :
  let p' := foldl (λ p '(_, fd), os_close fd p) p d in
  closed p' = closed p ++ d.*2 ∧ sets p' = sets p
  ∧ descriptors p' = descriptors p.
Proof.
  revert p. induction d as [|[k fd] d IH]; intros p; simpl.
  - by rewrite app_nil_r.
  - destruct (IH (os_close fd p)) as (H1 & H2 & H3).
    rewrite H1, H2, H3. simpl. by rewrite <- app_assoc.
Qed.

(** X16. [discard] after [bind] closes every descriptor of the slot: those it
    held before, in their order, and then one per endpoint just bound, in
    the order [context.bindings] returned them; the slot is gone
    afterwards.  The endpoints are distinct and new to the slot, and no
    file that is not a socket is in the way of a local one. *)
Theorem discard_closes_all_that_was_bound p m slot endpoints :
  sets p = Mapping m → NoDup endpoints →
  (∀ x, x ∈ endpoints → x ∉ (default [] (m !! slot)).*1) →
  (∀ x type, x ∈ endpoints → protocol x = "local"%string →
     entries (fs p) !! route x = Some type → type = "socket"%string) →
  let '(p', r) := (bind slot endpoints;; discard slot) p in
  r = Returned ()
  ∧ sets p' = Mapping (delete slot m)
  ∧ closed p'
    = closed p ++ (default [] (m !! slot)).*2
      ++ seqZ (descriptors p) (Z.of_nat (length endpoints))
  ∧ descriptors p' = (descriptors p + Z.of_nat (length endpoints))%Z.
Proof.
  intros Hs Hn Hnew Hsock.
  set (d0 := default [] (m !! slot)) in *.
  set (p0 := with_sets (Mapping (<[slot := d0]> m)) p).
  destruct (void_sockets_passes endpoints p0 Hsock)
    as (p1 & Hvoid & Hs1 & Hd1 & Hc1).
  pose proof (bindings_descriptors (entries (fs p1)) (descriptors p1)
                endpoints) as [Hnext Hfds].
  destruct (bindings (entries (fs p1)) (descriptors p1) endpoints)
    as [[f' next] fds] eqn:Hb.
  simpl in Hnext, Hfds.
  assert (length fds = length endpoints) as Hlen.
  { rewrite Hfds, length_seqZ. lia. }
  set (p2 := {| sets := sets p1; users := users p1;
                fs := {| entries := f'; content := content (fs p1) |};
                descriptors := next; closed := closed p1 |}).
  set (d1 := d0 ++ zip endpoints fds).
  set (p3 := set_slot_dict p2 slot d1).
  assert (bind slot endpoints p = (p3, Returned ())) as Hbind.
  { unfold bind.
    rewrite (run_bind _ _ _ _ _ (slot_dict_default p m slot Hs)).
    fold d0 p0. rewrite (run_bind _ _ _ _ _ Hvoid).
    unfold mbind at 1, stateful_bind at 1, get at 1. rewrite Hb.
    unfold mbind, stateful_bind, modify. fold p2.
    rewrite setitem_zip_fresh by done. done. }
  assert (sets p3 = Mapping (<[slot := d1]> (<[slot := d0]> m))) as Hs3.
  { unfold p3, set_slot_dict, p2. simpl. by rewrite Hs1. }
  assert (closed p3 = closed p ∧ descriptors p3 = next) as [Hc3 Hd3].
  { unfold p3, set_slot_dict, p2. simpl. by rewrite Hs1, Hc1. }
  unfold mbind at 1, stateful_bind at 1. rewrite Hbind. unfold discard.
  rewrite (run_bind _ _ _ _ _
             (slot_dict_found p3 _ slot d1 Hs3 (lookup_insert_eq _ _ _))).
  unfold mbind, stateful_bind, modify.
  destruct (close_all_closed d1 p3) as (H1 & H2 & H3). cbn zeta in *.
  set (p4 := foldl (λ p '(_, fd), os_close fd p) p3 d1) in *.
  split; [done|]. unfold del_slot. rewrite H2, Hs3. simpl.
  split; [|split].
  - by rewrite insert_insert_eq, !delete_insert_eq.
  - rewrite H1, Hc3. unfold d1. rewrite fmap_app, snd_zip by lia.
    rewrite Hfds, Hd1. done.
  - rewrite H3, Hd3, Hnext, Hd1. done.
Qed.

Lemma discard_closes_all_that_was_bound_witness :
  let '(p', r) :=
    (bind "http" [alt_port; Local "/run" "s"];; discard "http") serving in
  r = Returned () ∧ closed p' = [3; 4; 5]%Z ∧ sets p' = Mapping ∅.
Proof.
  pose proof (discard_closes_all_that_was_bound serving
    {[ "http"%string := [(http_port, 3%Z)] ]} "http"
    [alt_port; Local "/run" "s"] eq_refl) as H.
  destruct ((bind "http" [alt_port; Local "/run" "s"];; discard "http")
              serving) as [p' r].
  destruct H as (H1 & H2 & H3 & _).
  - apply NoDup_cons. split; [|apply NoDup_singleton].
    rewrite list_elem_of_singleton. discriminate.
  - intros x Hx. change (x ∉ [http_port]).
    rewrite list_elem_of_singleton. intros ->.
    apply elem_of_cons in Hx as [Hx|Hx]; [discriminate|].
    apply list_elem_of_singleton in Hx. discriminate.
  - intros x type _ _ Hlook. vm_compute in Hlook. discriminate.
  - split; [exact H1|]. split; [exact H3|]. rewrite H2. reflexivity.
Defined.

(** *** [replace] *)

Lemma void_sockets_sets endpoints p :
  sets (void_sockets endpoints p).1 = sets p.
Proof.
  revert p. induction endpoints as [|x rest IH]; intros p; simpl; [done|].
  destruct (String.eqb (protocol x) "local"); [|apply IH].
  unfold mbind at 1, stateful_bind at 1, get at 1.
  destruct (entries (fs p) !! route x) as [type|]; [|apply IH].
  destruct (String.eqb type "socket"); [|done].
  unfold mbind, stateful_bind, modify. simpl.
  match goal with
  | |- context [void_sockets rest ?q] =>
    specialize (IH q); destruct (void_sockets rest q) as [p' [[]| |]]
  end; done.
Qed.

Lemma setitem_not_empty d ep fd : setitem d ep fd ≠ [].
Proof. destruct d as [|[k v] d]; simpl; [done|]. by destruct (decide (k = ep)). Qed.

Lemma setitem_all_not_empty (d : list (endpoint * Z)) kvs :
  foldl (λ d '(ep, fd), setitem d ep fd) d kvs = [] → d = [] ∧ kvs = [].
Proof.
  revert d. induction kvs as [|[ep fd] kvs IH]; intros d; simpl; [done|].
  intros H. apply IH in H as [H _]. by apply setitem_not_empty in H.
Qed.

Lemma to_set_empty endpoints : to_set endpoints = [] → endpoints = [].
Proof.
  induction endpoints as [|x rest IH]; simpl; [done|].
  destruct (decide (x ∈ rest)) as [Hin|]; [|done].
  intros H. apply IH in H. subst rest. by apply elem_of_nil in Hin.
Qed.

(** The slot after a [bind] that returns. *)
Lemma bind_returns slot endpoints p m d p' :
  sets p = Mapping m → m !! slot = Some d →
  bind slot endpoints p = (p', Returned ()) →
  ∃ fds, length fds = length endpoints
    ∧ sets p'
      = Mapping (<[slot := foldl (λ d '(ep, fd), setitem d ep fd) d
                             (zip endpoints fds)]> m).
Proof.
  intros Hs Hd. unfold bind.
  rewrite (run_bind _ _ _ _ _ (slot_dict_found p m slot d Hs Hd)).
  pose proof (void_sockets_sets endpoints p) as Hv.
  unfold mbind at 1, stateful_bind at 1.
  destruct (void_sockets endpoints p) as [p1 [[]|e|]]; [|done..].
  simpl in Hv. rewrite run_get.
  pose proof (bindings_descriptors (entries (fs p1)) (descriptors p1)
                endpoints) as [_ Hfds].
  destruct (bindings (entries (fs p1)) (descriptors p1) endpoints)
    as [[f' next] fds].
  simpl in Hfds. rewrite !run_modify. unfold modify, mret, stateful_ret.
  intros [= <-]. exists fds. split.
  - rewrite Hfds, length_seqZ. lia.
  - unfold set_slot_dict. simpl. by rewrite Hv, Hs.
Qed.

Lemma slot_dict_str p slot str :
  sets p = Str str → slot_dict slot p = (p, Raised TypeError).
Proof. intros Hs. unfold slot_dict. by rewrite run_get, Hs. Qed.

Lemma difference_nothing (l : list endpoint) : difference l [] = l.
Proof.
  unfold difference. induction l as [|x l IH]; [done|].
  rewrite filter_cons_True by apply not_elem_of_nil. by rewrite IH.
Qed.

(** X17. [replace] returns only when there was nothing to replace: it hands
    [close] a set object, which [close] can pop only from an empty slot,
    so whenever [replace] returns, no endpoint was asked for, the slot was
    empty and the set returned is empty; and, returning or raising, it
    has closed no descriptor. *)
Theorem replace_returns_only_when_idle slot endpoints p removed :
  (replace slot endpoints p).2 = Returned removed →
  endpoints = [] ∧ removed = []
  ∧ (∃ m, sets p = Mapping m ∧ default [] (m !! slot) = [])
  ∧ closed (replace slot endpoints p).1 = closed p.
Proof.
  intros Hret.
  cut (endpoints = [] ∧ removed = []
       ∧ ∃ m, sets p = Mapping m ∧ default [] (m !! slot) = []).
  { intros (? & ? & ?). repeat split; try done.
    apply replace_closes_nothing. }
  revert Hret. unfold replace.
  destruct (sets p) as [m|str] eqn:Hs.
  2:{ by rewrite (run_bind_raised _ _ _ _ _ (slot_dict_str p slot str Hs)). }
  rewrite (run_bind _ _ _ _ _ (slot_dict_default p m slot Hs)).
  set (d := default [] (m !! slot)).
  set (p0 := with_sets (Mapping (<[slot := d]> m)) p).
  set (delta := difference (to_set endpoints) d.*1).
  unfold mbind at 1, stateful_bind at 1.
  destruct (bind slot delta p0) as [p1 [[]|e|]] eqn:Hbind; [|done..].
  destruct (bind_returns slot delta p0 (<[slot := d]> m) d p1 eq_refl
              (lookup_insert_eq _ _ _) Hbind) as (fds & Hlen & Hs1).
  rewrite insert_insert_eq in Hs1.
  set (d1 := foldl (λ d '(ep, fd), setitem d ep fd) d (zip delta fds)) in Hs1.
  assert (d1 = [] → endpoints = [] ∧ d = []) as Hidle.
  { intros Hd1. apply setitem_all_not_empty in Hd1 as [Hd Hz].
    split; [|done].
    assert (delta = []) as Hdelta
      by (destruct delta; [done|]; by destruct fds).
    unfold delta in Hdelta. rewrite Hd in Hdelta. simpl in Hdelta.
    rewrite difference_nothing in Hdelta. by apply to_set_empty. }
  assert (pop slot (ASet (difference (update d.*1 delta) (to_set endpoints)))
            p1
          = (p1, match d1 with
                 | [] => Returned None
                 | _ :: _ => Raised TypeError
                 end)) as Hpop.
  { unfold pop.
    rewrite (run_bind _ _ _ _ _
               (slot_dict_found p1 _ slot d1 Hs1 (lookup_insert_eq _ _ _))).
    by destruct d1. }
  assert (close slot
            [ASet (difference (update d.*1 delta) (to_set endpoints))] p1
          = (p1, match d1 with
                 | [] => Returned ()
                 | _ :: _ => Raised TypeError
                 end)) as Hclose.
  { unfold close.
    rewrite (run_bind _ _ _ _ _
               (slot_dict_found p1 _ slot d1 Hs1 (lookup_insert_eq _ _ _))).
    cbn [close_each]. unfold mbind at 1, stateful_bind at 1.
    rewrite Hpop. by destruct d1. }
  unfold mbind at 1, stateful_bind at 1. rewrite Hclose.
  destruct d1 as [|b d1']; [|done].
  destruct (Hidle eq_refl) as [-> Hd]. simpl.
  intros [= <-]. split; [done|]. split.
  - unfold delta. simpl. fold d. by rewrite Hd.
  - by exists m.
Qed.

Lemma replace_returns_only_when_idle_witness :
  (replace "http" [] (create {| entries := ∅; content := ∅ |} 3)).2
  = Returned []
  ∧ closed (replace "http" [] (create {| entries := ∅; content := ∅ |} 3)).1
    = [].
Proof.
  assert ((replace "http" [] (create {| entries := ∅; content := ∅ |} 3)).2
          = Returned []) as Hrun by (by vm_compute).
  split; [exact Hrun|].
  by destruct (replace_returns_only_when_idle _ _ _ _ Hrun) as (_ & _ & _ & ->).
Defined.

End PortsDeviceFacts.

(** ** Growth of the address space *)

Section UnitRunsFacts.
Import UnitRuns.

Lemma entry_app_found d more x q :
  entry d x = Some q → entry (d ++ more) x = Some q.
Proof.
  induction d as [|[k v] d IH]; simpl; [done|].
  by destruct (String.eqb k x).
Qed.

Lemma entry_app_missing d more x :
  entry d x = None → entry (d ++ more) x = entry more x.
Proof.
  induction d as [|[k v] d IH]; simpl; [done|].
  by destruct (String.eqb k x).
Qed.

Lemma entry_names d x : entry d x = None ↔ x ∉ d.*1.
Proof.
  induction d as [|[k v] d IH]; simpl.
  - split; [intros _; apply not_elem_of_nil|done].
  - rewrite not_elem_of_cons, <- IH.
    destruct (String.eqb_spec k x) as [->|Hne].
    + split; [done|]. by intros [? _].
    + split; [by intros ?; split; [congruence|]|by intros [_ ?]].
Qed.

(** One new name in the directory [p]. *)
Lemma allocated_insert ds root next p x :
  allocated ds root next → p < next → entry (dir ds p) x = None →
  allocated (<[next := []]> (<[p := dir ds p ++ [(x, next)]]> ds))
    root (S next).
Proof.
  intros (Hroot & Hfree & Htarget) Hp Hx. split; [lia|]. split.
  - intros k Hk. rewrite !lookup_insert_ne by lia. apply Hfree. lia.
  - intros p' x' q. unfold dir.
    destruct (decide (p' = next)) as [->|Hn].
    { by rewrite lookup_insert_eq. }
    rewrite lookup_insert_ne by done.
    destruct (decide (p' = p)) as [->|Hp'].
    + rewrite lookup_insert_eq. simpl. fold (dir ds p).
      destruct (entry (dir ds p) x') as [r|] eqn:Hr.
      * rewrite (entry_app_found _ _ _ _ Hr). intros [= <-].
        apply Htarget in Hr. lia.
      * rewrite (entry_app_missing _ _ _ Hr). simpl.
        destruct (String.eqb x x'); [|done]. intros [= <-]. lia.
    + rewrite lookup_insert_ne by done. intros Hq.
      apply Htarget in Hq. lia.
Qed.

(** The directories after the loop of [place] are those before it, each
    with names added at its end, and the identities stay in order. *)
Lemma build_out_grows destination ds root next p :
  allocated ds root next → p < next →
  let '(ds', next') := build_out ds next p destination in
  allocated ds' root next' ∧ next ≤ next'
  ∧ ∀ q, ∃ more, dir ds' q = dir ds q ++ more.
Proof.
  revert ds next p.
  induction destination as [|x rest IH]; intros ds next p Ha Hp; simpl.
  - split; [done|]. split; [done|]. intros q. exists []. by rewrite app_nil_r.
  - fold (dir ds p). destruct (entry (dir ds p) x) as [q|] eqn:Hx.
    + apply IH; [done|]. destruct Ha as (_ & _ & Htarget).
      by apply (Htarget p x q).
    + pose proof (allocated_insert ds root next p x Ha Hp Hx) as Ha'.
      specialize (IH _ (S next) p Ha' ltac:(lia)).
      destruct (build_out _ (S next) p rest) as [ds' next'].
      destruct IH as (H1 & H2 & H3). split; [done|]. split; [lia|].
      intros q. destruct (H3 q) as [more Hmore]. rewrite Hmore.
      unfold dir at 1. destruct (decide (q = next)) as [->|Hn].
      * rewrite lookup_insert_eq. simpl. exists more.
        destruct Ha as (_ & Hfree & _). unfold dir.
        by rewrite Hfree.
      * rewrite lookup_insert_ne by done.
        destruct (decide (q = p)) as [->|Hq].
        -- rewrite lookup_insert_eq. simpl.
           exists ([(x, next)] ++ more). by rewrite app_assoc.
        -- rewrite lookup_insert_ne by done. by exists more.
Qed.

(** What a step keeps and adds. *)
Lemma step_grows u o :
  allocated (dicts u) (u_hierarchy u) (fresh u) →
  allocated (dicts (step u o)) (u_hierarchy (step u o)) (fresh (step u o))
  ∧ u_hierarchy (step u o) = u_hierarchy u
  ∧ ∀ q, ∃ more, dir (dicts (step u o)) q = dir (dicts u) q ++ more.
Proof.
  intros Ha.
  assert (∀ q, ∃ more : directory, dir (dicts u) q = dir (dicts u) q ++ more)
    as Hsame by (intros q; exists []; by rewrite app_nil_r).
  destruct o as [obj destination|address]; simpl.
  - unfold place.
    pose proof (build_out_grows destination (dicts u) (u_hierarchy u)
                  (fresh u) (u_hierarchy u) Ha) as Hb.
    destruct (build_out (dicts u) (fresh u) (u_hierarchy u) destination)
      as [ds' next'].
    destruct destination as [|x rest]; simpl; [done|].
    destruct Hb as (H1 & H2 & H3); [by destruct Ha|]. done.
  - unfold delete. destruct (u_index u !! address) as [obj|]; [|done].
    by destruct (u_reverse_index u !! obj).
Qed.

Lemma run_grows ops u :
  allocated (dicts u) (u_hierarchy u) (fresh u) →
  allocated (dicts (run u ops)) (u_hierarchy (run u ops)) (fresh (run u ops))
  ∧ u_hierarchy (run u ops) = u_hierarchy u
  ∧ ∀ q, ∃ more, dir (dicts (run u ops)) q = dir (dicts u) q ++ more.
Proof.
  revert u. induction ops as [|o ops IH]; intros u Ha.
  - split; [done|]. split; [done|]. intros q. exists [].
    by rewrite app_nil_r.
  - destruct (step_grows u o Ha) as (H1 & H2 & H3).
    destruct (IH (step u o) H1) as (H4 & H5 & H6).
    change (run u (o :: ops)) with (run (step u o) ops).
    split; [done|]. split; [by rewrite <- H2|].
    intros q. destruct (H3 q) as [m1 Hm1]. destruct (H6 q) as [m2 Hm2].
    exists (m1 ++ m2). rewrite Hm2, Hm1. by rewrite app_assoc.
Qed.

Lemma walk_cons ds p x rest :
  walk ds p (x :: rest)
  = match entry (dir ds p) x with
    | Some q => walk ds q rest
    | None => None
    end.
Proof. done. Qed.

(** A walk that succeeds goes the same way through directories that have
    grown. *)
Lemma walk_grows ds ds' address p names :
  (∀ q, ∃ more, dir ds' q = dir ds q ++ more) →
  walk ds p address = Some names →
  ∃ more, walk ds' p address = Some (names ++ more).
Proof.
  intros Hg. revert p. induction address as [|x rest IH]; intros p; simpl.
  - intros [= <-]. destruct (Hg p) as [more Hmore]. exists (more.*1).
    fold (dir ds' p) (dir ds p). by rewrite Hmore, fmap_app.
  - fold (dir ds' p) (dir ds p). destruct (Hg p) as [more Hmore].
    destruct (entry (dir ds p) x) as [q|] eqn:Hx; [|done].
    rewrite Hmore, (entry_app_found _ _ _ _ Hx). apply IH.
Qed.

(** X18. The address space only grows: through any sequence of [place] and
    [delete] calls, whether they return or raise, what [listdir] listed
    for an address stays listed, in the same order, with the later names
    after it; no address that had a listing loses it. *)
Theorem hierarchy_only_grows u ops address names :
  allocated (dicts u) (u_hierarchy u) (fresh u) →
  listdir u address = Some names →
  ∃ more, listdir (run u ops) address = Some (names ++ more).
Proof.
  intros Ha Hl. destruct (run_grows ops u Ha) as (_ & Hroot & Hg).
  unfold listdir in *. rewrite Hroot. by apply (walk_grows (dicts u)).
Qed.

Lemma create_allocated :
  allocated (dicts create) (u_hierarchy create) (fresh create).
Proof.
  split; [simpl; lia|]. split.
  - intros k Hk. simpl in *. rewrite !lookup_insert_ne by lia. done.
  - intros p x q. unfold dir.
    do 7 (destruct p as [|p];
          [vm_compute (default _ _); cbn [entry];
           repeat (destruct (String.eqb _ x); [intros [= <-]; simpl; lia|]);
           done|]).
    simpl. rewrite !lookup_insert_ne by lia. done.
Qed.

Lemma hierarchy_only_grows_witness :
  let u := run create [Place (Some 40) ["bin"; "worker"]]%string in
  let ops := [Delete ["bin"; "worker"]; Place (Some 41) ["bin"; "agent"];
              Place (Some 42) ["srv"; "agent"]]%string in
  listdir u ["bin"%string] = Some ["worker"%string]
  ∧ (∃ more, listdir (run u ops) ["bin"%string]
             = Some (["worker"%string] ++ more))
  ∧ ∃ more, listdir (run u ops) []
            = Some (["bin"; "lib"; "libexec"; "etc"; "dev"; "faults"]%string
                    ++ more).
Proof.
  intros u ops.
  assert (allocated (dicts u) (u_hierarchy u) (fresh u)) as Ha.
  { apply (run_grows _ create create_allocated). }
  split; [reflexivity|]. split.
  - exact (hierarchy_only_grows u ops ["bin"%string] ["worker"%string] Ha
             eq_refl).
  - exact (hierarchy_only_grows u ops [] _ Ha eq_refl).
Defined.

(** X19. [faults] and [dev/faults] are one directory: whatever is placed and
    deleted in a new unit, the two addresses list the same names. *)
Theorem faults_listed_under_dev ops :
  listdir (run create ops) ["faults"%string]
  = listdir (run create ops) ["dev"%string; "faults"%string].
Proof.
  destruct (run_grows ops create create_allocated) as (_ & Hroot & Hg).
  unfold listdir. rewrite Hroot. change (u_hierarchy create) with 0.
  destruct (Hg 0) as [m0 H0]. destruct (Hg 6) as [m6 H6].
  rewrite !walk_cons, H0.
  rewrite (entry_app_found _ m0 "faults" 1) by done.
  rewrite (entry_app_found _ m0 "dev" 6) by done.
  rewrite walk_cons, H6.
  by rewrite (entry_app_found _ m6 "faults" 1).
Qed.

(** *** Placing under names that do not exist *)

Lemma entry_zip (names : list string) (ids : list nat) x :
  x ∈ names → length ids = length names →
  ∃ q, entry (zip names ids) x = Some q ∧ q ∈ ids.
Proof.
  revert ids. induction names as [|y names IH]; intros ids Hx Hl.
  { by apply elem_of_nil in Hx. }
  destruct ids as [|i ids]; [done|]. simpl.
  destruct (String.eqb_spec y x) as [->|Hne].
  - exists i. split; [done|]. by apply elem_of_cons; left.
  - apply elem_of_cons in Hx as [->|Hx]; [done|].
    destruct (IH ids Hx) as (q & Hq & Hin); [simpl in Hl; lia|].
    exists q. split; [done|]. by apply elem_of_cons; right.
Qed.

Lemma build_out_flat rest ds root next p :
  allocated ds root next → p < next → NoDup rest →
  (∀ x, x ∈ rest → entry (dir ds p) x = None) →
  let '(ds', next') := build_out ds next p rest in
  next' = next + length rest
  ∧ dir ds' p = dir ds p ++ zip rest (seq next (length rest))
  ∧ ∀ q, q ≠ p → dir ds' q = dir ds q.
Proof.
  revert ds next. induction rest as [|x rest IH]; intros ds next Ha Hp Hn Hnew.
  - simpl. split; [lia|]. split; [by rewrite app_nil_r|done].
  - apply NoDup_cons in Hn as [Hx Hn]. simpl. fold (dir ds p).
    assert (entry (dir ds p) x = None) as Hex
      by (apply Hnew, elem_of_cons; by left).
    rewrite Hex.
    set (ds1 := <[next := []]> (<[p := dir ds p ++ [(x, next)]]> ds)).
    assert (dir ds1 p = dir ds p ++ [(x, next)]) as Hp1.
    { unfold dir at 1, ds1. rewrite lookup_insert_ne by lia.
      by rewrite lookup_insert_eq. }
    assert (∀ q, q ≠ p → dir ds1 q = dir ds q) as Hq1.
    { intros q Hq. unfold dir, ds1.
      destruct (decide (q = next)) as [->|Hqn].
      - rewrite lookup_insert_eq. destruct Ha as (_ & Hfree & _).
        by rewrite Hfree.
      - by rewrite !lookup_insert_ne. }
    specialize (IH ds1 (S next)
                  (allocated_insert ds root next p x Ha Hp Hex)
                  ltac:(lia) Hn).
    destruct (build_out ds1 (S next) p rest) as [ds' next'].
    destruct IH as (H1 & H2 & H3).
    { intros y Hy. rewrite Hp1.
      rewrite entry_app_missing
        by (apply Hnew, elem_of_cons; by right).
      simpl. destruct (String.eqb_spec x y) as [->|]; done. }
    split; [lia|]. split.
    + rewrite H2, Hp1, <- app_assoc. done.
    + intros q Hq. rewrite H3 by done. by apply Hq1.
Qed.

(** X20. [place] under names none of which exists in the root does not nest
    them: every name of the destination becomes an empty directory of the
    root itself, in order, so a destination of two or more such names has
    no listing afterwards although the object is indexed under it. *)
Theorem place_of_new_names_is_flat u obj destination names :
  allocated (dicts u) (u_hierarchy u) (fresh u) →
  destination ≠ [] → NoDup destination →
  listdir u [] = Some names →
  (∀ x, x ∈ destination → x ∉ names) →
  ∃ u', place u obj destination = Ok u'
    ∧ u_index u' !! destination = Some obj
    ∧ listdir u' [] = Some (names ++ destination)
    ∧ (∀ x, x ∈ destination → listdir u' [x] = Some [])
    ∧ (1 < length destination → listdir u' destination = None).
Proof.
  intros Ha Hne Hn Hl Hnew. unfold listdir in Hl. simpl in Hl.
  fold (dir (dicts u) (u_hierarchy u)) in Hl. injection Hl as <-.
  assert (u_hierarchy u < fresh u) as Hroot by (by destruct Ha).
  pose proof (build_out_flat destination (dicts u) (u_hierarchy u) (fresh u)
                (u_hierarchy u) Ha Hroot Hn) as Hb.
  unfold place.
  destruct (build_out (dicts u) (fresh u) (u_hierarchy u) destination)
    as [ds' next'].
  destruct Hb as (H1 & H2 & H3).
  { intros x Hx. apply entry_names. by apply Hnew. }
  destruct destination as [|x rest] eqn:Ed; [done|]. rewrite <- Ed in *.
  eexists. split; [done|]. unfold listdir. simpl.
  split; [apply lookup_insert_eq|].
  assert (∀ y, y ∈ destination →
            ∃ q, entry (dir ds' (u_hierarchy u)) y = Some q
                 ∧ dir ds' q = []) as Hsub.
  { intros y Hy. rewrite H2.
    rewrite entry_app_missing by (apply entry_names; by apply Hnew).
    destruct (entry_zip destination (seq (fresh u) (length destination)) y Hy)
      as (q & Hq & Hin); [by rewrite length_seq|].
    exists q. split; [done|]. apply elem_of_seq in Hin.
    rewrite H3 by lia. destruct Ha as (_ & Hfree & _).
    unfold dir. rewrite Hfree by lia. done. }
  split; [|split].
  - fold (dir ds' (u_hierarchy u)). rewrite H2, fmap_app, fst_zip; [done|].
    by rewrite length_seq.
  - intros y Hy. fold (dir ds' (u_hierarchy u)).
    destruct (Hsub y Hy) as (q & -> & Hq). fold (dir ds' q).
    by rewrite Hq.
  - intros Hlen. rewrite Ed in Hlen |- *.
    destruct rest as [|y rest']; [simpl in Hlen; lia|].
    cbn [walk]. fold (dir ds' (u_hierarchy u)).
    destruct (Hsub x) as (q & -> & Hq).
    { rewrite Ed. by apply elem_of_cons; left. }
    fold (dir ds' q). by rewrite Hq.
Qed.

Lemma place_of_new_names_is_flat_witness :
  ∃ u', place create (Some 40) ["srv"; "www"]%string = Ok u'
    ∧ listdir u' ["srv"%string] = Some []
    ∧ listdir u' ["www"%string] = Some []
    ∧ listdir u' ["srv"; "www"]%string = None.
Proof.
  destruct (place_of_new_names_is_flat create (Some 40) ["srv"; "www"]%string
              ["bin"; "lib"; "libexec"; "etc"; "dev"; "faults"]%string
              create_allocated) as (u' & H1 & _ & _ & H3 & H4).
  - done.
  - apply NoDup_cons. split; [|apply NoDup_singleton].
    rewrite list_elem_of_singleton. discriminate.
  - reflexivity.
  - intros x Hx Hin.
    apply elem_of_cons in Hx as [->|Hx];
      [|apply list_elem_of_singleton in Hx as ->];
      repeat (apply elem_of_cons in Hin as [Hin|Hin]; [discriminate|]);
      by apply elem_of_nil in Hin.
  - exists u'. split; [exact H1|]. split; [|split].
    + apply H3, elem_of_cons. by left.
    + apply H3, elem_of_cons. right. by apply elem_of_cons; left.
    + apply H4. simpl. lia.
Defined.

(** *** Placing and deleting *)

(** X21. [delete] undoes the indexing of [place], except under [faults]: an
    object placed at an address that was free, and that was not placed
    anywhere else, is indexed; deleting the address restores both indexes;
    but an object placed under [faults] was not entered in the reverse
    index, so deleting its address raises [KeyError]. *)
Theorem place_then_delete u obj x rest :
  u_index u !! (x :: rest) = None →
  u_reverse_index u !! obj = None →
  ∃ u1, place u obj (x :: rest) = Ok u1
    ∧ u_index u1 !! (x :: rest) = Some obj
    ∧ if String.eqb x "faults"
      then delete u1 (x :: rest) = Raise KeyError
      else ∃ u2, delete u1 (x :: rest) = Ok u2
             ∧ u_index u2 = u_index u
             ∧ u_reverse_index u2 = u_reverse_index u.
Proof.
  intros Hi Hr. unfold place.
  destruct (build_out (dicts u) (fresh u) (u_hierarchy u) (x :: rest))
    as [ds next].
  eexists. split; [done|]. simpl. rewrite lookup_insert_eq. split; [done|].
  unfold delete. simpl. rewrite lookup_insert_eq.
  destruct (String.eqb x "faults").
  - by rewrite Hr.
  - rewrite lookup_insert_eq. eexists. split; [done|]. simpl.
    by rewrite !delete_insert_id.
Qed.

Lemma place_then_delete_witness :
  (∃ u1, place create (Some 40) ["faults"; "0x28"]%string = Ok u1
     ∧ delete u1 ["faults"; "0x28"]%string = Raise KeyError)
  ∧ (∃ u1 u2, place create (Some 40) ["bin"; "worker"]%string = Ok u1
       ∧ delete u1 ["bin"; "worker"]%string = Ok u2
       ∧ u_index u2 = u_index create).
Proof.
  split.
  - destruct (place_then_delete create (Some 40) "faults" ["0x28"%string]
                eq_refl eq_refl) as (u1 & H1 & _ & H2).
    exists u1. split; [exact H1|exact H2].
  - destruct (place_then_delete create (Some 40) "bin" ["worker"%string]
                eq_refl eq_refl) as (u1 & H1 & _ & H2).
    simpl in H2. destruct H2 as (u2 & H2 & H3 & _).
    exists u1, u2. split; [exact H1|]. split; [exact H2|exact H3].
Defined.

End UnitRunsFacts.

(** ** Unwinding the transport stack *)

Section TransportsUnwinding.
Import Transports.
Context {L E : Type}.
Variable layer_terminated : L → bool.

(** One round of the loop that pops terminated layers, on a pair whose
    sides are as [Transports.create] made them: the layer leaves the
    stack, the end of the input operations and the start of the output
    operations, and the downstream of the input side is terminated and
    disconnected, whichever side runs the loop. *)
Lemma pop_terminated_top pol (p : @pair L E) o below l :
  pol = 1%Z ∨ pol = (-1)%Z →
  tf_polarity (input p) = 1%Z → tf_polarity (output p) = (-1)%Z →
  layers p !! o = Some l → layer_terminated l = true →
  pop_terminated layer_terminated pol (o :: below) p
  = match f_downstream (input p) with
    | None => Raise AttributeError
    | Some d =>
      pop_terminated layer_terminated pol below
        {| layers := layers p;
           tf_stack := reverse below;
           input := f_disconnect
                      (with_operations (del_last (tf_operations (input p)))
                         (input p));
           output := with_operations (del_first (tf_operations (output p)))
                       (output p);
           effects := effects p ++ [Terminate d] |}
    end.
Proof.
  intros Hpol Hi Ho Hl Ht. cbn [pop_terminated]. rewrite Hl, Ht.
  destruct Hpol as [-> | ->]; unfold get; simpl; rewrite ?Hi, ?Ho; simpl;
    by destruct (f_downstream (input p)).
Qed.

Lemma del_last_snoc (l : list nat) o : del_last (l ++ [o]) = l.
Proof.
  unfold del_last. rewrite length_app. simpl.
  replace (length l + 1 - 1) with (length l) by lia.
  by rewrite take_app_length.
Qed.

(** X22. A terminated layer on top of a layer that is not terminated is
    unwound alone, by whichever side processes: it leaves the shared stack
    and both lists of operations, which stay aligned with the stack (the
    input in stack order, the output in reverse), the layers themselves
    are untouched, and the downstream of the input side is told to
    terminate and is disconnected, so that the input side emits nothing
    from then on. *)
Theorem terminated_top_layer_is_unwound pol (p : @pair L E)
    below o' o l' l d :
  pol = 1%Z ∨ pol = (-1)%Z →
  tf_polarity (input p) = 1%Z → tf_polarity (output p) = (-1)%Z →
  tf_stack p = (below ++ [o']) ++ [o] →
  tf_operations (input p) = tf_stack p →
  tf_operations (output p) = reverse (tf_stack p) →
  layers p !! o = Some l → layer_terminated l = true →
  layers p !! o' = Some l' → layer_terminated l' = false →
  f_downstream (input p) = Some d →
  ∃ p', finish layer_terminated pol p = Ok p'
    ∧ tf_stack p' = below ++ [o']
    ∧ tf_operations (input p') = tf_stack p'
    ∧ tf_operations (output p') = reverse (tf_stack p')
    ∧ layers p' = layers p
    ∧ effects p' = effects p ++ [Terminate d]
    ∧ f_downstream (input p') = None ∧ f_emit (input p') = None
    ∧ f_downstream (output p') = f_downstream (output p)
    ∧ f_emit (output p') = f_emit (output p).
Proof.
  intros Hpol Hi Ho Hs Hin Hout Hl Ht Hl' Ht' Hd. unfold finish.
  rewrite Hs, !reverse_app, !reverse_singleton. cbn [app].
  rewrite (pop_terminated_top pol p o _ l) by done. rewrite Hd.
  cbn [pop_terminated layers]. rewrite Hl', Ht'.
  rewrite reverse_cons, reverse_involutive. cbn [tf_stack with_stack].
  destruct (below ++ [o']) as [|a rest] eqn:Hb.
  { by destruct below. }
  rewrite <- Hb in Hs |- *. eexists. split; [done|]. simpl.
  rewrite Hin, Hout, Hs, del_last_snoc.
  rewrite (reverse_app (below ++ [o'])), reverse_singleton.
  repeat split; done.
Qed.


End TransportsUnwinding.

Section TransportsUnwindingExamples.
Import TransportsPairs.


Lemma terminated_top_layer_is_unwound_witness :
  ∃ p', finish (λ done : bool, done) (-1) (two_layers false true) = Ok p'
    ∧ tf_stack p' = [5]
    ∧ effects p' = [Terminate 7].
Proof.
  destruct (terminated_top_layer_is_unwound (λ done : bool, done) (-1)
              (two_layers false true) [] 5 6 false true 7)
    as (p' & H1 & H2 & _ & _ & _ & H3 & _); [by right|done..|].
  exists p'. split; [exact H1|]. split; [exact H2|exact H3].
Defined.

End TransportsUnwindingExamples.

(** ** Routing of layers to flows *)

Section DivisionFacts.
Import Division.

(** Projections of states written out. *)
Ltac fields :=
  unfold set_queues, set_flows, set_initiations, set_container_overflow,
    set_emitted;
  cbn [div_queues div_flows div_initiations div_container_overflow
       terminated emitted calls].

Lemma getitem_absent (d : list (nat * slot)) k v :
  getitem d k = None →
  setitem d k v = d ++ [(k, v)]
  ∧ delitem (d ++ [(k, v)]) k = d
  ∧ getitem (d ++ [(k, v)]) k = Some v.
Proof.
  induction d as [|[k' v'] d IH]; simpl.
  - intros _. by rewrite !bool_decide_eq_true_2.
  - case_bool_decide; [done|]. intros Hd.
    destruct (IH Hd) as (-> & -> & ->). done.
Qed.

Lemma operate_all_app a b (d : division) :
  operate_all (a ++ b) d = (operate_all a;; operate_all b) d.
Proof.
  revert d. induction a as [|e a IH]; intros d; simpl.
  - done.
  - unfold mbind, stateful_bind in *.
    destruct (operate e d) as [d1 [[]|x|]]; [|done..]. apply IH.
Qed.

Lemma operate_all_app_then {B} a b (k : () → stateful division B) d :
  (operate_all (a ++ b) ≫= k) d
  = (operate_all a ≫= λ _, operate_all b ≫= k) d.
Proof.
  unfold mbind at 1 2 3, stateful_bind at 1 2 3. rewrite operate_all_app.
  unfold mbind, stateful_bind.
  by destruct (operate_all a d) as [d1 [[]|e|]].
Qed.

(** The queue of a layer after the transfers [ds] were appended. *)
Lemma queued_transfers (l : nat) (ds : list (list nat))
    (qs : gmap nat (list (list nat))) :
  default [] (foldl (λ q data, <[l := default [] (q !! l) ++ [data]]> q)
                qs ds !! l)
  = default [] (qs !! l) ++ ds.
Proof.
  revert qs. induction ds as [|data ds IH]; intros qs; simpl.
  - by rewrite app_nil_r.
  - rewrite IH, lookup_insert_eq. simpl. by rewrite <- app_assoc.
Qed.

Lemma transfers_are_queued l ds qs flows inits over term em cs :
  getitem flows l = Some Unconnected →
  operate_all (transfer l <$> ds)
    {| div_queues := qs; div_flows := flows; div_initiations := inits;
       div_container_overflow := over; terminated := term;
       emitted := em; calls := cs |}
  = ({| div_queues :=
          foldl (λ q data, <[l := default [] (q !! l) ++ [data]]> q) qs ds;
        div_flows := flows; div_initiations := inits;
        div_container_overflow := over; terminated := term;
        emitted := em; calls := cs |}, Returned ()).
Proof.
  intros Hl. revert qs. induction ds as [|data ds IH]; intros qs; [done|].
  cbn [fmap list_fmap operate_all operate]. unfold div_transfer.
  unfold mbind, stateful_bind, get, modify in *. simpl. rewrite Hl.
  simpl. apply IH.
Qed.

Lemma transfers_are_processed l f ds qs flows inits over term em cs :
  getitem flows l = Some (Connected f) →
  operate_all (transfer l <$> ds)
    {| div_queues := qs; div_flows := flows; div_initiations := inits;
       div_container_overflow := over; terminated := term;
       emitted := em; calls := cs |}
  = ({| div_queues := qs; div_flows := flows; div_initiations := inits;
        div_container_overflow := over; terminated := term;
        emitted := em; calls := cs ++ (Processed f <$> ds) |}, Returned ()).
Proof.
  intros Hl. revert cs. induction ds as [|data ds IH]; intros cs.
  - simpl. by rewrite app_nil_r.
  - cbn [fmap list_fmap operate_all operate]. unfold div_transfer.
    unfold mbind, stateful_bind, get, call_flow, modify in *. simpl.
    rewrite Hl. simpl. rewrite IH, <- app_assoc. done.
Qed.

Lemma drained f q qs flows inits over term em cs :
  drain f q
    {| div_queues := qs; div_flows := flows; div_initiations := inits;
       div_container_overflow := over; terminated := term;
       emitted := em; calls := cs |}
  = ({| div_queues := qs; div_flows := flows; div_initiations := inits;
        div_container_overflow := over; terminated := term;
        emitted := em; calls := cs ++ (Processed f <$> q) |}, Returned ()).
Proof.
  revert cs. induction q as [|data q IH]; intros cs; simpl.
  - by rewrite app_nil_r.
  - unfold mbind, stateful_bind, call_flow, modify in *. simpl.
    rewrite IH, <- app_assoc. done.
Qed.

Lemma process_initiation l before qs flows inits over em cs :
  getitem flows l = None →
  process (initiate l :: (transfer l <$> before))
    {| div_queues := qs; div_flows := flows; div_initiations := inits;
       div_container_overflow := over; terminated := false;
       emitted := em; calls := cs |}
  = ({| div_queues :=
          foldl (λ q data, <[l := default [] (q !! l) ++ [data]]> q)
            qs before;
        div_flows := flows ++ [(l, Unconnected)]; div_initiations := [];
        div_container_overflow := over; terminated := false;
        emitted := em ++ [inits ++ [l]]; calls := cs |}, Returned ()).
Proof.
  intros Hl.
  destruct (getitem_absent flows l Unconnected Hl) as (Hset & Hdel & Hget).
  unfold process. rewrite run_get. cbn [terminated operate_all operate].
  assert (div_initiate l
            {| div_queues := qs; div_flows := flows;
               div_initiations := inits; div_container_overflow := over;
               terminated := false; emitted := em; calls := cs |}
          = ({| div_queues := qs; div_flows := flows ++ [(l, Unconnected)];
                div_initiations := inits ++ [l];
                div_container_overflow := over; terminated := false;
                emitted := em; calls := cs |}, Returned ())) as Hi.
  { unfold div_initiate. rewrite run_modify. unfold modify. simpl.
    by rewrite Hset. }
  rewrite (run_bind _ _ _ _ _
             (eq_trans (run_bind _ _ _ _ _ Hi)
                (transfers_are_queued l before _ _ _ _ _ _ _ Hget))).
  rewrite run_get. fields.
  destruct (inits ++ [l]) as [|i0 inits'] eqn:Hne; [by destruct inits|].
  rewrite <- Hne. by rewrite !run_modify.
Qed.

Lemma connect_drains l f s qs flows inits over em cs :
  getitem flows l = None →
  div_connect l (Some f)
    {| div_queues := qs; div_flows := flows ++ [(l, s)];
       div_initiations := inits; div_container_overflow := over;
       terminated := false; emitted := em; calls := cs |}
  = ({| div_queues := delete l qs;
        div_flows := flows ++ [(l, Connected f)];
        div_initiations := inits; div_container_overflow := over;
        terminated := false; emitted := em;
        calls := cs ++ [Watched f]
                 ++ (Processed f <$> default [] (qs !! l))
                 ++ match s with
                    | Closed => [Terminated f]
                    | _ => []
                    end |}, Returned ()).
Proof.
  intros Hl.
  destruct (getitem_absent flows l s Hl) as (Hset & Hdel & Hget).
  destruct (getitem_absent flows l (Connected f) Hl) as (Hset' & _ & _).
  unfold div_connect, call_flow. rewrite run_modify, run_get, run_modify.
  fields. rewrite Hdel, Hset', Hget. fields.
  rewrite (run_bind _ _ _ _ _ (drained f _ _ _ _ _ _ _ _)).
  rewrite run_modify. unfold modify, mret, stateful_ret. fields.
  destruct s; fields; by rewrite <- ?app_assoc, ?app_nil_r.
Qed.

Lemma process_closing l before qs flows inits over em cs :
  getitem flows l = None →
  process (initiate l :: ((transfer l <$> before) ++ [terminate l]))
    {| div_queues := qs; div_flows := flows; div_initiations := inits;
       div_container_overflow := over; terminated := false;
       emitted := em; calls := cs |}
  = ({| div_queues :=
          <[l := default [] (qs !! l) ++ before]>
            (foldl (λ q data, <[l := default [] (q !! l) ++ [data]]> q)
               qs before);
        div_flows := flows ++ [(l, Closed)]; div_initiations := [];
        div_container_overflow := over; terminated := false;
        emitted := em ++ [inits ++ [l]]; calls := cs |}, Returned ()).
Proof.
  intros Hl.
  destruct (getitem_absent flows l Unconnected Hl) as (Hset & Hdel & Hget).
  destruct (getitem_absent flows l Closed Hl) as (Hset' & _ & _).
  unfold process. rewrite run_get. cbn [terminated operate_all operate].
  assert (div_initiate l
            {| div_queues := qs; div_flows := flows;
               div_initiations := inits; div_container_overflow := over;
               terminated := false; emitted := em; calls := cs |}
          = ({| div_queues := qs; div_flows := flows ++ [(l, Unconnected)];
                div_initiations := inits ++ [l];
                div_container_overflow := over; terminated := false;
                emitted := em; calls := cs |}, Returned ())) as Hi.
  { unfold div_initiate. rewrite run_modify. unfold modify. simpl.
    by rewrite Hset. }
  assert ((div_initiate l;; operate_all ((transfer l <$> before) ++ [terminate l]))
            {| div_queues := qs; div_flows := flows;
               div_initiations := inits; div_container_overflow := over;
               terminated := false; emitted := em; calls := cs |}
          = ({| div_queues :=
                  <[l := default [] (qs !! l) ++ before]>
                    (foldl (λ q data, <[l := default [] (q !! l) ++ [data]]> q)
                       qs before);
                div_flows := flows ++ [(l, Closed)];
                div_initiations := inits ++ [l];
                div_container_overflow := over; terminated := false;
                emitted := em; calls := cs |}, Returned ())) as Hop.
  { rewrite (run_bind _ _ _ _ _ Hi), operate_all_app.
    rewrite (run_bind _ _ _ _ _
               (transfers_are_queued l before _ _ _ _ _ _ _ Hget)).
    cbn [operate_all operate]. unfold div_terminate.
    unfold mbind, stateful_bind, modify, get, mret, stateful_ret. fields.
    rewrite Hget. fields. rewrite Hdel, Hset', queued_transfers. done. }
  rewrite (run_bind _ _ _ _ _ Hop).
  rewrite run_get. fields.
  destruct (inits ++ [l]) as [|i0 inits'] eqn:Hne; [by destruct inits|].
  rewrite <- Hne. by rewrite !run_modify.
Qed.

Lemma process_termination l f after qs flows over em cs :
  getitem flows l = None →
  process ((transfer l <$> after) ++ [terminate l])
    {| div_queues := qs; div_flows := flows ++ [(l, Connected f)];
       div_initiations := []; div_container_overflow := over;
       terminated := false; emitted := em; calls := cs |}
  = ({| div_queues := <[l := default [] (qs !! l)]> qs;
        div_flows := flows; div_initiations := [];
        div_container_overflow := over; terminated := false;
        emitted := em;
        calls := cs ++ (Processed f <$> after)
                 ++ [Ignored f; Terminated f] |}, Returned ()).
Proof.
  intros Hl.
  destruct (getitem_absent flows l (Connected f) Hl) as (Hset & Hdel & Hget).
  unfold process. rewrite run_get. cbn [terminated].
  rewrite operate_all_app_then.
  rewrite (run_bind _ _ _ _ _
             (transfers_are_processed l f after _ _ _ _ _ _ _ Hget)).
  cbn [operate_all operate]. unfold div_terminate, call_flow.
  unfold mbind, stateful_bind, modify, get, mret, stateful_ret. fields.
  rewrite Hget. fields. rewrite Hdel.
  by rewrite <- !app_assoc.
Qed.

(** X25. The flow connected to a layer receives the transfers of the layer in
    the order they arrived, whether they came before the flow was
    connected, and were queued, or after; then it is ignored and
    terminated.  The layer is initiated in a channel that is not
    terminated and knows nothing of it; its initiation is emitted in one
    batch with those that were waiting; and the layer is forgotten at the
    end. *)
Theorem connected_flow_receives_the_layer_in_order d l f before after :
  terminated d = false →
  getitem (div_flows d) l = None →
  default [] (div_queues d !! l) = [] →
  let '(d', r) :=
    (process (initiate l :: (transfer l <$> before));;
     div_connect l (Some f);;
     process ((transfer l <$> after) ++ [terminate l])) d in
  r = Returned ()
  ∧ calls d'
    = calls d ++ [Watched f] ++ (Processed f <$> (before ++ after))
      ++ [Ignored f; Terminated f]
  ∧ emitted d' = emitted d ++ [div_initiations d ++ [l]]
  ∧ div_flows d' = div_flows d
  ∧ terminated d' = false.
Proof.
  destruct d as [qs flows inits over term em cs]. simpl.
  intros -> Hl Hq.
  rewrite (run_bind _ _ _ _ _
             (process_initiation l before _ _ _ _ _ _ Hl)).
  rewrite (run_bind _ _ _ _ _ (connect_drains l f _ _ _ _ _ _ _ Hl)).
  rewrite process_termination by done.
  rewrite queued_transfers, Hq. simpl.
  split; [done|]. split; [|done].
  rewrite fmap_app, app_nil_r, <- !app_assoc. done.
Qed.

Lemma connected_flow_receives_the_layer_in_order_witness :
  let '(d', r) :=
    (process [initiate 1; transfer 1 [10]; transfer 1 [11]];;
     div_connect 1 (Some 7);;
     process [transfer 1 [12]; terminate 1]) create in
  r = Returned ()
  ∧ calls d' = [Watched 7; Processed 7 [10]; Processed 7 [11];
                Processed 7 [12]; Ignored 7; Terminated 7].
Proof.
  pose proof (connected_flow_receives_the_layer_in_order create 1 7
                [[10]; [11]] [[12]] eq_refl eq_refl eq_refl) as H.
  cbn [fmap list_fmap app] in H.
  destruct ((process [initiate 1; transfer 1 [10]; transfer 1 [11]];;
             div_connect 1 (Some 7);;
             process [transfer 1 [12]; terminate 1]) create) as [d' r].
  destruct H as (H1 & H2 & _). split; [exact H1|exact H2].
Defined.

(** X26. A flow connected after its layer was terminated receives the
    transfers that were queued for it, in order, and is terminated at
    once; no queue is left for the layer, but the layer stays in
    [div_flows], connected. *)
Theorem late_flow_is_terminated_after_the_queue d l f before :
  terminated d = false →
  getitem (div_flows d) l = None →
  default [] (div_queues d !! l) = [] →
  let '(d', r) :=
    (process (initiate l :: ((transfer l <$> before) ++ [terminate l]));;
     div_connect l (Some f)) d in
  r = Returned ()
  ∧ calls d'
    = calls d ++ [Watched f] ++ (Processed f <$> before) ++ [Terminated f]
  ∧ div_queues d' !! l = None
  ∧ div_flows d' = div_flows d ++ [(l, Connected f)].
Proof.
  destruct d as [qs flows inits over term em cs].
  intros Ht Hl Hq. simpl in Ht, Hl, Hq. subst term.
  rewrite (run_bind _ _ _ _ _
             (process_closing l before _ _ _ _ _ _ Hl)).
  rewrite connect_drains by done. simpl.
  rewrite lookup_insert_eq, lookup_delete_eq, Hq. done.
Qed.

Lemma late_flow_is_terminated_after_the_queue_witness :
  let '(d', r) :=
    (process [initiate 1; transfer 1 [10]; transfer 1 [11]; terminate 1];;
     div_connect 1 (Some 7)) create in
  r = Returned ()
  ∧ calls d' = [Watched 7; Processed 7 [10]; Processed 7 [11]; Terminated 7].
Proof.
  pose proof (late_flow_is_terminated_after_the_queue create 1 7
                [[10]; [11]] eq_refl eq_refl eq_refl) as H.
  cbn [fmap list_fmap app] in H.
  destruct ((process [initiate 1; transfer 1 [10]; transfer 1 [11];
                      terminate 1];; div_connect 1 (Some 7)) create)
    as [d' r].
  destruct H as (H1 & H2 & _). split; [exact H1|exact H2].
Defined.

End DivisionFacts.

(** ** Exits and their reaping *)

Section SectorReaping.
Import Sector.

Lemma alter_found {A} (f : A → A) (m : gmap nat A) k a :
  m !! k = Some a → alter f k m = <[k := f a]> m.
Proof.
  intros Hk. apply map_eq. intros j. destruct (decide (j = k)) as [->|Hne].
  - by rewrite lookup_alter_eq, lookup_insert_eq, Hk.
  - by rewrite lookup_alter_ne, lookup_insert_ne.
Qed.

(** One call of [exited] on a sector. *)
Lemma exited_once ctl p s c :
  procs s !! ctl = Some c → class_of c = SectorClass →
  ∃ s', exited ctl p s = (s', Returned ())
    ∧ procs s'
      = <[ctl := set_exits (Some ({[ p ]} ∪ default ∅ (exits c))) c]> (procs s)
    ∧ tasks s'
      = tasks s ++ match exits c with
                   | None => [reap_task ctl]
                   | Some _ => []
                   end
    ∧ invoked s' = invoked s ∧ root s' = root s.
Proof.
  intros Hc Hclass. unfold exited.
  rewrite (run_bind _ _ _ _ _ (the_found _ _ _ Hc)), Hclass.
  destruct (exits c) as [xs|] eqn:Hx.
  - rewrite run_ret. eexists. split; [done|]. simpl.
    rewrite (alter_found _ _ _ _ Hc), Hx, app_nil_r. done.
  - eexists. split; [reflexivity|].
    simpl. rewrite (alter_found (set_exits (Some ∅)) _ _ _ Hc).
    rewrite (alter_found _ _ _ _ (lookup_insert_eq _ _ _)), insert_insert_eq.
    simpl. split; [|done]. do 3 f_equal.
Qed.

(** X27. However many processors report their exit to a sector before the
    context runs its tasks, the sector asks for one [reap]: the first exit
    of a batch enqueues it, the later ones only join the set of exits,
    which holds them all afterwards.  Nothing else changes. *)
Theorem exits_share_one_reap ctl ps s c :
  procs s !! ctl = Some c → class_of c = SectorClass →
  let '(s', r) := for_each ps (exited ctl) s in
  r = Returned ()
  ∧ tasks s'
    = tasks s ++ (if bool_decide (ps ≠ [] ∧ exits c = None)
                  then [reap_task ctl] else [])
  ∧ procs s'
    = (if bool_decide (ps = []) then procs s
       else <[ctl := set_exits
                       (Some (list_to_set ps ∪ default ∅ (exits c))) c]>
              (procs s))
  ∧ invoked s' = invoked s ∧ root s' = root s.
Proof.
  revert s c. induction ps as [|p rest IH]; intros s c Hc Hclass.
  - cbn [for_each]. rewrite bool_decide_eq_false_2 by (by intros [? _]).
    rewrite bool_decide_eq_true_2 by done. by rewrite app_nil_r.
  - cbn [for_each].
    destruct (exited_once ctl p s c Hc Hclass)
      as (s1 & Hrun & Hprocs & Htasks & Hinv & Hroot).
    rewrite (run_bind _ _ _ _ _ Hrun).
    specialize (IH s1 (set_exits (Some ({[ p ]} ∪ default ∅ (exits c))) c)).
    destruct (for_each rest (exited ctl) s1) as [s' r].
    destruct IH as (Hr & Ht & Hp & Hi & Hro);
      [by rewrite Hprocs, lookup_insert_eq|done|].
    split; [done|]. rewrite Hi, Hro, Hinv, Hroot.
    split; [|split; [|done]].
    + rewrite Ht, Htasks. simpl.
      rewrite (bool_decide_eq_false_2 (_ ∧ Some _ = None))
        by (by intros [_ ?]).
      rewrite app_nil_r. destruct (exits c).
      * rewrite bool_decide_eq_false_2 by (by intros [_ ?]). done.
      * by rewrite bool_decide_eq_true_2.
    + assert (∀ A B C : gset nat, A ∪ (B ∪ C) = (B ∪ A) ∪ C) as Hassoc.
      { intros A B C. apply set_eq. intros y. rewrite !elem_of_union. tauto. }
      rewrite Hp, Hprocs. destruct rest as [|q rest'].
      * rewrite bool_decide_eq_true_2, bool_decide_eq_false_2 by done.
        change (list_to_set [p]) with ({[ p ]} ∪ (∅ : gset nat)).
        by rewrite (right_id_L ∅ (∪)).
      * rewrite !bool_decide_eq_false_2 by done.
        rewrite insert_insert_eq. cbn [exits set_exits default id].
        rewrite Hassoc. done.
Qed.

Lemma exits_share_one_reap_witness :
  let '(s', r) := for_each [3; 4; 3] (exited 2) supervised_state in
  r = Returned () ∧ tasks s' = [reap_task 2].
Proof.
  destruct (procs supervised_state !! 2) as [c|] eqn:Hc;
    [|by vm_compute in Hc].
  assert (class_of c = SectorClass ∧ exits c = None) as [Hclass Hx].
  { vm_compute in Hc. injection Hc as <-. done. }
  pose proof (exits_share_one_reap 2 [3; 4; 3] supervised_state c Hc Hclass)
    as H.
  destruct (for_each [3; 4; 3] (exited 2) supervised_state) as [s' r].
  destruct H as (H1 & H2 & _). split; [exact H1|].
  rewrite H2, bool_decide_eq_true_2 by (by rewrite Hx). reflexivity.
Defined.

(** *** The reaping of one exit *)

Lemma update_found p f s pr :
  procs s !! p = Some pr →
  update p f s = (set_procs (<[p := f pr]> (procs s)) s, Returned ()).
Proof.
  intros Hp. unfold update, modify. by rewrite (alter_found _ _ _ _ Hp).
Qed.

Lemma prune_discard key x (m : gmap nat (gset nat)) :
  prune key (discard key x m)
  = if bool_decide (default ∅ (m !! key) ∖ {[ x ]} = ∅)
    then delete key m
    else <[key := default ∅ (m !! key) ∖ {[ x ]}]> m.
Proof.
  unfold prune, discard. rewrite lookup_insert_eq. simpl.
  case_bool_decide; [apply delete_insert_eq|apply insert_insert_eq].
Qed.

(** [exit_event_emit] for a processor [x], on the sector [p]. *)
Lemma exit_event_emit_found p x s pr :
  procs s !! p = Some pr →
  ∃ pr', exit_event_emit p x s
         = (set_tasks (tasks s ++ ((λ cb, exit_callback cb x) <$>
                         default [] (default ∅ (exit_event_connections pr) !! x)))
              (set_procs (<[p := pr']> (procs s)) s), Returned ())
    ∧ default ∅ (exit_event_connections pr')
      = delete x (default ∅ (exit_event_connections pr))
    ∧ set_connections None pr' = set_connections None pr.
Proof.
  intros Hp. unfold exit_event_emit.
  rewrite (run_bind _ _ _ _ _ (the_found _ _ _ Hp)).
  destruct (exit_event_connections pr) as [eec|] eqn:He.
  - unfold enqueue. rewrite run_modify.
    erewrite update_found by exact Hp.
    eexists. split; [reflexivity|]. simpl. split; [|done].
    by case_bool_decide as Hempty; [rewrite Hempty|].
  - exists pr. unfold mret, stateful_ret. simpl. rewrite delete_empty.
    rewrite He, app_nil_r, insert_id by done. split; [|done].
    by destruct s.
Qed.

(** X28. The reaping of one exit.  When the exit of [x] is the one exit a
    sector has been told of, its [reap] takes [x] out of the processors of
    its class, drops the class when no processor of it is left, and
    enqueues the at-exit callbacks connected for [x], in the order they
    were connected, and disconnects them.  If no processor is left and the
    sector was not interrupted, the sector is terminated and reports its
    own exit to its controller, which asks for a [reap] unless it has
    exits pending already; otherwise the sector goes on. *)
Theorem reap_of_one_exit depth p x s pr xr :
  procs s !! p = Some pr → exits pr = Some {[ x ]} → x ≠ p →
  procs s !! x = Some xr → scheduler pr = None →
  (∀ ctl, controller pr = Some ctl →
     ctl ≠ p ∧ ∃ c, procs s !! ctl = Some c ∧ class_of c = SectorClass) →
  let key := placement (class_of xr) in
  let remaining := default ∅ (processors pr !! key) ∖ {[ x ]} in
  let left :=
    if bool_decide (remaining = ∅) then delete key (processors pr)
    else <[key := remaining]> (processors pr) in
  let complete := bool_decide (left = ∅) && negb (interrupted pr) in
  let '(s', r) := reap depth p s in
  r = Returned ()
  ∧ invoked s' = invoked s
  ∧ tasks s'
    = tasks s
      ++ ((λ cb, exit_callback cb x) <$>
            default [] (default ∅ (exit_event_connections pr) !! x))
      ++ (if complete then
            match controller pr with
            | Some ctl =>
              match procs s !! ctl ≫= exits with
              | None => [reap_task ctl]
              | Some _ => []
              end
            | None => []
            end
          else [])
  ∧ ∃ pr', procs s' !! p = Some pr'
      ∧ exits pr' = None
      ∧ processors pr' = left
      ∧ terminated pr' = (complete || terminated pr)
      ∧ interrupted pr' = interrupted pr
      ∧ default ∅ (exit_event_connections pr')
        = delete x (default ∅ (exit_event_connections pr)).
Proof.
  intros Hp Hx Hne Hxr Hsch Hctl. cbv zeta.
  unfold reap. rewrite (run_bind _ _ _ _ _ (the_found _ _ _ Hp)), Hx.
  rewrite elements_singleton. cbn [for_each].
  (* the exits are taken *)
  rewrite (run_bind _ _ _ _ _ (update_found p (set_exits None) s pr Hp)).
  set (s1 := set_procs (<[p := set_exits None pr]> (procs s)) s).
  assert (procs s1 !! x = Some xr) as Hx1
    by (unfold s1; simpl; by rewrite lookup_insert_ne).
  assert (procs s1 !! p = Some (set_exits None pr)) as Hp1
    by (unfold s1; simpl; by rewrite lookup_insert_eq).
  (* the first loop *)
  set (pr2 := set_processors
                (discard (placement (class_of xr)) x (processors pr))
                (set_exits None pr)).
  set (s2 := set_procs (<[p := pr2]> (procs s1)) s1).
  assert (procs s2 !! p = Some pr2) as Hp2
    by (unfold s2; simpl; by rewrite lookup_insert_eq).
  destruct (exit_event_emit_found p x s2 pr2 Hp2)
    as (pr3 & Hemit & Hconn3 & Hsame3).
  set (s3 := set_tasks _ _) in Hemit.
  assert (procs s3 !! x = Some xr) as Hx3.
  { unfold s3, s2. simpl. by rewrite !lookup_insert_ne. }
  assert (procs s3 !! p = Some pr3) as Hp3
    by (unfold s3; simpl; by rewrite lookup_insert_eq).
  assert ((xr0 ← the x;
           update p (λ pr0, set_processors
                       (discard (placement (class_of xr0)) x (processors pr0))
                       pr0);;
           exit_event_emit p x) s1 = (s3, Returned ())) as Hloop1.
  { rewrite (run_bind _ _ _ _ _ (the_found _ _ _ Hx1)).
    rewrite (run_bind _ _ _ _ _ (update_found p _ s1 _ Hp1)). exact Hemit. }
  rewrite (run_bind _ _ _ _ _ (run_bind _ _ _ _ _ Hloop1)).
  (* the second loop *)
  set (pr4 := set_processors
                (prune (placement (class_of xr)) (processors pr3)) pr3).
  set (s4 := set_procs (<[p := pr4]> (procs s3)) s3).
  assert ((xr0 ← the x;
           update p (λ pr0, set_processors
                       (prune (placement (class_of xr0)) (processors pr0))
                       pr0)) s3 = (s4, Returned ())) as Hloop2.
  { rewrite (run_bind _ _ _ _ _ (the_found _ _ _ Hx3)).
    by rewrite (update_found p _ s3 _ Hp3). }
  rewrite (run_bind _ _ _ _ _ (run_bind _ _ _ _ _ Hloop2)).
  assert (procs s4 !! p = Some pr4) as Hp4
    by (unfold s4; simpl; by rewrite lookup_insert_eq).
  (* what the sector holds now *)
  assert (processors pr3 = processors pr2 ∧ interrupted pr3 = interrupted pr
          ∧ terminated pr3 = terminated pr ∧ exits pr3 = None
          ∧ scheduler pr3 = None ∧ controller pr3 = controller pr)
    as (Hprocs3 & Hint3 & Hterm3 & Hex3 & Hsch3 & Hctl3).
  { change (processors (set_connections None pr3)
            = processors (set_connections None pr2)
            ∧ interrupted (set_connections None pr3)
              = interrupted (set_connections None pr2)
            ∧ terminated (set_connections None pr3)
              = terminated (set_connections None pr2)
            ∧ exits (set_connections None pr3)
              = exits (set_connections None pr2)
            ∧ scheduler (set_connections None pr3) = None
            ∧ controller (set_connections None pr3)
              = controller (set_connections None pr2)).
    rewrite Hsame3. simpl. by rewrite Hsch. }
  assert (processors pr4
          = if bool_decide (default ∅ (processors pr !! placement (class_of xr))
                            ∖ {[ x ]} = ∅)
            then delete (placement (class_of xr)) (processors pr)
            else <[placement (class_of xr) :=
                     default ∅ (processors pr !! placement (class_of xr))
                     ∖ {[ x ]}]> (processors pr)) as Hleft.
  { unfold pr4. simpl. rewrite Hprocs3. unfold pr2. simpl.
    apply prune_discard. }
  assert (tasks s4 = tasks s ++ ((λ cb, exit_callback cb x) <$>
            default [] (default ∅ (exit_event_connections pr) !! x))
          ∧ invoked s4 = invoked s) as [Htasks4 Hinv4] by done.
  (* completion *)
  unfold reaped. rewrite (run_bind _ _ _ _ _ (the_found _ _ _ Hp4)).
  assert (interrupted pr4 = interrupted pr) as Hint4 by exact Hint3.
  rewrite Hleft, Hint4.
  set (left := if bool_decide _ then _ else _) in *.
  destruct (bool_decide (left = ∅) && negb (interrupted pr)) eqn:Hcomplete.
  - rewrite (run_bind _ _ _ _ _ (update_found p set_terminated s4 pr4 Hp4)).
    change (scheduler pr4) with (scheduler pr3). rewrite Hsch3, run_ret.
    change (controller pr4) with (controller pr3). rewrite Hctl3.
    set (s5 := set_procs (<[p := set_terminated pr4]> (procs s4)) s4).
    destruct (controller pr) as [ctl|] eqn:Hc.
    + destruct (Hctl ctl eq_refl) as (Hcp & c & Hcs & Hclass).
      assert (procs s5 !! ctl = Some c) as Hc5.
      { unfold s5, s4, s3, s2, s1. simpl. by rewrite !lookup_insert_ne. }
      destruct (exited_once ctl p s5 c Hc5 Hclass)
        as (s6 & Hrun & Hprocs6 & Htasks6 & Hinv6 & _).
      rewrite Hrun. split; [done|]. split; [by rewrite Hinv6|].
      split.
      * rewrite Htasks6. change (tasks s5) with (tasks s4).
        rewrite Htasks4, Hcs, <- app_assoc. simpl. by destruct (exits c).
      * exists (set_terminated pr4). rewrite Hprocs6.
        rewrite lookup_insert_ne by done. unfold s5. simpl.
        rewrite lookup_insert_eq. split; [done|]. simpl.
        rewrite Hex3. repeat split; try done.
    + unfold mret, stateful_ret. split; [done|]. split; [done|].
      split; [by rewrite app_nil_r|].
      exists (set_terminated pr4). unfold s5. simpl.
      rewrite lookup_insert_eq. split; [done|]. simpl.
      rewrite Hex3. repeat split; try done.
  - unfold mret, stateful_ret. split; [done|]. split; [done|].
    split; [by rewrite app_nil_r|].
    exists pr4. split; [done|]. simpl. rewrite Hex3, Hterm3.
    repeat split; try done.
Qed.

Lemma reap_of_one_exit_witness :
  let s := (exited 2 3 supervised_state).1 in
  let '(s', r) := reap 64 2 s in
  r = Returned () ∧ tasks s' = [reap_task 2; reap_task 1].
Proof.
  intros s.
  destruct (procs s !! 2) as [pr|] eqn:Hp; [|by vm_compute in Hp].
  destruct (procs s !! 3) as [xr|] eqn:Hx; [|by vm_compute in Hx].
  vm_compute in Hp, Hx. injection Hp as <-. injection Hx as <-.
  match goal with
  | |- context [reap 64 2 s] =>
    pose proof (λ pr xr Hp Hx He Hs Hc,
                  reap_of_one_exit 64 2 3 s pr xr Hp He ltac:(lia) Hx Hs Hc)
      as H
  end.
  specialize (H _ _ ltac:(vm_compute; reflexivity)
                ltac:(vm_compute; reflexivity)).
  cbv zeta in H.
  destruct (reap 64 2 s) as [s' r].
  destruct H as (H1 & _ & H2 & _).
  - reflexivity.
  - reflexivity.
  - intros ctl [= <-]. split; [lia|]. eexists. split; [by vm_compute|done].
  - split; [exact H1|]. rewrite H2. by vm_compute.
Defined.

End SectorReaping.

(** ** Back pressure behind the head of line *)

Section CatenationQueues.
Import Channel Catenation.

Lemma connection_of_found c flow cxn :
  cat_connections c !! flow = Some cxn →
  connection_of flow c = (c, Returned cxn).
Proof. intros H. unfold connection_of. by rewrite run_get, H. Qed.

Lemma head_of_line_found c head rest :
  cat_order c = head :: rest → head_of_line c = (c, Returned head).
Proof. intros H. unfold head_of_line. by rewrite run_get, H. Qed.

Lemma cat_overflowing_found c flow cxn :
  cat_connections c !! flow = Some cxn →
  cat_overflowing flow c
  = (c, Returned match queue cxn with
                 | None => false
                 | Some q => 8 <? length q
                 end).
Proof.
  intros H. unfold cat_overflowing.
  rewrite (run_bind _ _ _ _ _ (connection_of_found _ _ _ H)).
  by destruct (queue cxn).
Qed.

(** One batch sent by a flow that is not first in line. *)
Lemma send_behind_head c source cxn head rest q b :
  terminated c = false →
  cat_connections c !! source = Some cxn →
  cat_order c = head :: rest → layer cxn ≠ head →
  queue cxn = Some q →
  let c' := step c (Send source b) in
  cat_connections c'
  = <[source := {| queue := Some (q ++ [b]); layer := layer cxn;
                   term := term cxn |}]> (cat_connections c)
  ∧ f_obstructed (upstream c' source)
    = f_obstructed (upstream c source) || (8 <? length (q ++ [b]))
  ∧ cat_order c' = cat_order c ∧ terminated c' = false
  ∧ cat_events c' = cat_events c ∧ emitted c' = emitted c
  ∧ tasks c' = tasks c ∧ faults c' = faults c.
Proof.
  intros Ht Hc Ho Hl Hq. cbv zeta. unfold step, perform, process.
  rewrite run_get, Ht.
  rewrite bool_decide_eq_true_2 by (by eexists).
  unfold cat_transfer.
  rewrite (run_bind _ _ _ _ _ (connection_of_found _ _ _ Hc)).
  rewrite (run_bind _ _ _ _ _ (head_of_line_found _ _ _ Ho)).
  rewrite bool_decide_eq_false_2 by done. rewrite Hq.
  rewrite run_modify, run_get.
  set (c1 := set_connections _ c).
  assert (cat_connections c1 !! source
          = Some {| queue := Some (q ++ [b]); layer := layer cxn;
                    term := term cxn |}) as Hc1
    by (unfold c1; simpl; by rewrite lookup_insert_eq).
  rewrite (run_bind _ _ _ _ _ (cat_overflowing_found _ _ _ Hc1)).
  cbn [queue].
  change (upstream c1 source) with (upstream c source).
  destruct (f_obstructed (upstream c source)) eqn:Hobs; simpl.
  - unfold upstream in *. simpl. by rewrite Hobs.
  - destruct (8 <? length (q ++ [b])) eqn:Hover; simpl.
    + unfold upstream. simpl. by rewrite lookup_insert_eq.
    + unfold upstream in *. simpl. by rewrite Hobs.
Qed.

(** X29. Transfers of a flow that is not first in line are queued, in order,
    and nothing of them is emitted; the upstream is obstructed once more
    than eight transfers are queued, and not before.  The channel is not
    terminated, the flow is connected with a queue, and its layer is not
    the head of line. *)
Theorem queued_transfers_obstruct_the_upstream c source cxn head rest q bs :
  terminated c = false →
  cat_connections c !! source = Some cxn →
  cat_order c = head :: rest → layer cxn ≠ head →
  queue cxn = Some q →
  let c' := run c (Send source <$> bs) in
  (∃ cxn', cat_connections c' !! source = Some cxn'
     ∧ queue cxn' = Some (q ++ bs) ∧ layer cxn' = layer cxn
     ∧ term cxn' = term cxn)
  ∧ f_obstructed (upstream c' source)
    = f_obstructed (upstream c source)
      || (negb (bool_decide (bs = [])) && (8 <? length (q ++ bs)))
  ∧ cat_order c' = cat_order c
  ∧ cat_events c' = cat_events c ∧ emitted c' = emitted c
  ∧ tasks c' = tasks c ∧ faults c' = faults c.
Proof.
  revert c cxn q. induction bs as [|b bs IH]; intros c cxn q Ht Hc Ho Hl Hq.
  - cbv zeta. simpl. rewrite app_nil_r, orb_false_r.
    split; [by exists cxn|done].
  - cbv zeta. change (run c (Send source <$> b :: bs))
      with (run (step c (Send source b)) (Send source <$> bs)).
    destruct (send_behind_head c source cxn head rest q b Ht Hc Ho Hl Hq)
      as (Hc1 & Hobs1 & Ho1 & Ht1 & He1 & Hem1 & Hta1 & Hf1).
    set (c1 := step c (Send source b)) in *.
    specialize (IH c1 {| queue := Some (q ++ [b]); layer := layer cxn;
                         term := term cxn |} (q ++ [b]) Ht1).
    destruct IH as ((cxn' & Hc' & Hq' & Hl' & Ht') & Hobs' & Ho' & He' & Hem'
                    & Hta' & Hf').
    { by rewrite Hc1, lookup_insert_eq. }
    { by rewrite Ho1. }
    { done. }
    { done. }
    split.
    { exists cxn'. by rewrite <- app_assoc in Hq'. }
    split.
    { rewrite Hobs', Hobs1, <- !app_assoc. simpl.
      destruct (f_obstructed (upstream c source)); [done|]. simpl.
      destruct bs as [|b' bs']; simpl.
      - by rewrite orb_false_r.
      - rewrite !length_app. simpl.
        destruct (8 <? length q + 1) eqn:H1; simpl; [|done].
        symmetry. apply Nat.ltb_lt. apply Nat.ltb_lt in H1. lia. }
    rewrite Ho', He', Hem', Hta', Hf'. done.
Qed.

Lemma queued_transfers_obstruct_the_upstream_witness :
  let c := run (create 0) [Reserve 1; Reserve 2; Connect 2 (Some 20)] in
  let c' := run c (Send 20 <$> replicate 9 [7]) in
  f_obstructed (upstream c' 20) = true ∧ emitted c' = emitted c.
Proof.
  intros c c'.
  destruct (queued_transfers_obstruct_the_upstream c 20
              {| queue := Some []; layer := 2; term := None |} 1 [2] []
              (replicate 9 [7]))
    as (_ & H1 & _ & _ & H2 & _); [reflexivity..|simpl; lia|reflexivity|].
  split; [|exact H2]. fold c' in H1. rewrite H1. reflexivity.
Defined.

(** X30. When the turn of a connected flow comes, [cat_drain] initiates its
    layer and hands over the transfers queued for it, in the order they
    were queued, after what is already waiting to be flushed; the flow has
    no queue from then on, the obstruction this channel may have put on
    the upstream is lifted, and a flush is asked for unless one is already
    due.  The flow has not terminated. *)
Theorem drain_delivers_the_queue_in_order c head rest f cxn q :
  cat_order c = head :: rest →
  cat_flows c !! head = Some (Some f) →
  cat_connections c !! f = Some cxn →
  queue cxn = Some q → term cxn = None →
  let '(c', r) := cat_drain c in
  r = Returned ()
  ∧ cat_events c'
    = cat_events c ++ [initiate (layer cxn)] ++ (transfer (layer cxn) <$> q)
  ∧ cat_connections c'
    = <[f := {| queue := None; layer := layer cxn; term := None |}]>
        (cat_connections c)
  ∧ f_obstructions (upstream c' f) ≫= (λ m, m !! self (own c)) = None
  ∧ tasks c'
    = tasks c ++ match cat_events c with
                 | [] => [cat_flush_task]
                 | _ :: _ => []
                 end
  ∧ cat_order c' = cat_order c ∧ emitted c' = emitted c.
Proof.
  intros Ho Hf Hc Hq Ht. unfold cat_drain.
  rewrite run_get, Ho. cbn [bool_decide decide_rel negb assert].
  rewrite bool_decide_eq_false_2 by done.
  cbn [negb assert]. rewrite run_ret.
  rewrite (run_bind _ _ _ _ _ (head_of_line_found _ _ _ Ho)), Hf.
  rewrite (run_bind _ _ _ _ _ (connection_of_found _ _ _ Hc)).
  assert (∃ c1, flush_when_first c = (c1, Returned ())
            ∧ tasks c1 = tasks c ++ match cat_events c with
                                    | [] => [cat_flush_task]
                                    | _ :: _ => []
                                    end
            ∧ cat_events c1 = cat_events c
            ∧ cat_connections c1 = cat_connections c
            ∧ upstreams c1 = upstreams c ∧ own c1 = own c
            ∧ cat_order c1 = cat_order c ∧ emitted c1 = emitted c)
    as (c1 & Hflush & Ht1 & He1 & Hc1 & Hu1 & Ho1 & Hor1 & Hem1).
  { unfold flush_when_first. rewrite run_get.
    destruct (cat_events c) eqn:He.
    - eexists. split; [reflexivity|]. simpl. by rewrite ?He.
    - exists c. by rewrite ?He, app_nil_r. }
  rewrite (run_bind _ _ _ _ _ Hflush). unfold add.
  rewrite run_modify, Hq, run_modify, Ht, run_modify.
  unfold modify. split; [done|]. simpl.
  rewrite He1, Hc1, Ht1, Hor1, Hem1, <- app_assoc.
  repeat split; try done.
  unfold upstream at 1. simpl. rewrite lookup_insert_eq. simpl.
  rewrite Ho1. apply f_clear_removes.
Qed.

Lemma drain_delivers_the_queue_in_order_witness :
  let c := run (create 0)
             [Reserve 1; Reserve 2; Connect 2 (Some 20);
              Send 20 [7]; Send 20 [8];
              Connect 1 (Some 10); End 10; Tick] in
  cat_order c = [2] ∧ tasks c = [cat_drain_task]
  ∧ observed c = [initiate 1; terminate 1]
  ∧ cat_events (cat_drain c).1
    = [initiate 2; transfer 2 [7]; transfer 2 [8]].
Proof.
  intros c.
  assert (cat_order c = [2]) as Ho by (by vm_compute).
  assert (cat_flows c !! 2 = Some (Some 20)) as Hf by (by vm_compute).
  assert (cat_connections c !! 20
          = Some {| queue := Some [[7]; [8]]; layer := 2; term := None |})
    as Hc by (by vm_compute).
  assert (cat_events c = []) as He by (by vm_compute).
  pose proof (drain_delivers_the_queue_in_order c 2 [] 20 _ [[7]; [8]]
                Ho Hf Hc eq_refl eq_refl) as H.
  destruct (cat_drain c) as [c' r]. destruct H as (_ & H & _).
  rewrite He in H.
  split; [exact Ho|]. split; [by vm_compute|]. split; [by vm_compute|].
  exact H.
Defined.

End CatenationQueues.
